(** * The stream Writer of wandb core: forwarding and persistence of records

    Shallow embedding of [core/internal/server/stream/writer.go].

    The Writer goroutine and the persistence worker it launches are written
    in a small state-and-outcome monad over a [World] that holds the Writer
    struct, the heap of [pb.Record] objects (records travel as pointers and
    are mutated in place), the state of the goroutine launched by
    [startStore], and the chronological trace of observable actions.
    [Module Conc] then interleaves the two goroutines step by step. *)

From Stdlib Require Import ZArith List String Bool Arith Lia.
Import ListNotations.

Set Implicit Arguments.

(** ** Protobuf messages *)

Definition bytes := list Byte.byte.

(** A Go [error] value; [None] is [nil]. *)
Definition error := string.

(** Modelled from the spec: the generated package [wandb_core_go_proto] is
    not among the sources.  [pb.Control] carries the two flags the Writer
    reads. *)
Record pbControl := mkControl {
  Local : bool;
  AlwaysSend : bool
}.

(** Modelled from the spec: the [RecordType] oneof of [pb.Record].  The
    Writer only tells the request case from every other case; [field]
    names which of the other cases it is. *)
Inductive isRecord_RecordType :=
| Record_Request (payload : bytes)
| Record_Data (field : nat) (payload : bytes).

(** Modelled from the spec: [pb.Record].  [RecordType] and [Control] are
    pointers and may be nil. *)
Record pbRecord := mkRecord {
  Num : Z;
  RecordType : option isRecord_RecordType;
  Control : option pbControl
}.

(** Modelled from the spec: [pb.Settings], with the wrapper-typed fields
    ([BoolValue], [StringValue]) as optional values. *)
Record pbSettings := mkSettings {
  XSync : option bool;
  XOffline : option bool;
  SyncFile : option string;
  RunId : option string
}.

(** The generated getters are nil-safe. *)
Definition GetControl (r : pbRecord) : option pbControl := Control r.

Definition GetLocal (c : option pbControl) : bool :=
  match c with Some c => Local c | None => false end.

Definition GetAlwaysSend (c : option pbControl) : bool :=
  match c with Some c => AlwaysSend c | None => false end.

Definition GetXSync (s : option pbSettings) : option bool :=
  match s with Some s => XSync s | None => None end.

Definition GetXOffline (s : option pbSettings) : option bool :=
  match s with Some s => XOffline s | None => None end.

Definition GetSyncFile (s : option pbSettings) : option string :=
  match s with Some s => SyncFile s | None => None end.

Definition GetValue (b : option bool) : bool :=
  match b with Some v => v | None => false end.

Definition GetValueS (b : option string) : string :=
  match b with Some v => v | None => EmptyString end.

(** ** Machine integers *)

(** [int64] arithmetic wraps around in two's complement. *)
Definition wrap64 (z : Z) : Z := ((z + 2 ^ 63) mod 2 ^ 64 - 2 ^ 63)%Z.

Definition int64_add (a b : Z) : Z := wrap64 (a + b).

(** ** Pointers, channels, events *)

(** A non-nil [*pb.Record]. *)
Definition loc := nat.

Definition heap := loc -> pbRecord.

Definition upd (h : heap) (p : loc) (r : pbRecord) : heap :=
  fun q => if Nat.eqb q p then r else h q.

(** A channel of record pointers: its capacity, the elements sent and not
    yet received, and whether it has been closed. *)
Record chan := mkChan {
  cap : nat;
  buf : list loc;
  closed : bool
}.

Definition make_chan (n : nat) : chan := mkChan n [] false.

Definition chan_push (c : chan) (p : loc) : chan :=
  mkChan (cap c) (buf c ++ [p]) (closed c).

Definition chan_pop (c : chan) : chan :=
  mkChan (cap c) (tl (buf c)) (closed c).

Definition chan_close (c : chan) : chan :=
  mkChan (cap c) (buf c) true.

Inductive level := Debug | Info | Error | Fatal.

(** The observable actions, in the order they happen. *)
Inductive event :=
| EvLog (l : level) (msg : string)
| EvFwd (p : loc)                    (* w.fwdChan <- record *)
| EvStore (p : loc)                  (* w.storeChan <- record *)
| EvCloseFwd                         (* close(w.fwdChan) *)
| EvCloseStore                       (* close(w.storeChan) *)
| EvOpen (ok : bool)                 (* w.store.Open() *)
| EvGo                               (* go func() {...}() *)
| EvRecv (p : loc)                   (* record := <-w.storeChan *)
| EvWrite (out : bytes) (ok : bool)  (* w.store.Write(out) *)
| EvStoreClose (ok : bool)           (* w.store.Close() *)
| EvDone                             (* w.wg.Done() *)
| EvReturn.                          (* Do returns *)

(** The goroutine launched by [startStore]. *)
Inductive wstatus := NotStarted | Ranging | Exited.

(** ** The environment of the Writer *)

(** The store package, [proto.Marshal] and the constant [BufferSize] are
    not among the sources; they are parameters of the development.  A
    store is any deterministic state machine with the three operations
    the Writer calls. *)
Class Env := {
  Store : Type;
  store_New : string -> Store;
  store_Open : Store -> Store * option error;
  store_Write : Store -> bytes -> Store * option error;
  store_Close : Store -> Store * option error;
  proto_Marshal : pbRecord -> bytes + error;
  BufferSize : nat
}.

Section Model.

Context {E : Env}.

(** ** The Writer struct *)

Record Writer := mkWriter {
  settings : option pbSettings;
  fwdChan : option chan;
  storeChan : option chan;
  store : option Store;
  recordNum : Z;
  wg : nat
}.

Definition set_settings (v : option pbSettings) (w : Writer) : Writer :=
  mkWriter v (fwdChan w) (storeChan w) (store w) (recordNum w) (wg w).

Definition set_fwdChan (v : option chan) (w : Writer) : Writer :=
  mkWriter (settings w) v (storeChan w) (store w) (recordNum w) (wg w).

Definition set_storeChan (v : option chan) (w : Writer) : Writer :=
  mkWriter (settings w) (fwdChan w) v (store w) (recordNum w) (wg w).

Definition set_store (v : option Store) (w : Writer) : Writer :=
  mkWriter (settings w) (fwdChan w) (storeChan w) v (recordNum w) (wg w).

Definition set_recordNum (v : Z) (w : Writer) : Writer :=
  mkWriter (settings w) (fwdChan w) (storeChan w) (store w) v (wg w).

Definition set_wg (v : nat) (w : Writer) : Writer :=
  mkWriter (settings w) (fwdChan w) (storeChan w) (store w) (recordNum w) v.

Definition WriterOption := Writer -> Writer.

Definition WithWriterFwdChannel (fwd : chan) : WriterOption :=
  set_fwdChan (Some fwd).

Definition WithWriterSettings (s : pbSettings) : WriterOption :=
  set_settings (Some s).

Definition NewWriter (opts : list WriterOption) : Writer :=
  fold_left (fun w opt => opt w) opts (mkWriter None None None None 0%Z 0).

(** ** Worlds and the monad *)

Record World := mkWorld {
  wr : Writer;
  hp : heap;
  worker : wstatus;
  tr : list event
}.

Definition set_wr (f : Writer -> Writer) (s : World) : World :=
  mkWorld (f (wr s)) (hp s) (worker s) (tr s).

Definition set_hp (h : heap) (s : World) : World :=
  mkWorld (wr s) h (worker s) (tr s).

Definition set_worker (k : wstatus) (s : World) : World :=
  mkWorld (wr s) (hp s) k (tr s).

Definition add_ev (e : event) (s : World) : World :=
  mkWorld (wr s) (hp s) (worker s) (tr s ++ [e]).

(** A computation either completes, parks its goroutine for ever (a
    channel operation that can never proceed), or panics. *)
Inductive outcome (A : Type) :=
| Ok (a : A) (s : World)
| Blocked (s : World)
| Panicked (s : World).

Arguments Blocked {A} s.
Arguments Panicked {A} s.

Definition M (A : Type) := World -> outcome A.

Definition ret {A} (a : A) : M A := fun s => Ok a s.

Definition bind {A B} (m : M A) (k : A -> M B) : M B :=
  fun s =>
    match m s with
    | Ok a s' => k a s'
    | Blocked s' => Blocked s'
    | Panicked s' => Panicked s'
    end.

Notation "x <- c1 ;; c2" := (bind c1 (fun x => c2))
  (at level 61, c1 at next level, right associativity).
Notation "c1 ;; c2" := (bind c1 (fun _ => c2))
  (at level 61, right associativity).

Definition block {A} : M A := fun s => Blocked s.
Definition panic {A} : M A := fun s => Panicked s.

Definition getW : M Writer := fun s => Ok (wr s) s.
Definition modW (f : Writer -> Writer) : M unit := fun s => Ok tt (set_wr f s).
Definition emit (e : event) : M unit := fun s => Ok tt (add_ev e s).

(** [*record]: inbound pointers are non-nil. *)
Definition deref (p : loc) : M pbRecord := fun s => Ok (hp s p) s.

(** [w.settings.RunId]: a field access, which panics on a nil pointer. *)
Definition settings_RunId : M (option string) :=
  w <- getW ;;
  match settings w with
  | Some s => ret (RunId s)
  | None => panic
  end.

(** The logger; the key-value arguments are left out of the trace. *)
Definition logger_Debug (msg : string) : M unit := emit (EvLog Debug msg).
Definition logger_Info (msg : string) : M unit := emit (EvLog Info msg).
Definition logger_Error (msg : string) : M unit := emit (EvLog Error msg).
Definition logger_CaptureError (msg : string) : M unit := emit (EvLog Error msg).

(** Modelled from the spec: [CaptureFatalAndPanic] of the observability
    package, which records the fatal error and panics. *)
Definition logger_CaptureFatalAndPanic (msg : string) : M unit :=
  emit (EvLog Fatal msg) ;; panic.

(** Modelled from the spec: the deferred [Reraise] of the observability
    package, which reports a panic in flight and lets it continue. *)
Definition logger_Reraise {A} (m : M A) : M A :=
  fun s =>
    match m s with
    | Panicked s' => Panicked (add_ev (EvLog Fatal "panic") s')
    | o => o
    end.

(** ** Channel operations *)

(** [w.fwdChan <- record].  A send on a nil channel blocks for ever and a
    send on a closed channel panics.  The sender goroutine is outside the
    model: the buffer of [fwdChan] is the sequence handed to it. *)
Definition send_fwdChan (p : loc) : M unit :=
  w <- getW ;;
  match fwdChan w with
  | None => block
  | Some c =>
      if closed c then panic
      else modW (set_fwdChan (Some (chan_push c p))) ;; emit (EvFwd p)
  end.

(** [w.storeChan <- record]. *)
Definition send_storeChan (p : loc) : M unit :=
  w <- getW ;;
  match storeChan w with
  | None => block
  | Some c =>
      if closed c then panic
      else modW (set_storeChan (Some (chan_push c p))) ;; emit (EvStore p)
  end.

(** [close(w.fwdChan)]: closing a nil or a closed channel panics. *)
Definition close_fwdChan : M unit :=
  w <- getW ;;
  match fwdChan w with
  | None => panic
  | Some c =>
      if closed c then panic
      else modW (set_fwdChan (Some (chan_close c))) ;; emit EvCloseFwd
  end.

Definition close_storeChan : M unit :=
  w <- getW ;;
  match storeChan w with
  | None => panic
  | Some c =>
      if closed c then panic
      else modW (set_storeChan (Some (chan_close c))) ;; emit EvCloseStore
  end.

(** One receive of [for record := range w.storeChan]: the next element,
    or [None] once the channel is closed and drained. *)
Definition recv_storeChan : M (option loc) :=
  w <- getW ;;
  match storeChan w with
  | None => block
  | Some c =>
      match buf c with
      | p :: _ =>
          modW (set_storeChan (Some (chan_pop c))) ;; emit (EvRecv p) ;;
          ret (Some p)
      | [] => if closed c then ret None else block
      end
  end.

(** ** The store *)

Definition store_do (op : Store -> Store * option error)
    (ev : bool -> event) : M (option error) :=
  w <- getW ;;
  match store w with
  | None => panic
  | Some st =>
      let (st', err) := op st in
      modW (set_store (Some st')) ;;
      emit (ev (match err with None => true | Some _ => false end)) ;;
      ret err
  end.

(** ** The methods of the Writer *)

(** [record.Num = n]: the record object is updated in place, so every
    holder of the pointer sees the new number. *)
Definition assign_Num (record : loc) (n : Z) : M unit :=
  fun s =>
    Ok tt (set_hp (upd (hp s) record
                     (mkRecord n (RecordType (hp s record))
                        (Control (hp s record)))) s).

(** [w.wg.Add(1)]. *)
Definition wg_Add : M unit := modW (fun w => set_wg (wg w + 1) w).

(** [go func() {...}()]: the worker goroutine starts at its loop. *)
Definition go_worker : M unit :=
  (fun s => Ok tt (set_worker Ranging s)) ;; emit EvGo.

Definition sendRecord (record : loc) : M unit :=
  w <- getW ;;
  r <- deref record ;;
  if GetValue (GetXOffline (settings w)) && negb (GetAlwaysSend (GetControl r))
  then ret tt
  else send_fwdChan record.

Definition storeRecord (record : loc) : M unit :=
  r <- deref record ;;
  if GetLocal (GetControl r) then ret tt
  else
    modW (fun w => set_recordNum (int64_add (recordNum w) 1) w) ;;
    w <- getW ;;
    assign_Num record (recordNum w) ;;
    send_storeChan record.

Definition handleRecord (record : loc) : M unit :=
  _ <- settings_RunId ;;
  logger_Debug "write: got a message" ;;
  r <- deref record ;;
  match RecordType r with
  | Some (Record_Request _) => sendRecord record
  | None => logger_Error "nil record type"
  | Some _ =>
      sendRecord record ;;
      storeRecord record
  end.

(** The body of the goroutine launched by [startStore]: one iteration of
    its loop, and what it does once the loop has ended. *)
Definition workerIter (record : loc) : M unit :=
  r <- deref record ;;
  match proto_Marshal r with
  | inr _ => logger_Error "writer: error marshalling record"
  | inl out =>
      err <- store_do (fun st => store_Write st out) (EvWrite out) ;;
      match err with
      | Some _ => logger_Error "writer: error storing record"
      | None => ret tt
      end
  end.

Definition wg_Done : M unit :=
  w <- getW ;;
  match wg w with
  | O => panic
  | S n => modW (set_wg n) ;; emit EvDone
  end.

Definition workerExit : M unit :=
  err <- store_do store_Close EvStoreClose ;;
  match err with
  | Some _ => logger_CaptureError "writer: error closing store"
  | None => ret tt
  end ;;
  wg_Done ;;
  fun s => Ok tt (set_worker Exited s).

Definition startStore : M unit :=
  w <- getW ;;
  if GetValue (GetXSync (settings w)) then ret tt
  else
    modW (set_storeChan (Some (make_chan (BufferSize * 8)))) ;;
    modW (set_store (Some (store_New (GetValueS (GetSyncFile (settings w)))))) ;;
    err <- store_do store_Open EvOpen ;;
    match err with
    | Some _ => logger_CaptureFatalAndPanic "writer: error creating store"
    | None => ret tt
    end ;;
    wg_Add ;;
    go_worker.

Definition Close : M unit :=
  close_fwdChan ;;
  w <- getW ;;
  match storeChan w with
  | Some _ => close_storeChan
  | None => ret tt
  end ;;
  _ <- settings_RunId ;;
  logger_Info "writer: closed".

(** [for record := range inChan { body }] over the records the handler
    sends before it closes [inChan]. *)
Fixpoint forRange (inChan : list loc) (body : loc -> M unit) : M unit :=
  match inChan with
  | [] => ret tt
  | record :: rest => body record ;; forRange rest body
  end.

(** ** A sequential reading of [Do]

    The worker goroutine is run when the Writer reaches [wg.Wait()]: it
    receives what is queued, one record per iteration, and leaves its loop
    when the channel is closed and empty.  [workerRange n] is [n] turns of
    [for record := range w.storeChan].

    This is one schedule of the two goroutines, the one in which the
    worker waits for the Writer.  It decides what the Writer itself does
    and the state in which [Do] returns; how far the worker has got when
    [Do] parks or panics after [startStore] depends on the schedule and is
    stated on the interleaved runs of [Module Conc]. *)
Fixpoint workerRange (n : nat) : M unit :=
  match n with
  | O => ret tt
  | S n' =>
      x <- recv_storeChan ;;
      match x with
      | Some record => workerIter record ;; workerRange n'
      | None => ret tt
      end
  end.

(** The whole goroutine: the queued records, then one more receive, which
    ends the loop when the channel is closed and parks the goroutine when
    it is still open (the Writer, waiting, queues nothing more). *)
Definition workerBody : M unit :=
  w <- getW ;;
  match storeChan w with
  | None => block
  | Some c =>
      workerRange (List.length (buf c)) ;;
      x <- recv_storeChan ;;
      match x with
      | None => workerExit
      | Some _ => block
      end
  end.

(** [w.wg.Wait()]: the worker is the only goroutine that can bring the
    counter down. *)
Definition wg_Wait : M unit :=
  fun s =>
    match wg (wr s) with
    | O => Ok tt s
    | S _ =>
        match worker s with
        | Ranging =>
            (workerBody ;;
             fun s' => match wg (wr s') with O => Ok tt s' | S _ => Blocked s' end) s
        | _ => Blocked s
        end
    end.

Definition Do (inChan : list loc) : M unit :=
  logger_Reraise
    (_ <- settings_RunId ;;
     logger_Info "writer: started" ;;
     startStore ;;
     forRange inChan handleRecord ;;
     Close ;;
     wg_Wait ;;
     emit EvReturn).

(** The world in which the stream starts a Writer built by [NewWriter]. *)
Definition initWorld (opts : list WriterOption) (h : heap) : World :=
  mkWorld (NewWriter opts) h NotStarted [].

(** ** Projections of a trace *)

Definition fwd_of (t : list event) : list loc :=
  flat_map (fun e => match e with EvFwd p => [p] | _ => [] end) t.

Definition stored_of (t : list event) : list loc :=
  flat_map (fun e => match e with EvStore p => [p] | _ => [] end) t.

Definition recv_of (t : list event) : list loc :=
  flat_map (fun e => match e with EvRecv p => [p] | _ => [] end) t.

Definition is_closefwd (e : event) : bool :=
  match e with EvCloseFwd => true | _ => false end.

Definition is_closestore (e : event) : bool :=
  match e with EvCloseStore => true | _ => false end.

Definition is_storeclose (e : event) : bool :=
  match e with EvStoreClose _ => true | _ => false end.

Definition is_return (e : event) : bool :=
  match e with EvReturn => true | _ => false end.

Definition is_log (e : event) : bool :=
  match e with EvLog _ _ => true | _ => false end.

Definition nolog (t : list event) : list event :=
  filter (fun e => negb (is_log e)) t.

End Model.

Arguments Ok {E A} a s.
Arguments Blocked {E A} s.
Arguments Panicked {E A} s.

Notation "x <- c1 ;; c2" := (bind c1 (fun x => c2))
  (at level 61, c1 at next level, right associativity).
Notation "c1 ;; c2" := (bind c1 (fun _ => c2))
  (at level 61, right associativity).

(** ** The two goroutines, interleaved

    What the sequential reading of [Do] fixes by running the worker at
    [wg.Wait()] is left open here: a configuration holds where the Writer
    goroutine stands in [Do] and the shared world, and a step is one atomic
    block of either goroutine.  The Writer's blocks are [startStore], one
    [handleRecord] and [Close]; the worker's block is one receive from
    [storeChan] with the loop body or the exit code that follows it.  The
    store channel is bounded: a [handleRecord] that queues a record is a
    step only when the buffer has room for it.  The sender is outside the
    model and is taken to keep receiving, so a send on the forwarding
    channel completes.  A panic of [Do] ends the process, so nothing moves
    after it. *)
Module Conc.

Section Steps.

Context {E : Env}.

Inductive wpc :=
| WStart (inChan : list loc)   (* Do called, startStore not yet run *)
| WRun (inChan : list loc)     (* in the range loop, these records to come *)
| WWait                        (* Close done, at wg.Wait() *)
| WDone                        (* Do has returned *)
| WPanic.                      (* Do has panicked *)

Record conf := mkConf {
  pc : wpc;
  world : World
}.

(** The buffer of the store channel is within its capacity.  A channel
    made with capacity 0 hands over one element at a time; here it holds
    that element until the worker receives it. *)
Definition fits (s : World) : Prop :=
  match storeChan (wr s) with
  | Some c => List.length (buf c) <= Nat.max 1 (cap c)
  | None => True
  end.

Definition startBlock : M unit :=
  _ <- settings_RunId ;;
  logger_Info "writer: started" ;;
  startStore.

(** One turn of [for record := range w.storeChan] and of the code after
    the loop. *)
Definition workerStep : M unit :=
  x <- recv_storeChan ;;
  match x with
  | Some record => workerIter record
  | None => workerExit
  end.

Inductive step : conf -> conf -> Prop :=
| step_start ps s s' :
    startBlock s = Ok tt s' ->
    step (mkConf (WStart ps) s) (mkConf (WRun ps) s')
| step_start_panic ps s s' :
    logger_Reraise startBlock s = Panicked s' ->
    step (mkConf (WStart ps) s) (mkConf WPanic s')
| step_handle p ps s s' :
    handleRecord p s = Ok tt s' ->
    fits s' ->
    step (mkConf (WRun (p :: ps)) s) (mkConf (WRun ps) s')
| step_handle_panic p ps s s' :
    logger_Reraise (handleRecord p) s = Panicked s' ->
    step (mkConf (WRun (p :: ps)) s) (mkConf WPanic s')
| step_close s s' :
    Close s = Ok tt s' ->
    step (mkConf (WRun []) s) (mkConf WWait s')
| step_close_panic s s' :
    logger_Reraise Close s = Panicked s' ->
    step (mkConf (WRun []) s) (mkConf WPanic s')
| step_wait s :
    wg (wr s) = 0 ->
    step (mkConf WWait s) (mkConf WDone (add_ev EvReturn s))
| step_worker k s s' :
    k <> WPanic ->
    worker s = Ranging ->
    workerStep s = Ok tt s' ->
    step (mkConf k s) (mkConf k s').

Inductive steps : conf -> conf -> Prop :=
| steps_refl c : steps c c
| steps_snoc c1 c2 c3 : steps c1 c2 -> step c2 c3 -> steps c1 c3.

Definition init (opts : list WriterOption) (h : heap) (inChan : list loc) : conf :=
  mkConf (WStart inChan) (initWorld opts h).

(** The variant that bounds the length of every run. *)
Definition measure (c : conf) : nat :=
  let rest :=
    (match storeChan (wr (world c)) with
     | Some sc => List.length (buf sc)
     | None => 0
     end)
    + (match worker (world c) with
       | Exited => 0
       | _ => 1
       end) in
  match pc c with
  | WStart ps => 5 + 2 * List.length ps + rest
  | WRun ps => 3 + 2 * List.length ps + rest
  | WWait => 2 + rest
  | WDone => rest
  | WPanic => 0
  end.

(** Every occurrence of [e2] in a trace comes after an occurrence of an
    event satisfying [e1]. *)
Definition precedes (e1 : event -> bool) (e2 : event -> bool) (t : list event) : Prop :=
  forall t1 e t2, t = t1 ++ e :: t2 -> e2 e = true -> existsb e1 t1 = true.

End Steps.

End Conc.

(** ** The rules the Writer applies to one record *)

Definition is_request (r : pbRecord) : bool :=
  match RecordType r with Some (Record_Request _) => true | _ => false end.

(** A data record: its payload variant is set and is not a request. *)
Definition is_data (r : pbRecord) : bool :=
  match RecordType r with Some (Record_Data _ _) => true | _ => false end.

Definition is_nil (r : pbRecord) : bool :=
  match RecordType r with None => true | _ => false end.

(** The forwarding test of [sendRecord]. *)
Definition forwards (st : option pbSettings) (r : pbRecord) : bool :=
  negb (is_nil r) &&
  negb (GetValue (GetXOffline st) && negb (GetAlwaysSend (GetControl r))).

(** The persistence test of [handleRecord] and [storeRecord]. *)
Definition persists (r : pbRecord) : bool :=
  is_data r && negb (GetLocal (GetControl r)).

(** The events one inbound record leaves in the trace of a running Writer. *)
Definition record_events (st : option pbSettings) (h : heap) (p : loc) : list event :=
  EvLog Debug "write: got a message" ::
  (if is_nil (h p) then [EvLog Error "nil record type"] else []) ++
  (if forwards st (h p) then [EvFwd p] else []) ++
  (if persists (h p) then [EvStore p] else []).

(** ** States of the Writer, and what one record does to them *)

Section Rules.

Context {E : Env}.

Definition chan_open (c : option chan) : bool :=
  match c with Some c => negb (closed c) | None => false end.

(** Settings are set and the forwarding channel is there and open: the
    Writer as the stream builds it, before [Close]. *)
Definition forwarding (s : World) : bool :=
  match settings (wr s) with Some _ => true | None => false end &&
  chan_open (fwdChan (wr s)).

(** The Running state: forwarding, with the store channel made and open. *)
Definition running (s : World) : bool :=
  forwarding s && chan_open (storeChan (wr s)).

Definition push_if (b : bool) (c : option chan) (p : loc) : option chan :=
  if b then option_map (fun c => chan_push c p) c else c.

(** The world a running Writer leaves after [handleRecord p]. *)
Definition handled (p : loc) (s : World) : World :=
  let r := hp s p in
  let st := settings (wr s) in
  let n := if persists r then int64_add (recordNum (wr s)) 1 else recordNum (wr s) in
  mkWorld
    (mkWriter st
       (push_if (forwards st r) (fwdChan (wr s)) p)
       (push_if (persists r) (storeChan (wr s)) p)
       (store (wr s)) n (wg (wr s)))
    (if persists r then upd (hp s) p (mkRecord n (RecordType r) (Control r))
     else hp s)
    (worker s)
    (tr s ++ record_events st (hp s) p).

Definition handled_all (ps : list loc) (s : World) : World :=
  fold_left (fun s p => handled p s) ps s.

(** How many of [ps] are persisted, judged in heap [h]. *)
Definition persisted (h : heap) (ps : list loc) : list loc :=
  filter (fun p => persists (h p)) ps.

Definition forwarded (st : option pbSettings) (h : heap) (ps : list loc) : list loc :=
  filter (fun p => forwards st (h p)) ps.

Definition buf_of (c : option chan) : list loc :=
  match c with Some c => buf c | None => [] end.

(** How many times the store has been closed. *)
Definition closes_of (t : list event) : nat :=
  List.length (filter is_storeclose t).

(** Two worlds that differ in log lines only. *)
Definition same_but_log (s1 s2 : World) : Prop :=
  wr s1 = wr s2 /\ hp s1 = hp s2 /\ worker s1 = worker s2 /\
  nolog (tr s1) = nolog (tr s2).

(** The world the worker leaves after one loop iteration on [p], received
    from a store channel [c], with the store in state [st]. *)
Definition iterated (c : chan) (st : Store) (p : loc) (s : World) : World :=
  let s1 := add_ev (EvRecv p) (set_wr (set_storeChan (Some (chan_pop c))) s) in
  match proto_Marshal (hp s p) with
  | inr _ => add_ev (EvLog Error "writer: error marshalling record") s1
  | inl out =>
      let s2 := set_wr (set_store (Some (fst (store_Write st out)))) s1 in
      match snd (store_Write st out) with
      | Some _ =>
          add_ev (EvLog Error "writer: error storing record")
            (add_ev (EvWrite out false) s2)
      | None => add_ev (EvWrite out true) s2
      end
  end.

(** One further loop iteration of the worker in world [s], if a record is
    queued and the store is set. *)
Definition iter1 (s : World) : World :=
  match storeChan (wr s), store (wr s) with
  | Some c, Some st =>
      match buf c with
      | p :: _ => iterated c st p s
      | [] => s
      end
  | _, _ => s
  end.

Fixpoint iter_all (n : nat) (s : World) : World :=
  match n with
  | O => s
  | S n' => iter_all n' (iter1 s)
  end.

(** The name [startStore] gives the store, and what opening it yields. *)
Definition sync_file (s : World) : string :=
  GetValueS (GetSyncFile (settings (wr s))).

Definition opening (s : World) : Store * option error :=
  store_Open (store_New (sync_file s)).

(** The world [startStore] leaves when the store opens. *)
Definition started (s : World) : World :=
  mkWorld
    (mkWriter (settings (wr s)) (fwdChan (wr s))
       (Some (make_chan (BufferSize * 8))) (Some (fst (opening s)))
       (recordNum (wr s)) (wg (wr s) + 1))
    (hp s) Ranging (tr s ++ [EvOpen true; EvGo]).

(** The world in which [startStore] panics when the store does not open. *)
Definition unopened (s : World) : World :=
  mkWorld
    (mkWriter (settings (wr s)) (fwdChan (wr s))
       (Some (make_chan (BufferSize * 8))) (Some (fst (opening s)))
       (recordNum (wr s)) (wg (wr s)))
    (hp s) (worker s)
    (tr s ++ [EvOpen false; EvLog Fatal "writer: error creating store"]).

(** The world [Close] leaves. *)
Definition closing (s : World) : World :=
  mkWorld
    (mkWriter (settings (wr s)) (option_map chan_close (fwdChan (wr s)))
       (option_map chan_close (storeChan (wr s))) (store (wr s))
       (recordNum (wr s)) (wg (wr s)))
    (hp s) (worker s)
    (tr s ++ EvCloseFwd ::
       (match storeChan (wr s) with Some _ => [EvCloseStore] | None => [] end) ++
       [EvLog Info "writer: closed"]).

(** The world the worker leaves when it has closed the store in state [st]
    and called [Done] on a counter [S n]. *)
Definition exited (st : Store) (n : nat) (s : World) : World :=
  mkWorld
    (mkWriter (settings (wr s)) (fwdChan (wr s)) (storeChan (wr s))
       (Some (fst (store_Close st))) (recordNum (wr s)) n)
    (hp s) Exited
    (tr s ++
       match snd (store_Close st) with
       | Some _ =>
           [EvStoreClose false; EvLog Error "writer: error closing store"; EvDone]
       | None => [EvStoreClose true; EvDone]
       end).

(** The world in which the Writer is parked on the nil store channel with
    record [p] in hand. *)
Definition parked (p : loc) (s : World) : World :=
  mkWorld (wr (handled p s)) (hp (handled p s)) (worker s)
    (tr s ++ EvLog Debug "write: got a message" ::
       (if forwards (settings (wr s)) (hp s p) then [EvFwd p] else [])).

(** What opening the store named by settings [st] yields. *)
Definition open_result (st : pbSettings) : Store * option error :=
  store_Open (store_New (GetValueS (SyncFile st))).

(** The world in which [Do] has panicked because the store did not open. *)
Definition aborted (s : World) : World :=
  add_ev (EvLog Fatal "panic")
    (unopened (add_ev (EvLog Info "writer: started") s)).

(** ** The invariant of the interleaved runs

    [fc] is the forwarding channel and [st] the settings the Writer was
    built with. *)
Definition inv_world (fc : chan) (st : pbSettings) (s : World) : Prop :=
  let w := wr s in
  let t := tr s in
  settings w = Some st /\
  (exists fc', fwdChan w = Some fc' /\ buf fc' = buf fc ++ fwd_of t /\
               closed fc' = existsb is_closefwd t) /\
  stored_of t = recv_of t ++ buf_of (storeChan w) /\
  Conc.fits s /\
  match storeChan w with
  | Some sc =>
      closed sc = existsb is_closestore t /\ store w <> None /\
      cap sc = BufferSize * 8 /\ worker s <> NotStarted /\
      GetValue (XSync st) = false /\ snd (open_result st) = None
  | None =>
      worker s = NotStarted /\ existsb is_closestore t = false /\
      GetValue (XSync st) = true
  end /\
  match worker s with
  | NotStarted => wg w = 0 /\ closes_of t = 0
  | Ranging => wg w = 1 /\ closes_of t = 0
  | Exited =>
      wg w = 0 /\ closes_of t = 1 /\ buf_of (storeChan w) = [] /\
      existsb is_closestore t = true
  end /\
  Conc.precedes is_closefwd is_closestore t /\
  Conc.precedes is_closestore is_storeclose t /\
  (storeChan w <> None -> Conc.precedes is_storeclose is_return t).

Definition inv_pc (c : Conc.conf) : Prop :=
  let w := wr (Conc.world c) in
  let t := tr (Conc.world c) in
  match Conc.pc c with
  | Conc.WRun _ =>
      existsb is_closefwd t = false /\ existsb is_closestore t = false
  | Conc.WWait =>
      existsb is_closefwd t = true /\
      (storeChan w <> None -> existsb is_closestore t = true)
  | Conc.WDone =>
      existsb is_closefwd t = true /\
      (storeChan w <> None -> existsb is_closestore t = true) /\
      wg w = 0 /\ existsb is_return t = true
  | _ => True
  end.

Definition Inv (fc : chan) (st : pbSettings) (h : heap) (ps : list loc)
    (c : Conc.conf) : Prop :=
  match Conc.pc c with
  | Conc.WStart ps' =>
      ps' = ps /\
      Conc.world c =
        initWorld [WithWriterFwdChannel fc; WithWriterSettings st] h
  | Conc.WPanic =>
      GetValue (XSync st) = false /\ snd (open_result st) <> None /\
      Conc.world c =
        aborted (initWorld [WithWriterFwdChannel fc; WithWriterSettings st] h)
  | _ => inv_world fc st (Conc.world c) /\ inv_pc c
  end.

End Rules.

(** ** Example environments and records *)

Definition frame_of (r : pbRecord) : bytes :=
  match Byte.of_N (Z.to_N (Num r mod 256)) with
  | Some b => [b]
  | None => []
  end.

(** A store that keeps the frames written, and never fails. *)
Definition memEnv : Env := {|
  Store := list bytes;
  store_New := fun _ => [];
  store_Open := fun st => (st, None);
  store_Write := fun st out => (st ++ [out], None);
  store_Close := fun st => (st, None);
  proto_Marshal := fun r => inl (frame_of r);
  BufferSize := 32
|}.

(** A store whose file cannot be opened. *)
Definition noOpenEnv : Env := {|
  Store := list bytes;
  store_New := fun _ => [];
  store_Open := fun st => (st, Some "open: permission denied"%string);
  store_Write := fun st out => (st ++ [out], None);
  store_Close := fun st => (st, None);
  proto_Marshal := fun r => inl (frame_of r);
  BufferSize := 32
|}.

(** Serialisation fails on records of field 13; the store refuses a second
    frame and is left as it was. *)
Definition flakyEnv : Env := {|
  Store := list bytes;
  store_New := fun _ => [];
  store_Open := fun st => (st, None);
  store_Write := fun st out =>
    match st with
    | [] => (st ++ [out], None)
    | _ => (st, Some "write: no space left on device"%string)
    end;
  store_Close := fun st => (st, None);
  proto_Marshal := fun r =>
    match RecordType r with
    | Some (Record_Data 13 _) => inr "proto: invalid UTF-8"%string
    | _ => inl (frame_of r)
    end;
  BufferSize := 32
|}.

Definition offlineSettings : pbSettings :=
  mkSettings None (Some true) (Some "run.wandb"%string) (Some "r1"%string).

Definition onlineSettings : pbSettings :=
  mkSettings None None (Some "run.wandb"%string) (Some "r1"%string).

Definition syncSettings : pbSettings :=
  mkSettings (Some true) None (Some "run.wandb"%string) (Some "r1"%string).

Definition dataRec (loc_ always : bool) : pbRecord :=
  mkRecord 0 (Some (Record_Data 1 [])) (Some (mkControl loc_ always)).

Definition requestRec : pbRecord :=
  mkRecord 0 (Some (Record_Request [])) None.

Definition nilRec : pbRecord := mkRecord 0 None None.

Definition badRec : pbRecord :=
  mkRecord 0 (Some (Record_Data 13 [])) None.

(** The records A, B, C, D of the scenario at addresses 0 to 3; every other
    address holds a nil-variant record. *)
Definition scenarioHeap : heap :=
  fun p =>
    match p with
    | 0 => dataRec false false
    | 1 => requestRec
    | 2 => dataRec true false
    | 3 => dataRec false true
    | _ => nilRec
    end.

Definition stdOpts (st : pbSettings) : list (@WriterOption memEnv) :=
  [WithWriterFwdChannel (make_chan 32); WithWriterSettings st].

(** A running Writer, offline, over the records of the scenario: the world
    [startStore] leaves. *)
Definition runWorld : @World memEnv :=
  started (add_ev (EvLog Info "writer: started")
             (initWorld (stdOpts offlineSettings) scenarioHeap)).

(** The worker about to receive a record that cannot be serialised, with
    a data record queued behind it. *)
Definition flakyWorld : @World flakyEnv :=
  mkWorld
    (mkWriter (Some onlineSettings) (Some (make_chan 32))
       (Some (mkChan 256 [4; 0] false)) (Some (@nil bytes : @Store flakyEnv))
       2%Z 1)
    (fun p => match p with 4 => badRec | _ => scenarioHeap p end)
    Ranging [].

(** The worker about to receive a record whose frame the store refuses:
    the store already holds a frame. *)
Definition fullWorld : @World flakyEnv :=
  mkWorld
    (mkWriter (Some onlineSettings) (Some (make_chan 32))
       (Some (mkChan 256 [0; 3] false))
       (Some ([[Byte.x01]] : @Store flakyEnv)) 2%Z 1)
    scenarioHeap Ranging [].

(** The heap of the scenario with, at address 4, a data record that
    [flakyEnv] cannot serialise. *)
Definition flakyHeap : heap :=
  fun p => match p with 4 => badRec | _ => scenarioHeap p end.

(** ** Further notions: options as data, the calls on the store *)

Section More.

Context {E : Env}.

(** The two options [NewWriter] is given, as data. *)
Inductive option_spec :=
| OptFwd (fwd : chan)
| OptSettings (s : pbSettings).

Definition apply_spec (o : option_spec) : WriterOption :=
  match o with
  | OptFwd fwd => WithWriterFwdChannel fwd
  | OptSettings s => WithWriterSettings s
  end.

(** The channel of the last [OptFwd] in the list, if any, else [acc]. *)
Definition last_fwd (acc : option chan) (os : list option_spec) : option chan :=
  fold_left (fun a o => match o with OptFwd c => Some c | _ => a end) os acc.

Definition last_settings (acc : option pbSettings) (os : list option_spec)
    : option pbSettings :=
  fold_left (fun a o => match o with OptSettings s => Some s | _ => a end) os acc.

Definition is_open (e : event) : bool :=
  match e with EvOpen _ => true | _ => false end.

Definition is_write (e : event) : bool :=
  match e with EvWrite _ _ => true | _ => false end.

Definition is_storeop (e : event) : bool :=
  is_open e || is_write e || is_storeclose e.

(** The frames handed to [store.Write], accepted or not, in call order. *)
Definition submitted (t : list event) : list bytes :=
  flat_map (fun e => match e with EvWrite out _ => [out] | _ => [] end) t.

(** What [proto.Marshal] makes of a list of records: the frames of those
    that serialise. *)
Definition frames_for (rs : list pbRecord) : list bytes :=
  flat_map (fun r => match proto_Marshal r with
                     | inl out => [out]
                     | inr _ => []
                     end) rs.

(** The records at [q] in heap [h], numbered from [n + 1] on. *)
Fixpoint stamp (h : heap) (n : Z) (q : list loc) : list pbRecord :=
  match q with
  | [] => []
  | p :: q' =>
      mkRecord (n + 1) (RecordType (h p)) (Control (h p)) :: stamp h (n + 1) q'
  end.

(** The store after the frames [fs] were handed to [Write] one by one,
    whatever each call answered. *)
Definition written (sto : Store) (fs : list bytes) : Store :=
  fold_left (fun st out => fst (store_Write st out)) fs sto.

(** The calls made on the store, in order: [Open], [Write], [Close]. *)
Definition store_calls (t : list event) : list event := filter is_storeop t.

(** A run of writes, ended or not by one [Close]. *)
Fixpoint writes_then_close (l : list event) : bool :=
  match l with
  | [] => true
  | EvWrite _ _ :: l' => writes_then_close l'
  | EvStoreClose _ :: l' => match l' with [] => true | _ => false end
  | _ => false
  end.

(** The typestate of the store: nothing; or an [Open] that fails and
    nothing more; or an [Open] that succeeds, then writes, then at most
    one [Close], after which nothing. *)
Definition protocol_ok (l : list event) : bool :=
  match l with
  | [] => true
  | EvOpen false :: l' => match l' with [] => true | _ => false end
  | EvOpen true :: l' => writes_then_close l'
  | _ => false
  end.

(** The calls made so far, by the state of the Writer and of the worker. *)
Definition calls_inv (c : Conc.conf) : Prop :=
  let t := tr (Conc.world c) in
  match Conc.pc c with
  | Conc.WPanic => store_calls t = [EvOpen false]
  | _ =>
      match worker (Conc.world c) with
      | NotStarted => store_calls t = []
      | Ranging =>
          exists ws, store_calls t = EvOpen true :: ws /\
                     forallb is_write ws = true
      | Exited =>
          exists ws b, store_calls t = EvOpen true :: ws ++ [EvStoreClose b] /\
                       forallb is_write ws = true
      end
  end.

(** What the heap, the counter and the writes of a world owe to the
    records stored and received so far, [h] being the heap the run
    started with. *)
Definition frames_world (h : heap) (s : World) : Prop :=
  (forall q, RecordType (hp s q) = RecordType (h q) /\
             Control (hp s q) = Control (h q)) /\
  recordNum (wr s) = Z.of_nat (List.length (stored_of (tr s))) /\
  map (hp s) (stored_of (tr s)) = stamp h 0 (stored_of (tr s)) /\
  submitted (tr s) = frames_for (map (hp s) (recv_of (tr s))).

(** The records queued so far and those still to come make up the
    persisted records of the input [ps]. *)
Definition frames_pc (h : heap) (ps : list loc) (c : Conc.conf) : Prop :=
  let t := tr (Conc.world c) in
  match Conc.pc c with
  | Conc.WStart rest | Conc.WRun rest =>
      stored_of t ++ persisted h rest = persisted h ps
  | Conc.WWait | Conc.WDone => stored_of t = persisted h ps
  | Conc.WPanic => stored_of t = []
  end.


(** A Writer that was given settings [st] and no forwarding channel, once
    [startStore] has run: the worker is in its loop, nothing has been
    closed, and what was queued is received or still in the channel. *)
Definition nofwd_world (st : pbSettings) (h : heap) (s : World) : Prop :=
  settings (wr s) = Some st /\ fwdChan (wr s) = None /\
  (forall q, RecordType (hp s q) = RecordType (h q) /\
             Control (hp s q) = Control (h q)) /\
  fwd_of (tr s) = [] /\
  existsb is_closefwd (tr s) = false /\
  existsb is_closestore (tr s) = false /\
  closes_of (tr s) = 0 /\
  existsb is_return (tr s) = false /\
  worker s = Ranging /\
  exists sc sto,
    storeChan (wr s) = Some sc /\ closed sc = false /\
    store (wr s) = Some sto /\
    stored_of (tr s) = recv_of (tr s) ++ buf sc.

(** The states such a Writer goes through when no record of the input
    [ps] passes the forwarding rule. *)
Definition nofwd_inv (st : pbSettings) (h : heap) (ps : list loc)
    (c : Conc.conf) : Prop :=
  match Conc.pc c with
  | Conc.WStart rest =>
      rest = ps /\
      Conc.world c =
        mkWorld (mkWriter (Some st) None None None 0%Z 0) h NotStarted []
  | Conc.WRun rest =>
      nofwd_world st h (Conc.world c) /\
      forwarded (Some st) h rest = [] /\
      stored_of (tr (Conc.world c)) ++ persisted h rest = persisted h ps
  | Conc.WPanic =>
      nofwd_world st h (Conc.world c) /\
      stored_of (tr (Conc.world c)) = persisted h ps
  | _ => False
  end.

(** The worker's error line for a record that does not serialise. *)
Definition is_marshal_error (e : event) : bool :=
  match e with
  | EvLog Error msg => String.eqb msg "writer: error marshalling record"
  | _ => false
  end.

(** How many records the worker has dealt with: one [store.Write] or one
    serialisation error per record. *)
Definition attempts (t : list event) : nat :=
  List.length (filter (fun e => is_write e || is_marshal_error e) t).

(** What the worker has done so far, against what it has received: every
    record received was serialised and handed to [store.Write], or
    logged as not serialisable; the store is the opened one after the
    writes made, and after its [Close] once the worker has exited. *)
Definition drain_world (st : pbSettings) (s : World) : Prop :=
  attempts (tr s) = List.length (recv_of (tr s)) /\
  match worker s with
  | NotStarted => submitted (tr s) = []
  | Ranging =>
      store (wr s) = Some (written (fst (open_result st)) (submitted (tr s)))
  | Exited =>
      store (wr s) =
        Some (fst (store_Close
                     (written (fst (open_result st)) (submitted (tr s)))))
  end.

(** What the Writer has forwarded and queued so far, against its input. *)
Definition drain_pc (st : pbSettings) (h : heap) (ps : list loc)
    (c : Conc.conf) : Prop :=
  let s := Conc.world c in
  (forall q, RecordType (hp s q) = RecordType (h q) /\
             Control (hp s q) = Control (h q)) /\
  match Conc.pc c with
  | Conc.WStart rest | Conc.WRun rest =>
      stored_of (tr s) ++ persisted h rest = persisted h ps /\
      fwd_of (tr s) ++ forwarded (Some st) h rest = forwarded (Some st) h ps
  | Conc.WWait | Conc.WDone =>
      stored_of (tr s) = persisted h ps /\
      fwd_of (tr s) = forwarded (Some st) h ps
  | Conc.WPanic => True
  end.

End More.

(** A Writer about to give out the last positive number of its counter. *)
Definition lastNumWorld : @World memEnv :=
  mkWorld
    (mkWriter (Some onlineSettings) (Some (make_chan 32))
       (Some (make_chan 256)) (Some (@nil bytes : @Store memEnv))
       (2 ^ 63 - 1)%Z 1)
    scenarioHeap Ranging [].

(** * Properties *)

Section Proofs.

Context {E : Env}.

(** ** Arithmetic of the counter *)

Lemma wrap64_small z : (- 2 ^ 63 <= z < 2 ^ 63)%Z -> wrap64 z = z.
Proof.
  intros H. unfold wrap64.
  rewrite Z.mod_small by lia. lia.
Qed.

Lemma wrap64_add_wrap a b : wrap64 (wrap64 a + b) = wrap64 (a + b).
Proof.
  unfold wrap64.
  replace ((a + 2 ^ 63) mod 2 ^ 64 - 2 ^ 63 + b + 2 ^ 63)%Z
    with ((a + 2 ^ 63) mod 2 ^ 64 + b)%Z by lia.
  rewrite Zplus_mod_idemp_l.
  replace (a + 2 ^ 63 + b)%Z with (a + b + 2 ^ 63)%Z by lia.
  reflexivity.
Qed.

Lemma wrap64_idem z : wrap64 (wrap64 z) = wrap64 z.
Proof.
  pose proof (wrap64_add_wrap z 0) as H.
  now rewrite !Z.add_0_r in H.
Qed.

(** ** The heap *)

Lemma upd_same h p r : upd h p r p = r.
Proof. unfold upd. now rewrite Nat.eqb_refl. Qed.

Lemma upd_other h p r q : q <> p -> upd h p r q = h q.
Proof.
  intros H. unfold upd. destruct (Nat.eqb_spec q p); congruence.
Qed.

(** ** One record *)

Ltac unfold_M :=
  unfold handleRecord, sendRecord, storeRecord, send_fwdChan, send_storeChan,
    close_fwdChan, close_storeChan, recv_storeChan, store_do, settings_RunId,
    logger_Debug, logger_Info, logger_Error, logger_CaptureError,
    logger_CaptureFatalAndPanic, wg_Done, wg_Add, go_worker, assign_Num,
    bind, getW, modW, emit, deref, ret,
    block, panic, set_wr, set_hp, set_worker, add_ev, set_fwdChan,
    set_storeChan, set_store, set_recordNum, set_wg, set_settings,
    chan_push, chan_pop, chan_close, make_chan in *.

Lemma handleRecord_handled p s :
  forwarding s = true ->
  (persists (hp s p) = true -> chan_open (storeChan (wr s)) = true) ->
  handleRecord p s = Ok tt (handled p s).
Proof.
  intros Hf Hs.
  destruct s as [[st fc sc sto n g] h k t].
  unfold forwarding, chan_open in *. cbn [wr hp settings fwdChan storeChan] in *.
  destruct st as [st|]; [|discriminate].
  destruct fc as [[fcap fbuf [|]]|]; try discriminate.
  unfold handled, record_events, forwards, persists, is_data, is_nil,
    GetControl, push_if in *.
  unfold_M.
  cbn [wr hp settings fwdChan storeChan tr recordNum worker store wg
       cap buf closed] in *.
  destruct (h p) as [num rt ctl] eqn:Hr.
  cbn [RecordType Control Num] in *.
  destruct st as [xs [[|]|] sf rid]; destruct ctl as [[[|] [|]]|];
    destruct rt as [[pl|f pl]|]; cbn in *;
    do 3 (rewrite ?Hr; cbn); rewrite <- ?app_assoc; try reflexivity;
    destruct sc as [[scap sbuf [|]]|]; cbn in *;
    try (specialize (Hs eq_refl); discriminate);
    do 3 (rewrite ?Hr; cbn); rewrite <- ?app_assoc; reflexivity.
Qed.

Lemma handled_flags p s q :
  RecordType (hp (handled p s) q) = RecordType (hp s q) /\
  Control (hp (handled p s) q) = Control (hp s q).
Proof.
  unfold handled. cbn [hp].
  destruct (persists (hp s p)); [|split; reflexivity].
  unfold upd. destruct (Nat.eqb_spec q p) as [->|]; split; reflexivity.
Qed.

Lemma handled_persists p s q :
  persists (hp (handled p s) q) = persists (hp s q).
Proof.
  destruct (handled_flags p s q) as [H1 H2].
  unfold persists, is_data, GetControl. now rewrite H1, H2.
Qed.

Lemma handled_forwards st p s q :
  forwards st (hp (handled p s) q) = forwards st (hp s q).
Proof.
  destruct (handled_flags p s q) as [H1 H2].
  unfold forwards, is_nil, GetControl. now rewrite H1, H2.
Qed.

Lemma handled_is_nil p s q :
  is_nil (hp (handled p s) q) = is_nil (hp s q).
Proof.
  destruct (handled_flags p s q) as [H1 H2].
  unfold is_nil. now rewrite H1.
Qed.

Lemma handled_events st p s q :
  record_events st (hp (handled p s)) q = record_events st (hp s) q.
Proof.
  unfold record_events.
  now rewrite handled_is_nil, handled_forwards, handled_persists.
Qed.

Lemma push_if_open b c p : chan_open (push_if b c p) = chan_open c.
Proof. destruct b, c; reflexivity. Qed.

Lemma buf_push_if b c p :
  chan_open c = true ->
  buf_of (push_if b c p) = buf_of c ++ (if b then [p] else []).
Proof.
  destruct c as [c|]; [|discriminate]. intros _.
  destruct b; cbn; [reflexivity|now rewrite app_nil_r].
Qed.

Lemma handled_forwarding p s : forwarding (handled p s) = forwarding s.
Proof.
  unfold forwarding, handled. cbn [wr settings fwdChan].
  now rewrite push_if_open.
Qed.

Lemma handled_store_open p s :
  chan_open (storeChan (wr (handled p s))) = chan_open (storeChan (wr s)).
Proof. unfold handled. cbn [wr storeChan]. apply push_if_open. Qed.

Lemma handled_running p s : running (handled p s) = running s.
Proof.
  unfold running. now rewrite handled_forwarding, handled_store_open.
Qed.

Lemma running_forwarding s : running s = true -> forwarding s = true.
Proof. unfold running. intros H. now apply andb_prop in H. Qed.

Lemma running_store_open s :
  running s = true -> chan_open (storeChan (wr s)) = true.
Proof. unfold running. intros H. now apply andb_prop in H. Qed.

Lemma handleRecord_running p s :
  running s = true -> handleRecord p s = Ok tt (handled p s).
Proof.
  intros H. apply handleRecord_handled.
  - now apply running_forwarding.
  - intros _. now apply running_store_open.
Qed.

(** ** The range loop *)

Lemma forRange_app ps qs body s :
  forRange (ps ++ qs) body s =
  match forRange ps body s with
  | Ok _ s' => forRange qs body s'
  | Blocked s' => Blocked s'
  | Panicked s' => Panicked s'
  end.
Proof.
  revert s. induction ps as [|p ps IH]; intros s; cbn; [reflexivity|].
  unfold bind. destruct (body p s); try reflexivity. apply IH.
Qed.

Lemma handled_all_app ps qs s :
  handled_all (ps ++ qs) s = handled_all qs (handled_all ps s).
Proof. unfold handled_all. apply fold_left_app. Qed.

Lemma handled_all_cons p ps s :
  handled_all (p :: ps) s = handled_all ps (handled p s).
Proof. reflexivity. Qed.

Lemma handled_all_running ps s :
  running (handled_all ps s) = running s.
Proof.
  revert s. induction ps as [|p ps IH]; intros s; [reflexivity|].
  now rewrite handled_all_cons, IH, handled_running.
Qed.

Lemma handled_all_forwarding ps s :
  forwarding (handled_all ps s) = forwarding s.
Proof.
  revert s. induction ps as [|p ps IH]; intros s; [reflexivity|].
  now rewrite handled_all_cons, IH, handled_forwarding.
Qed.

Lemma handled_all_store_open ps s :
  chan_open (storeChan (wr (handled_all ps s))) = chan_open (storeChan (wr s)).
Proof.
  revert s. induction ps as [|p ps IH]; intros s; [reflexivity|].
  now rewrite handled_all_cons, IH, handled_store_open.
Qed.

Lemma forRange_running ps s :
  running s = true ->
  forRange ps handleRecord s = Ok tt (handled_all ps s).
Proof.
  revert s. induction ps as [|p ps IH]; intros s H; cbn; [reflexivity|].
  unfold bind. rewrite handleRecord_running by assumption.
  apply IH. now rewrite handled_running.
Qed.

Lemma handled_all_settings ps s :
  settings (wr (handled_all ps s)) = settings (wr s).
Proof.
  revert s. induction ps as [|p ps IH]; intros s; [reflexivity|].
  now rewrite handled_all_cons, IH.
Qed.

Lemma handled_all_persists ps s q :
  persists (hp (handled_all ps s) q) = persists (hp s q).
Proof.
  revert s. induction ps as [|p ps IH]; intros s; [reflexivity|].
  now rewrite handled_all_cons, IH, handled_persists.
Qed.

Lemma handled_all_forwards st ps s q :
  forwards st (hp (handled_all ps s) q) = forwards st (hp s q).
Proof.
  revert s. induction ps as [|p ps IH]; intros s; [reflexivity|].
  now rewrite handled_all_cons, IH, handled_forwards.
Qed.

Lemma handled_all_events st ps s q :
  record_events st (hp (handled_all ps s)) q = record_events st (hp s) q.
Proof.
  revert s. induction ps as [|p ps IH]; intros s; [reflexivity|].
  now rewrite handled_all_cons, IH, handled_events.
Qed.

Lemma handled_all_is_data ps s q :
  is_data (hp (handled_all ps s) q) = is_data (hp s q).
Proof.
  revert s. induction ps as [|p ps IH]; intros s; [reflexivity|].
  rewrite handled_all_cons, IH.
  destruct (handled_flags p s q) as [H1 _]. unfold is_data. now rewrite H1.
Qed.

Lemma persisted_ext h1 h2 ps :
  (forall q, persists (h1 q) = persists (h2 q)) ->
  persisted h1 ps = persisted h2 ps.
Proof. intros H. unfold persisted. apply filter_ext. intros q. apply H. Qed.

Lemma forwarded_ext st h1 h2 ps :
  (forall q, forwards st (h1 q) = forwards st (h2 q)) ->
  forwarded st h1 ps = forwarded st h2 ps.
Proof. intros H. unfold forwarded. apply filter_ext. intros q. apply H. Qed.

Lemma events_ext st h1 h2 ps :
  (forall q, record_events st h1 q = record_events st h2 q) ->
  flat_map (record_events st h1) ps = flat_map (record_events st h2) ps.
Proof.
  intros H. induction ps as [|p ps IH]; cbn [flat_map]; [reflexivity|].
  now rewrite H, IH.
Qed.

(** The trace of the loop is the concatenation, in arrival order, of what
    each record leaves. *)
Lemma handled_all_trace ps s :
  tr (handled_all ps s) =
  tr s ++ flat_map (record_events (settings (wr s)) (hp s)) ps.
Proof.
  revert s. induction ps as [|p ps IH]; intros s.
  - cbn. now rewrite app_nil_r.
  - rewrite handled_all_cons, IH. cbn [flat_map handled tr wr settings].
    rewrite <- app_assoc. f_equal.
    f_equal. apply events_ext. intros q. apply (handled_events _ p s q).
Qed.

Lemma handled_all_stored ps s :
  chan_open (storeChan (wr s)) = true ->
  buf_of (storeChan (wr (handled_all ps s))) =
  buf_of (storeChan (wr s)) ++ persisted (hp s) ps.
Proof.
  revert s. induction ps as [|p ps IH]; intros s H.
  - cbn. now rewrite app_nil_r.
  - rewrite handled_all_cons. cbn [persisted filter].
    fold (persisted (hp s) ps).
    rewrite IH by now rewrite handled_store_open.
    rewrite (persisted_ext (hp (handled p s)) (hp s))
      by (intros q; apply handled_persists).
    cbn [handled wr storeChan]. rewrite buf_push_if by assumption.
    rewrite <- app_assoc. f_equal.
    destruct (persists (hp s p)); reflexivity.
Qed.

Lemma handled_all_fwd ps s :
  chan_open (fwdChan (wr s)) = true ->
  buf_of (fwdChan (wr (handled_all ps s))) =
  buf_of (fwdChan (wr s)) ++ forwarded (settings (wr s)) (hp s) ps.
Proof.
  revert s. induction ps as [|p ps IH]; intros s H.
  - cbn. now rewrite app_nil_r.
  - rewrite handled_all_cons. cbn [forwarded filter].
    fold (forwarded (settings (wr s)) (hp s) ps).
    rewrite IH by (cbn [handled wr fwdChan]; now rewrite push_if_open).
    cbn [handled wr settings fwdChan].
    rewrite (forwarded_ext _ (hp (handled p s)) (hp s))
      by (intros q; apply handled_forwards).
    rewrite buf_push_if by assumption.
    rewrite <- app_assoc. f_equal.
    destruct (forwards (settings (wr s)) (hp s p)); reflexivity.
Qed.

(** The counter after the loop: the persisted records are counted, modulo
    the width of [int64]. *)
Lemma handled_all_recordNum ps s :
  wrap64 (recordNum (wr s)) = recordNum (wr s) ->
  recordNum (wr (handled_all ps s)) =
  wrap64 (recordNum (wr s) + Z.of_nat (List.length (persisted (hp s) ps))).
Proof.
  revert s. induction ps as [|p ps IH]; intros s H.
  - cbn. now rewrite Z.add_0_r.
  - rewrite handled_all_cons. cbn [persisted filter].
    fold (persisted (hp s) ps).
    rewrite (persisted_ext (hp s) (hp (handled p s)))
      by (intros q; symmetry; apply handled_persists).
    destruct (persists (hp s p)) eqn:Hp.
    + rewrite IH.
      * cbn [handled wr recordNum]. rewrite Hp. unfold int64_add.
        rewrite wrap64_add_wrap. f_equal. cbn [List.length]. lia.
      * cbn [handled wr recordNum]. rewrite Hp. unfold int64_add.
        apply wrap64_idem.
    + rewrite IH.
      * cbn [handled wr recordNum]. now rewrite Hp.
      * cbn [handled wr recordNum]. now rewrite Hp.
Qed.

(** ** Projections of the trace of the loop *)

Lemma stored_of_app t1 t2 : stored_of (t1 ++ t2) = stored_of t1 ++ stored_of t2.
Proof. unfold stored_of. apply flat_map_app. Qed.

Lemma fwd_of_app t1 t2 : fwd_of (t1 ++ t2) = fwd_of t1 ++ fwd_of t2.
Proof. unfold fwd_of. apply flat_map_app. Qed.

Lemma stored_of_record st h p :
  stored_of (record_events st h p) = if persists (h p) then [p] else [].
Proof.
  unfold record_events.
  destruct (is_nil (h p)), (forwards st (h p)), (persists (h p)); reflexivity.
Qed.

Lemma fwd_of_record st h p :
  fwd_of (record_events st h p) = if forwards st (h p) then [p] else [].
Proof.
  unfold record_events.
  destruct (is_nil (h p)), (forwards st (h p)), (persists (h p)); reflexivity.
Qed.

Lemma stored_of_records st h ps :
  stored_of (flat_map (record_events st h) ps) = persisted h ps.
Proof.
  induction ps as [|p ps IH]; [reflexivity|].
  cbn [flat_map persisted filter]. rewrite stored_of_app, stored_of_record, IH.
  fold (persisted h ps). destruct (persists (h p)); reflexivity.
Qed.

Lemma fwd_of_records st h ps :
  fwd_of (flat_map (record_events st h) ps) = forwarded st h ps.
Proof.
  induction ps as [|p ps IH]; [reflexivity|].
  cbn [flat_map forwarded filter]. rewrite fwd_of_app, fwd_of_record, IH.
  fold (forwarded st h ps). destruct (forwards st (h p)); reflexivity.
Qed.

Lemma persisted_app h ps qs :
  persisted h (ps ++ qs) = persisted h ps ++ persisted h qs.
Proof. unfold persisted. apply filter_app. Qed.

Lemma persisted_length h ps :
  (List.length (persisted h ps) <= List.length ps)%nat.
Proof. unfold persisted. apply filter_length_le. Qed.

(** The loop over [pre ++ p :: post], cut at [p]. *)
Lemma forRange_split s pre p post :
  running s = true ->
  let s1 := handled_all pre s in
  let s2 := handled p s1 in
  let s3 := handled_all post s2 in
  forRange pre handleRecord s = Ok tt s1 /\
  handleRecord p s1 = Ok tt s2 /\
  forRange post handleRecord s2 = Ok tt s3 /\
  forRange (pre ++ p :: post) handleRecord s = Ok tt s3.
Proof.
  intros H s1 s2 s3.
  assert (H1 : running s1 = true) by (subst s1; now rewrite handled_all_running).
  assert (H2 : running s2 = true) by (subst s2; now rewrite handled_running).
  repeat split.
  - now apply forRange_running.
  - now apply handleRecord_running.
  - now apply forRange_running.
  - rewrite forRange_running by assumption.
    subst s3 s2 s1. rewrite handled_all_app. reflexivity.
Qed.

(** C1.  In a running Writer whose counter starts at 0, and for an inbound
    sequence within the range of the [int64] counter, cut the sequence at
    any record [p]: the records before it have been handled, the counter
    equals the number of them that were persisted, and then [p] is queued
    on the store channel exactly when it is a data record whose [local]
    flag is false, in which case it is given the number 1 + (count of
    records persisted before it); otherwise (local, request or nil
    variant) the counter, the store channel and the heap are untouched.
    At the end the store channel holds the persisted records, and only
    them, in arrival order. *)
Theorem sequence_numbers_enumerate_persisted
    (s : World) (pre : list loc) (p : loc) (post : list loc) :
  running s = true ->
  recordNum (wr s) = 0%Z ->
  (Z.of_nat (List.length (pre ++ p :: post)) < 2 ^ 63)%Z ->
  exists s1 s2 s3,
    forRange pre handleRecord s = Ok tt s1 /\
    handleRecord p s1 = Ok tt s2 /\
    forRange post handleRecord s2 = Ok tt s3 /\
    forRange (pre ++ p :: post) handleRecord s = Ok tt s3 /\
    recordNum (wr s1) = Z.of_nat (List.length (persisted (hp s) pre)) /\
    (if is_data (hp s p) && negb (GetLocal (GetControl (hp s p)))
     then
       buf_of (storeChan (wr s2)) = buf_of (storeChan (wr s1)) ++ [p] /\
       Num (hp s2 p) = (1 + Z.of_nat (List.length (persisted (hp s) pre)))%Z /\
       recordNum (wr s2) = (1 + Z.of_nat (List.length (persisted (hp s) pre)))%Z
     else
       storeChan (wr s2) = storeChan (wr s1) /\
       hp s2 = hp s1 /\
       recordNum (wr s2) = recordNum (wr s1)) /\
    buf_of (storeChan (wr s3)) =
      buf_of (storeChan (wr s)) ++
      filter (fun q => is_data (hp s q) && negb (GetLocal (GetControl (hp s q))))
        (pre ++ p :: post).
Proof.
  intros Hrun H0 Hlen.
  destruct (forRange_split s pre p post Hrun) as (E1 & E2 & E3 & E4).
  exists (handled_all pre s), (handled p (handled_all pre s)),
    (handled_all post (handled p (handled_all pre s))).
  pose proof (persisted_length (hp s) pre) as Hle.
  rewrite length_app in Hlen. cbn [List.length] in Hlen.
  assert (Hn : recordNum (wr (handled_all pre s)) =
               Z.of_nat (List.length (persisted (hp s) pre))).
  { rewrite handled_all_recordNum by (rewrite H0; reflexivity).
    rewrite H0. apply wrap64_small. lia. }
  repeat split; try assumption.
  - change (is_data (hp s p) && negb (GetLocal (GetControl (hp s p))))
      with (persists (hp s p)).
    rewrite <- (handled_all_persists pre s p).
    assert (Ho : chan_open (storeChan (wr (handled_all pre s))) = true).
    { rewrite handled_all_store_open. now apply running_store_open. }
    revert Hn Ho. generalize (handled_all pre s) as s1. intros s1 Hn Ho.
    unfold handled. cbn [wr hp storeChan recordNum].
    destruct (persists (hp s1 p)) eqn:Hp.
    + repeat split.
      * now rewrite buf_push_if.
      * rewrite upd_same. cbn [Num]. rewrite Hn. unfold int64_add.
        rewrite wrap64_small by lia. lia.
      * rewrite Hn. unfold int64_add. rewrite wrap64_small by lia. lia.
    + repeat split.
  - rewrite <- handled_all_cons, <- handled_all_app.
    rewrite handled_all_stored by now apply running_store_open.
    reflexivity.
Qed.

(** On a data record [handleRecord] is [sendRecord] followed by
    [storeRecord]. *)
Lemma handleRecord_data p s :
  is_data (hp s p) = true ->
  handleRecord p s =
  (_ <- settings_RunId ;;
   logger_Debug "write: got a message" ;;
   sendRecord p ;;
   storeRecord p) s.
Proof.
  intros H. unfold handleRecord, bind.
  destruct (settings_RunId s) as [a s1| |] eqn:Hs1; try reflexivity.
  assert (Hh : hp s1 = hp s).
  { unfold settings_RunId, bind, getW, ret, panic in Hs1.
    destruct (settings (wr s)); inversion Hs1; reflexivity. }
  destruct (logger_Debug "write: got a message" s1) as [u s2| |] eqn:Hl;
    try reflexivity.
  assert (Hh2 : hp s2 = hp s).
  { unfold logger_Debug, emit in Hl. inversion Hl. subst. exact Hh. }
  unfold deref. rewrite Hh2. unfold is_data in H.
  destruct (RecordType (hp s p)) as [[pl|f pl]|]; try discriminate.
  reflexivity.
Qed.

(** C3.  A running Writer handles a data record [p] by [sendRecord] and
    then [storeRecord]: in the trace its forward, if any, comes before its
    store-channel send, if any.  When the Writer turns to the records after
    [p], [p] is already on the store channel behind the persisted records
    that arrived before it, and whatever the later records leave in the
    trace comes after.  So the store channel receives the persisted records
    in arrival order. *)
Theorem forward_then_persist_in_arrival_order
    (s : World) (pre : list loc) (p : loc) (post : list loc) :
  running s = true ->
  is_data (hp s p) = true ->
  exists s1 s2 s3,
    forRange pre handleRecord s = Ok tt s1 /\
    handleRecord p s1 = Ok tt s2 /\
    forRange post handleRecord s2 = Ok tt s3 /\
    forRange (pre ++ p :: post) handleRecord s = Ok tt s3 /\
    handleRecord p s1 =
      (_ <- settings_RunId ;;
       logger_Debug "write: got a message" ;;
       sendRecord p ;;
       storeRecord p) s1 /\
    tr s2 =
      tr s1 ++
      EvLog Debug "write: got a message" ::
      (if forwards (settings (wr s)) (hp s p) then [EvFwd p] else []) ++
      (if persists (hp s p) then [EvStore p] else []) /\
    buf_of (storeChan (wr s2)) =
      buf_of (storeChan (wr s)) ++ persisted (hp s) (pre ++ [p]) /\
    tr s3 = tr s2 ++ flat_map (record_events (settings (wr s)) (hp s)) post /\
    buf_of (storeChan (wr s3)) =
      buf_of (storeChan (wr s)) ++ persisted (hp s) (pre ++ p :: post) /\
    stored_of (tr s3) = stored_of (tr s) ++ persisted (hp s) (pre ++ p :: post).
Proof.
  intros Hrun Hd.
  destruct (forRange_split s pre p post Hrun) as (E1 & E2 & E3 & E4).
  exists (handled_all pre s), (handled p (handled_all pre s)),
    (handled_all post (handled p (handled_all pre s))).
  assert (Hnil : is_nil (hp s p) = false).
  { unfold is_data, is_nil in *. destruct (RecordType (hp s p)) as [[|]|];
      congruence. }
  assert (Hd1 : is_data (hp (handled_all pre s) p) = true).
  { destruct (is_data (hp (handled_all pre s) p)) eqn:Hx; [reflexivity|].
    pose proof (handled_all_is_data pre s p) as Hp. congruence. }
  repeat split; try assumption.
  - now apply handleRecord_data.
  - cbn [handled tr wr settings].
    rewrite handled_all_settings, handled_all_events.
    unfold record_events. now rewrite Hnil.
  - change (handled p (handled_all pre s))
      with (handled_all [p] (handled_all pre s)).
    rewrite <- handled_all_app.
    apply handled_all_stored. now apply running_store_open.
  - rewrite handled_all_trace. f_equal.
    cbn [handled wr settings]. rewrite handled_all_settings.
    apply events_ext. intros q.
    rewrite (handled_events _ p (handled_all pre s) q).
    apply handled_all_events.
  - rewrite <- handled_all_cons, <- handled_all_app.
    apply handled_all_stored. now apply running_store_open.
  - rewrite <- handled_all_cons, <- handled_all_app.
    rewrite handled_all_trace, stored_of_app, stored_of_records. reflexivity.
Qed.

(** C4.  A running Writer handles a data record thus: offline, the record
    is forwarded exactly when its [always_send] flag is set; online, it is
    always forwarded; and it is queued for persistence exactly when its
    [local] flag is false, whatever [x_offline] and [always_send] are. *)
Theorem offline_rule_and_persistence (s : World) (p : loc) :
  running s = true ->
  is_data (hp s p) = true ->
  exists s',
    handleRecord p s = Ok tt s' /\
    buf_of (fwdChan (wr s')) =
      buf_of (fwdChan (wr s)) ++
      (if GetValue (GetXOffline (settings (wr s)))
       then if GetAlwaysSend (GetControl (hp s p)) then [p] else []
       else [p]) /\
    buf_of (storeChan (wr s')) =
      buf_of (storeChan (wr s)) ++
      (if GetLocal (GetControl (hp s p)) then [] else [p]).
Proof.
  intros Hrun Hd. exists (handled p s).
  split; [now apply handleRecord_running|].
  pose proof (running_store_open s Hrun) as Hs.
  pose proof (running_forwarding s Hrun) as Hf.
  unfold forwarding in Hf. apply andb_prop in Hf. destruct Hf as [_ Hf].
  cbn [handled wr fwdChan storeChan].
  rewrite !buf_push_if by assumption.
  unfold forwards, persists, is_nil, is_data in *.
  destruct (RecordType (hp s p)) as [[|]|]; try discriminate.
  split; f_equal.
  - destruct (GetValue (GetXOffline (settings (wr s)))),
      (GetAlwaysSend (GetControl (hp s p))); reflexivity.
  - destruct (GetLocal (GetControl (hp s p))); reflexivity.
Qed.

(** C2, as the code has it.  A Writer handles a request record by
    [sendRecord] alone: the record is forwarded unless [x_offline] is set
    and its [always_send] flag is not, and it is never persisted: the store
    channel, the counter and the heap are left as they were. *)
Theorem request_forwarded_by_offline_rule (s : World) (p : loc) :
  forwarding s = true ->
  is_request (hp s p) = true ->
  exists s',
    handleRecord p s = Ok tt s' /\
    buf_of (fwdChan (wr s')) =
      buf_of (fwdChan (wr s)) ++
      (if GetValue (GetXOffline (settings (wr s))) &&
          negb (GetAlwaysSend (GetControl (hp s p)))
       then [] else [p]) /\
    storeChan (wr s') = storeChan (wr s) /\
    recordNum (wr s') = recordNum (wr s) /\
    hp s' = hp s /\
    stored_of (tr s') = stored_of (tr s).
Proof.
  intros Hf Hr. exists (handled p s).
  assert (Hp : persists (hp s p) = false).
  { unfold persists, is_data, is_request in *.
    destruct (RecordType (hp s p)) as [[|]|]; try discriminate. reflexivity. }
  split.
  { apply handleRecord_handled; [assumption|]. rewrite Hp. discriminate. }
  pose proof Hf as Hf'.
  unfold forwarding in Hf'. apply andb_prop in Hf'. destruct Hf' as [_ Hf'].
  cbn [handled wr hp tr fwdChan storeChan recordNum]. rewrite Hp.
  rewrite buf_push_if by assumption.
  rewrite stored_of_app, stored_of_record, Hp, app_nil_r.
  repeat split.
  unfold forwards, is_nil, is_request in *.
  destruct (RecordType (hp s p)) as [[|]|]; try discriminate.
  cbn [negb andb].
  destruct (GetValue (GetXOffline (settings (wr s))) &&
            negb (GetAlwaysSend (GetControl (hp s p)))); reflexivity.
Qed.

(** ** Start-up *)

Lemma startStore_sync s :
  GetValue (GetXSync (settings (wr s))) = true -> startStore s = Ok tt s.
Proof. intros H. unfold startStore, bind, getW. cbn. now rewrite H. Qed.

Lemma startStore_started s :
  GetValue (GetXSync (settings (wr s))) = false ->
  snd (opening s) = None ->
  startStore s = Ok tt (started s).
Proof.
  intros Hx Ho. unfold startStore, started, opening, sync_file in *.
  unfold_M. cbn. rewrite Hx. cbn.
  destruct s as [[st fc sc sto n g] h k t]. cbn in *.
  destruct (store_Open (store_New (GetValueS (GetSyncFile st)))) as [st' err].
  cbn in *. subst err. cbn. rewrite <- app_assoc. reflexivity.
Qed.

Lemma startStore_unopened s e :
  GetValue (GetXSync (settings (wr s))) = false ->
  snd (opening s) = Some e ->
  startStore s = Panicked (unopened s).
Proof.
  intros Hx Ho. unfold startStore, unopened, opening, sync_file in *.
  unfold_M. cbn. rewrite Hx. cbn.
  destruct s as [[st fc sc sto n g] h k t]. cbn in *.
  destruct (store_Open (store_New (GetValueS (GetSyncFile st)))) as [st' err].
  cbn in *. subst err. cbn. rewrite <- app_assoc. reflexivity.
Qed.

(** ** A record the Writer cannot queue *)

Lemma handleRecord_parked p s :
  forwarding s = true ->
  storeChan (wr s) = None ->
  persists (hp s p) = true ->
  handleRecord p s = Blocked (parked p s).
Proof.
  intros Hf Hs Hp.
  destruct s as [[st fc sc sto n g] h k t].
  unfold forwarding, chan_open in *. cbn [wr hp settings fwdChan storeChan] in *.
  subst sc.
  destruct st as [st|]; [|discriminate].
  destruct fc as [[fcap fbuf [|]]|]; try discriminate.
  unfold parked, handled, record_events, forwards, persists, is_data, is_nil,
    GetControl, push_if in *.
  unfold_M.
  cbn [wr hp settings fwdChan storeChan tr recordNum worker store wg
       cap buf closed] in *.
  destruct (h p) as [num rt ctl] eqn:Hr.
  cbn [RecordType Control Num] in *.
  destruct st as [xs [[|]|] sf rid]; destruct ctl as [[[|] [|]]|];
    destruct rt as [[pl|f pl]|]; cbn in *; try discriminate;
    do 3 (rewrite ?Hr; cbn); rewrite <- ?app_assoc; reflexivity.
Qed.

Lemma persisted_nil_cons h p ps :
  persisted h (p :: ps) = [] -> persists (h p) = false /\ persisted h ps = [].
Proof.
  cbn [persisted filter]. destruct (persists (h p)); [discriminate|].
  intros H. split; [reflexivity|exact H].
Qed.

Lemma forRange_unpersisted ps s :
  forwarding s = true ->
  persisted (hp s) ps = [] ->
  forRange ps handleRecord s = Ok tt (handled_all ps s).
Proof.
  revert s. induction ps as [|p ps IH]; intros s Hf Hn; [reflexivity|].
  apply persisted_nil_cons in Hn. destruct Hn as [Hp Hn].
  cbn [forRange]. unfold bind.
  rewrite handleRecord_handled; [|assumption|rewrite Hp; discriminate].
  rewrite handled_all_cons. apply IH.
  - now rewrite handled_forwarding.
  - rewrite (persisted_ext (hp (handled p s)) (hp s)); [assumption|].
    intros q. apply handled_persists.
Qed.

Lemma handled_all_unpersisted ps s :
  persisted (hp s) ps = [] ->
  storeChan (wr (handled_all ps s)) = storeChan (wr s) /\
  recordNum (wr (handled_all ps s)) = recordNum (wr s) /\
  hp (handled_all ps s) = hp s.
Proof.
  revert s. induction ps as [|p ps IH]; intros s Hn; [repeat split|].
  apply persisted_nil_cons in Hn. destruct Hn as [Hp Hn].
  rewrite handled_all_cons.
  assert (Hh : hp (handled p s) = hp s) by (cbn [handled hp]; now rewrite Hp).
  destruct (IH (handled p s)) as (H1 & H2 & H3); [now rewrite Hh|].
  rewrite H1, H2, H3, Hh. cbn [handled wr storeChan recordNum]. rewrite Hp.
  repeat split.
Qed.

(** ** What a completed block has done *)

Lemma handleRecord_Ok_inv p s s' :
  handleRecord p s = Ok tt s' -> s' = handled p s.
Proof.
  destruct s as [[st fc sc sto n g] h k t].
  unfold handled, record_events, forwards, persists, is_data, is_nil,
    GetControl, push_if.
  unfold_M.
  cbn [wr hp settings fwdChan storeChan tr recordNum worker store wg
       cap buf closed].
  destruct (h p) as [num rt ctl] eqn:Hr.
  cbn [RecordType Control Num].
  destruct st as [[xs [[|]|] sf rid]|]; cbn; try discriminate;
    destruct rt as [[pl|f pl]|]; cbn;
    destruct ctl as [[[|] [|]]|]; cbn;
    do 2 (rewrite ?Hr; cbn);
    try (destruct fc as [[fcap fbuf [|]]|]; cbn; try discriminate);
    do 2 (rewrite ?Hr; cbn);
    try (destruct sc as [[scap sbuf [|]]|]; cbn; try discriminate);
    do 2 (rewrite ?Hr; cbn);
    intros H; inversion H; rewrite <- ?app_assoc; reflexivity.
Qed.

Lemma Close_closing s :
  forwarding s = true ->
  storeChan (wr s) = None \/ chan_open (storeChan (wr s)) = true ->
  Close s = Ok tt (closing s).
Proof.
  destruct s as [[st fc sc sto n g] h k t].
  unfold forwarding, chan_open, closing, Close. unfold_M.
  cbn [wr hp settings fwdChan storeChan tr recordNum worker store wg].
  intros Hf Hs.
  destruct st as [st|]; [|discriminate].
  destruct fc as [[fcap fbuf [|]]|]; try discriminate.
  destruct sc as [[scap sbuf [|]]|]; cbn in *;
    try (destruct Hs; discriminate);
    rewrite <- ?app_assoc; reflexivity.
Qed.

Lemma Close_Ok_inv s s' :
  Close s = Ok tt s' -> s' = closing s.
Proof.
  destruct s as [[st fc sc sto n g] h k t].
  unfold closing, Close. unfold_M.
  cbn [wr hp settings fwdChan storeChan tr recordNum worker store wg].
  destruct fc as [[fcap fbuf [|]]|]; cbn; try discriminate;
    destruct sc as [[scap sbuf [|]]|]; cbn; try discriminate;
    destruct st as [st|]; cbn; try discriminate;
    intros H; inversion H; rewrite <- ?app_assoc; reflexivity.
Qed.

(** ** The worker *)

Lemma workerStep_iterated s c st p q :
  storeChan (wr s) = Some c ->
  buf c = p :: q ->
  store (wr s) = Some st ->
  Conc.workerStep s = Ok tt (iterated c st p s).
Proof.
  destruct s as [[stg fc sc sto n g] h k t].
  cbn [wr storeChan store]. intros -> Hb ->.
  unfold Conc.workerStep, workerIter, iterated. unfold_M.
  cbn [wr hp settings fwdChan storeChan tr recordNum worker store wg].
  rewrite Hb. cbn.
  destruct (proto_Marshal (h p)) as [out|e]; cbn.
  - destruct (store_Write st out) as [st' [e|]]; cbn;
      rewrite <- ?app_assoc; reflexivity.
  - rewrite <- ?app_assoc. reflexivity.
Qed.

Lemma workerStep_exited s c st n :
  storeChan (wr s) = Some c ->
  buf c = [] ->
  closed c = true ->
  store (wr s) = Some st ->
  wg (wr s) = S n ->
  Conc.workerStep s = Ok tt (exited st n s).
Proof.
  destruct s as [[stg fc sc sto rn g] h k t].
  cbn [wr storeChan store wg]. intros -> Hb Hc -> ->.
  unfold Conc.workerStep, workerExit, exited. unfold_M.
  cbn [wr hp settings fwdChan storeChan tr recordNum worker store wg].
  rewrite Hb, Hc. cbn.
  destruct (store_Close st) as [st' [e|]]; cbn;
    rewrite <- ?app_assoc; reflexivity.
Qed.

Lemma workerStep_Ok_inv s s' st :
  store (wr s) = Some st ->
  Conc.workerStep s = Ok tt s' ->
  (exists c p q,
      storeChan (wr s) = Some c /\ buf c = p :: q /\ s' = iterated c st p s) \/
  (exists c n,
      storeChan (wr s) = Some c /\ buf c = [] /\ closed c = true /\
      wg (wr s) = S n /\ s' = exited st n s).
Proof.
  intros Hst H.
  destruct (storeChan (wr s)) as [c|] eqn:Hc.
  - destruct (buf c) as [|p q] eqn:Hb.
    + destruct (closed c) eqn:Hcl.
      * destruct (wg (wr s)) as [|n] eqn:Hg.
        -- exfalso. revert H.
           destruct s as [[stg fc sc sto rn g] h k t]. cbn in *. subst.
           unfold Conc.workerStep, workerExit. unfold_M. cbn.
           rewrite Hb, Hcl. cbn.
           destruct (store_Close st) as [st' [e|]]; cbn; discriminate.
        -- right. exists c, n.
           rewrite (workerStep_exited s Hc Hb Hcl Hst Hg) in H.
           inversion H. repeat split; assumption.
      * exfalso. revert H.
        destruct s as [[stg fc sc sto rn g] h k t]. cbn in *. subst.
        unfold Conc.workerStep. unfold_M. cbn. rewrite Hb, Hcl. discriminate.
    + left. exists c, p, q.
      rewrite (workerStep_iterated s Hc Hb Hst) in H.
      inversion H. repeat split; assumption.
  - exfalso. revert H.
    destruct s as [[stg fc sc sto rn g] h k t]. cbn in *. subst.
    unfold Conc.workerStep. unfold_M. cbn. discriminate.
Qed.

(** The worker's loop run to the end of what is queued. *)
Lemma iter1_store s :
  store (wr s) <> None -> store (wr (iter1 s)) <> None.
Proof.
  unfold iter1. destruct (storeChan (wr s)) as [c|]; [|auto].
  destruct (store (wr s)) as [st|] eqn:Hst; [|auto].
  destruct (buf c) as [|p q]; [now rewrite Hst|].
  intros _. unfold iterated.
  destruct (proto_Marshal (hp s p)) as [out|e]; cbn.
  - destruct (snd (store_Write st out)); cbn; discriminate.
  - now rewrite Hst.
Qed.

Lemma workerRange_iter_all n s c :
  storeChan (wr s) = Some c ->
  List.length (buf c) = n ->
  store (wr s) <> None ->
  workerRange n s = Ok tt (iter_all n s).
Proof.
  revert s c. induction n as [|n IH]; intros s c Hc Hn Hst; [reflexivity|].
  destruct (buf c) as [|p q] eqn:Hb; [discriminate|].
  destruct (store (wr s)) as [st|] eqn:Hs; [|congruence].
  pose proof (workerStep_iterated s Hc Hb Hs) as Hw.
  cbn [workerRange iter_all].
  assert (Hi : iter1 s = iterated c st p s).
  { unfold iter1. now rewrite Hc, Hs, Hb. }
  assert (Hr : (x <- recv_storeChan;;
                match x with
                | Some record => workerIter record;; workerRange n
                | None => ret tt
                end) s =
               match Conc.workerStep s with
               | Ok _ s1 => workerRange n s1
               | Blocked s1 => Blocked s1
               | Panicked s1 => Panicked s1
               end).
  { unfold Conc.workerStep, bind.
    destruct (recv_storeChan s) as [[r|] s1| |] eqn:Hrecv; try reflexivity.
    exfalso. revert Hrecv.
    destruct s as [[stg fc sc sto rn g] h k t]. cbn in *. subst.
    unfold_M. cbn. rewrite Hb. cbn. discriminate. }
  rewrite Hr, Hw, Hi.
  assert (Hst' : store (wr (iterated c st p s)) <> None).
  { rewrite <- Hi. apply iter1_store. congruence. }
  assert (Hc' : storeChan (wr (iterated c st p s)) = Some (chan_pop c)).
  { unfold iterated. destruct (proto_Marshal (hp s p)); cbn;
      [destruct (snd (store_Write st b))|]; reflexivity. }
  apply (IH _ (chan_pop c)); try assumption.
  cbn. rewrite Hb. cbn. cbn in Hn. lia.
Qed.

(** ** Order in a trace *)

Lemma recv_of_app t1 t2 : recv_of (t1 ++ t2) = recv_of t1 ++ recv_of t2.
Proof. unfold recv_of. apply flat_map_app. Qed.

Lemma closes_of_app t1 t2 : closes_of (t1 ++ t2) = closes_of t1 + closes_of t2.
Proof. unfold closes_of. now rewrite filter_app, length_app. Qed.

Lemma precedes_quiet a b t : existsb b t = false -> Conc.precedes a b t.
Proof.
  intros H t1 e t2 -> Hb. rewrite existsb_app in H. cbn in H.
  rewrite Hb in H. rewrite orb_true_r in H. discriminate.
Qed.

Lemma precedes_app_quiet a b t evs :
  Conc.precedes a b t -> existsb b evs = false -> Conc.precedes a b (t ++ evs).
Proof.
  intros Hp Hq t1 e t2 Heq Hb.
  apply app_eq_app in Heq. destruct Heq as (l & [[H1 H2]|[H1 H2]]).
  - destruct l as [|x l]; cbn in H2.
    + subst evs. cbn in Hq. rewrite Hb in Hq. discriminate.
    + inversion H2. subst. eapply Hp; [reflexivity|exact Hb].
  - subst evs. rewrite existsb_app in Hq. cbn in Hq. rewrite Hb in Hq.
    rewrite orb_true_r in Hq. discriminate.
Qed.

Lemma precedes_app_after a b t evs :
  Conc.precedes a b t -> existsb a t = true -> Conc.precedes a b (t ++ evs).
Proof.
  intros Hp Ha t1 e t2 Heq Hb.
  apply app_eq_app in Heq. destruct Heq as (l & [[H1 H2]|[H1 H2]]).
  - destruct l as [|x l]; cbn in H2.
    + rewrite app_nil_r in H1. now subst.
    + inversion H2. subst. eapply Hp; [reflexivity|exact Hb].
  - subst t1. rewrite existsb_app, Ha. reflexivity.
Qed.

Lemma closes_of_exists t : closes_of t = 1 -> existsb is_storeclose t = true.
Proof.
  unfold closes_of. induction t as [|e t IH]; cbn; [discriminate|].
  destruct (is_storeclose e); cbn; [reflexivity|exact IH].
Qed.

Lemma events_quiet st h p :
  recv_of (record_events st h p) = [] /\
  existsb is_closefwd (record_events st h p) = false /\
  existsb is_closestore (record_events st h p) = false /\
  existsb is_storeclose (record_events st h p) = false /\
  existsb is_return (record_events st h p) = false /\
  closes_of (record_events st h p) = 0.
Proof.
  unfold record_events.
  destruct (is_nil (h p)), (forwards st (h p)), (persists (h p));
    repeat split; reflexivity.
Qed.

(** ** The invariant is kept by every step *)

Lemma inv_handled fc st p ps s :
  inv_world fc st s ->
  inv_pc (Conc.mkConf (Conc.WRun (p :: ps)) s) ->
  handleRecord p s = Ok tt (handled p s) ->
  Conc.fits (handled p s) ->
  inv_world fc st (handled p s) /\
  inv_pc (Conc.mkConf (Conc.WRun ps) (handled p s)).
Proof.
  intros (Hset & (fc' & Hfc & Hfb & Hfcl) & Hq & Hfit & Hch & Hwk & Ho1 & Ho2 & Ho3)
         [Hnf Hns] Hok Hfit'.
  unfold inv_pc in *. cbn [Conc.pc Conc.world] in *.
  destruct (events_quiet (settings (wr s)) (hp s) p)
    as (Qr & Qf & Qs & Qc & Qret & Qn).
  assert (Hfw : forwarding s = true).
  { unfold forwarding, chan_open. rewrite Hset, Hfc, Hfcl, Hnf. reflexivity. }
  assert (Hps : persists (hp s p) = true -> storeChan (wr s) <> None).
  { intros Hp Hn. rewrite (handleRecord_parked p s Hfw Hn Hp) in Hok.
    discriminate. }
  split; [|split].
  - unfold inv_world. cbn [handled wr tr settings fwdChan storeChan store wg worker].
    rewrite !existsb_app, Qf, Qs, !orb_false_r.
    rewrite stored_of_app, recv_of_app, fwd_of_app, closes_of_app.
    rewrite stored_of_record, fwd_of_record, Qr, Qn, app_nil_r, Nat.add_0_r.
    split; [exact Hset|]. split.
    { rewrite Hfc. destruct (forwards (settings (wr s)) (hp s p)); cbn.
      - eexists. split; [reflexivity|]. cbn. rewrite Hfb, <- app_assoc.
        split; [reflexivity|exact Hfcl].
      - eexists. split; [reflexivity|]. rewrite app_nil_r.
        split; assumption. }
    split.
    { rewrite Hq. destruct (persists (hp s p)) eqn:Hp; cbn.
      - destruct (storeChan (wr s)) as [sc|]; [|now destruct (Hps eq_refl)].
        cbn. now rewrite <- app_assoc.
      - now rewrite app_nil_r. }
    split; [exact Hfit'|]. split.
    { destruct (storeChan (wr s)) as [sc|];
        destruct (persists (hp s p)); cbn; exact Hch. }
    split.
    { destruct (worker s); try exact Hwk.
      destruct Hwk as (_ & _ & _ & Hx). congruence. }
    split; [now apply precedes_app_quiet|].
    split; [now apply precedes_app_quiet|].
    intros Hn. apply precedes_app_quiet; [|assumption].
    apply Ho3. intros Hc. apply Hn. rewrite Hc.
    destruct (persists (hp s p)); reflexivity.
  - cbn [handled tr]. rewrite existsb_app, Qf, Hnf. reflexivity.
  - cbn [handled tr]. rewrite existsb_app, Qs, Hns. reflexivity.
Qed.

Lemma inv_closing fc st s :
  inv_world fc st s ->
  inv_pc (Conc.mkConf (Conc.WRun []) s) ->
  inv_world fc st (closing s) /\
  inv_pc (Conc.mkConf Conc.WWait (closing s)).
Proof.
  intros (Hset & (fc' & Hfc & Hfb & Hfcl) & Hq & Hfit & Hch & Hwk & Ho1 & Ho2 & Ho3)
         [Hnf Hns].
  unfold inv_pc in *. cbn [Conc.pc Conc.world] in *.
  assert (Hnc : closes_of (tr s) = 0).
  { destruct (worker s); try tauto. destruct Hwk as (_ & _ & _ & Hx). congruence. }
  assert (Hnsc : existsb is_storeclose (tr s) = false).
  { unfold closes_of in Hnc. clear - Hnc. induction (tr s) as [|e t IH];
      [reflexivity|]. cbn in *. destruct (is_storeclose e); [discriminate|].
    now apply IH. }
  split; [|split].
  - unfold inv_world.
    cbn [closing wr tr settings fwdChan storeChan store wg worker].
    split; [exact Hset|]. split.
    { rewrite Hfc. eexists. split; [reflexivity|]. cbn [chan_close buf closed].
      rewrite fwd_of_app, existsb_app. cbn [existsb is_closefwd].
      rewrite orb_true_r. split; [|reflexivity].
      rewrite Hfb. f_equal.
      destruct (storeChan (wr s)); cbn; now rewrite app_nil_r. }
    split.
    { rewrite stored_of_app, recv_of_app.
      destruct (storeChan (wr s)) as [sc|]; cbn in *;
        rewrite ?app_nil_r in *; exact Hq. }
    split.
    { unfold Conc.fits in *. cbn [closing wr storeChan].
      destruct (storeChan (wr s)) as [sc|]; cbn; exact Hfit. }
    split.
    { destruct (storeChan (wr s)) as [sc|]; cbn [option_map].
      - destruct Hch as (H1 & H2 & H3 & H4 & H5 & H6). cbn [chan_close closed cap].
        rewrite existsb_app. cbn. rewrite orb_true_r. repeat split; assumption.
      - rewrite existsb_app. cbn. rewrite orb_false_r. exact Hch. }
    split.
    { rewrite closes_of_app, existsb_app.
      assert (Hz : closes_of
                (EvCloseFwd ::
                 match storeChan (wr s) with
                 | Some _ => [EvCloseStore]
                 | None => []
                 end ++ [EvLog Info "writer: closed"]) = 0)
        by (destruct (storeChan (wr s)); reflexivity).
      rewrite Hz, Nat.add_0_r.
      destruct (worker s); try exact Hwk.
      destruct Hwk as (_ & _ & _ & Hx). congruence. }
    split.
    { change (tr s ++ EvCloseFwd ::
                match storeChan (wr s) with
                | Some _ => [EvCloseStore]
                | None => []
                end ++ [EvLog Info "writer: closed"])
        with (tr s ++ [EvCloseFwd] ++
                match storeChan (wr s) with
                | Some _ => [EvCloseStore]
                | None => []
                end ++ [EvLog Info "writer: closed"]).
      rewrite app_assoc. apply precedes_app_after.
      - apply precedes_app_quiet; [assumption|reflexivity].
      - rewrite existsb_app. cbn. now rewrite orb_true_r. }
    split.
    { apply precedes_app_quiet; [assumption|].
      destruct (storeChan (wr s)); reflexivity. }
    intros Hn. apply precedes_app_quiet.
    + apply Ho3. destruct (storeChan (wr s)); [discriminate|exact Hn].
    + destruct (storeChan (wr s)); reflexivity.
  - cbn [closing tr]. rewrite existsb_app. cbn. now rewrite orb_true_r.
  - cbn [closing tr wr storeChan]. intros Hn. rewrite existsb_app.
    destruct (storeChan (wr s)); [|now destruct Hn]. cbn.
    now rewrite orb_true_r.
Qed.

Lemma iterated_shape c sto p s :
  store (wr s) = Some sto ->
  exists sto' ws,
    iterated c sto p s =
      mkWorld
        (mkWriter (settings (wr s)) (fwdChan (wr s)) (Some (chan_pop c))
           (Some sto') (recordNum (wr s)) (wg (wr s)))
        (hp s) (worker s) (tr s ++ EvRecv p :: ws) /\
    fwd_of ws = [] /\ stored_of ws = [] /\ recv_of ws = [] /\
    existsb is_closefwd ws = false /\ existsb is_closestore ws = false /\
    existsb is_storeclose ws = false /\ existsb is_return ws = false /\
    closes_of ws = 0.
Proof.
  intros Hst. unfold iterated.
  destruct (proto_Marshal (hp s p)) as [out|e].
  - destruct (store_Write sto out) as [sto' [e|]].
    + exists sto', [EvWrite out false; EvLog Error "writer: error storing record"].
      split; [|repeat split]. unfold add_ev, set_wr, set_storeChan, set_store.
      cbn. rewrite <- ?app_assoc. reflexivity.
    + exists sto', [EvWrite out true].
      split; [|repeat split]. unfold add_ev, set_wr, set_storeChan, set_store.
      cbn. rewrite <- ?app_assoc. reflexivity.
  - exists sto, [EvLog Error "writer: error marshalling record"].
    split; [|repeat split]. unfold add_ev, set_wr, set_storeChan, set_store.
    cbn. rewrite Hst, <- ?app_assoc. reflexivity.
Qed.

Lemma inv_iterated fc st s c sto p q :
  inv_world fc st s ->
  storeChan (wr s) = Some c ->
  buf c = p :: q ->
  store (wr s) = Some sto ->
  worker s = Ranging ->
  let s' := iterated c sto p s in
  inv_world fc st s' /\
  existsb is_closefwd (tr s') = existsb is_closefwd (tr s) /\
  existsb is_closestore (tr s') = existsb is_closestore (tr s) /\
  (storeChan (wr s') <> None) /\
  wg (wr s') = wg (wr s).
Proof.
  intros (Hset & (fc' & Hfc & Hfb & Hfcl) & Hq & Hfit & Hch & Hwk & Ho1 & Ho2 & Ho3)
         Hc Hb Hsto Hrng s'.
  destruct (iterated_shape c p s Hsto)
    as (sto' & ws & Heq & Wf & Ws & Wr & Wcf & Wcs & Wsc & Wret & Wn).
  subst s'. rewrite Heq. clear Heq.
  rewrite Hc in *. rewrite Hrng in *. unfold Conc.fits in Hfit. rewrite Hc in Hfit.
  cbn [buf_of] in *. rewrite Hb in *.
  assert (Hcons : forall t, t ++ EvRecv p :: ws = (t ++ [EvRecv p]) ++ ws).
  { intros t. now rewrite <- app_assoc. }
  split; [|cbn [tr wr storeChan wg]; rewrite Hcons, !existsb_app, Wcf, Wcs;
           cbn; rewrite !orb_false_r; repeat split; discriminate].
  unfold inv_world. cbn [wr tr settings fwdChan storeChan store wg worker].
  rewrite Hcons, !existsb_app, Wcf, Wcs. cbn [existsb is_closefwd is_closestore].
  rewrite !orb_false_r.
  rewrite !stored_of_app, !recv_of_app, !fwd_of_app, !closes_of_app, Wf, Ws, Wr, Wn.
  cbn [stored_of recv_of fwd_of closes_of flat_map filter is_storeclose
       List.length app].
  rewrite !app_nil_r, !Nat.add_0_r.
  split; [exact Hset|]. split.
  { exists fc'. repeat split; assumption. }
  split.
  { rewrite Hq. cbn [chan_pop buf buf_of]. rewrite Hb. cbn [tl].
    now rewrite <- app_assoc. }
  split.
  { unfold Conc.fits. cbn [wr storeChan chan_pop buf cap]. rewrite Hb.
    cbn [tl]. cbn [List.length] in Hfit. lia. }
  split.
  { destruct Hch as (H1 & H2 & H3 & H4 & H5 & H6). cbn [chan_pop closed cap].
    repeat split; try assumption. discriminate. }
  split; [exact Hwk|].
  split; [apply precedes_app_quiet; [apply precedes_app_quiet|]; easy|].
  split; [apply precedes_app_quiet; [apply precedes_app_quiet|]; easy|].
  intros _. apply precedes_app_quiet; [apply precedes_app_quiet|]; try easy.
  apply Ho3. discriminate.
Qed.

Lemma inv_exited fc st s c sto n :
  inv_world fc st s ->
  storeChan (wr s) = Some c ->
  buf c = [] ->
  closed c = true ->
  store (wr s) = Some sto ->
  worker s = Ranging ->
  wg (wr s) = S n ->
  let s' := exited sto n s in
  inv_world fc st s' /\
  existsb is_closefwd (tr s') = existsb is_closefwd (tr s) /\
  existsb is_closestore (tr s') = existsb is_closestore (tr s) /\
  (storeChan (wr s') <> None) /\
  wg (wr s') = 0.
Proof.
  intros (Hset & (fc' & Hfc & Hfb & Hfcl) & Hq & Hfit & Hch & Hwk & Ho1 & Ho2 & Ho3)
         Hc Hb Hcl Hsto Hrng Hg s'.
  subst s'. unfold exited.
  rewrite Hc in *. rewrite Hrng in *. unfold Conc.fits in Hfit. rewrite Hc in Hfit.
  cbn [buf_of] in *. rewrite Hb in *.
  destruct Hwk as [Hw1 Hw0]. rewrite Hg in Hw1. inversion Hw1. subst n.
  destruct Hch as (H1 & H2 & H3 & H4 & H5 & H6).
  assert (Hcs : existsb is_closestore (tr s) = true) by congruence.
  set (evs := match snd (store_Close sto) with
              | Some _ =>
                  [EvStoreClose false;
                   EvLog Error "writer: error closing store"; EvDone]
              | None => [EvStoreClose true; EvDone]
              end).
  assert (Hev : fwd_of evs = [] /\ stored_of evs = [] /\ recv_of evs = [] /\
                existsb is_closefwd evs = false /\
                existsb is_closestore evs = false /\
                existsb is_return evs = false /\ closes_of evs = 1).
  { subst evs. destruct (snd (store_Close sto)); repeat split. }
  destruct Hev as (Wf & Ws & Wr & Wcf & Wcs & Wret & Wn).
  split; [|cbn [tr wr storeChan wg]; rewrite !existsb_app, Wcf, Wcs;
           rewrite !orb_false_r; repeat split; discriminate].
  unfold inv_world. cbn [wr tr settings fwdChan storeChan store wg worker].
  rewrite ?Hc. rewrite !existsb_app, Wcf, Wcs, !orb_false_r.
  rewrite !stored_of_app, !recv_of_app, !fwd_of_app, !closes_of_app, Wf, Ws, Wr, Wn.
  rewrite !app_nil_r, Hw0. cbn [buf_of]. rewrite Hb.
  split; [exact Hset|]. split.
  { exists fc'. repeat split; assumption. }
  split; [exact Hq|].
  split; [unfold Conc.fits; cbn [wr storeChan]; rewrite ?Hc, ?Hb; exact Hfit|].
  split; [repeat split; try assumption; discriminate|].
  split; [repeat split; assumption|].
  split; [now apply precedes_app_quiet|].
  split; [now apply precedes_app_after|].
  intros _. apply precedes_app_quiet; [|assumption].
  apply Ho3. discriminate.
Qed.

Lemma inv_returned fc st s :
  inv_world fc st s ->
  inv_pc (Conc.mkConf Conc.WWait s) ->
  wg (wr s) = 0 ->
  inv_world fc st (add_ev EvReturn s) /\
  inv_pc (Conc.mkConf Conc.WDone (add_ev EvReturn s)).
Proof.
  intros (Hset & (fc' & Hfc & Hfb & Hfcl) & Hq & Hfit & Hch & Hwk & Ho1 & Ho2 & Ho3)
         [Hcf Hcs] Hg.
  unfold inv_pc in *. cbn [Conc.pc Conc.world add_ev wr tr] in *.
  split.
  - unfold inv_world. cbn [add_ev wr tr settings fwdChan storeChan store wg worker].
    rewrite !existsb_app, !stored_of_app, !recv_of_app, !fwd_of_app, !closes_of_app.
    cbn [existsb is_closefwd is_closestore stored_of recv_of fwd_of closes_of
         flat_map filter is_storeclose List.length].
    rewrite !app_nil_r, !orb_false_r, !Nat.add_0_r.
    split; [exact Hset|]. split.
    { exists fc'. repeat split; assumption. }
    split; [exact Hq|]. split; [exact Hfit|]. split; [exact Hch|].
    split; [exact Hwk|].
    split; [now apply precedes_app_quiet|].
    split; [now apply precedes_app_quiet|].
    intros Hn. apply precedes_app_after; [now apply Ho3|].
    apply closes_of_exists.
    destruct (storeChan (wr s)) as [sc|]; [|now destruct Hn].
    destruct Hch as (_ & _ & _ & Hns & _ & _).
    destruct (worker s); [now destruct Hns| |tauto].
    destruct Hwk as [Hw _]. congruence.
  - rewrite !existsb_app. cbn. rewrite !orb_false_r, orb_true_r.
    repeat split; assumption.
Qed.

Lemma startBlock_eq s st :
  settings (wr s) = Some st ->
  Conc.startBlock s = startStore (add_ev (EvLog Info "writer: started") s).
Proof.
  intros H. unfold Conc.startBlock, settings_RunId, logger_Info, bind, getW,
    emit, ret. now rewrite H.
Qed.

Lemma startBlock_nil_settings s :
  settings (wr s) = None -> Conc.startBlock s = Panicked s.
Proof.
  intros H. unfold Conc.startBlock, settings_RunId, bind, getW, panic.
  now rewrite H.
Qed.

Lemma opening_open_result s st :
  settings (wr s) = Some st -> opening s = open_result st.
Proof.
  intros H. unfold opening, open_result, sync_file, GetSyncFile. now rewrite H.
Qed.

(** The three ways [Do] can leave its start-up. *)
Lemma startBlock_cases s st :
  settings (wr s) = Some st ->
  let s1 := add_ev (EvLog Info "writer: started") s in
  (GetValue (XSync st) = true /\ Conc.startBlock s = Ok tt s1) \/
  (GetValue (XSync st) = false /\ snd (open_result st) = None /\
   Conc.startBlock s = Ok tt (started s1)) \/
  (GetValue (XSync st) = false /\ snd (open_result st) <> None /\
   Conc.startBlock s = Panicked (unopened s1)).
Proof.
  intros H s1. rewrite (startBlock_eq s H).
  assert (H1 : settings (wr s1) = Some st) by exact H.
  assert (Hx : GetValue (GetXSync (settings (wr s1))) = GetValue (XSync st))
    by now rewrite H1.
  pose proof (opening_open_result s1 H1) as Ho.
  destruct (GetValue (XSync st)) eqn:Hs.
  - left. split; [reflexivity|]. now apply startStore_sync.
  - right. destruct (snd (open_result st)) as [e|] eqn:He.
    + right. repeat split; [discriminate|].
      apply startStore_unopened with e; [assumption|]. now rewrite Ho.
    + left. repeat split. apply startStore_started; [assumption|].
      now rewrite Ho.
Qed.

Lemma inv_start fc st h ps s' :
  closed fc = false ->
  Conc.startBlock (initWorld [WithWriterFwdChannel fc; WithWriterSettings st] h)
    = Ok tt s' ->
  inv_world fc st s' /\ inv_pc (Conc.mkConf (Conc.WRun ps) s').
Proof.
  intros Hcl Hs.
  set (s0 := initWorld [WithWriterFwdChannel fc; WithWriterSettings st] h) in *.
  assert (H0 : settings (wr s0) = Some st) by reflexivity.
  destruct (startBlock_cases s0 H0) as [[Hx He]|[(Hx & Ho & He)|(Hx & Ho & He)]];
    rewrite He in Hs; inversion Hs; subst s'; clear Hs He.
  - subst s0. split; [|split; reflexivity].
    unfold inv_world. cbn.
    split; [reflexivity|].
    split; [exists fc; repeat split; now rewrite ?app_nil_r|].
    repeat split; try assumption; try reflexivity;
      try (intros Hn; now destruct Hn);
      now apply precedes_quiet.
  - subst s0. split; [|split; reflexivity].
    unfold inv_world. cbn.
    split; [reflexivity|].
    split; [exists fc; repeat split; now rewrite ?app_nil_r|].
    repeat split; try assumption; try reflexivity; try discriminate;
      try lia; try (intros _); now apply precedes_quiet.
Qed.

Lemma inv_forwarding fc st s ps :
  inv_world fc st s ->
  inv_pc (Conc.mkConf (Conc.WRun ps) s) ->
  forwarding s = true /\
  (storeChan (wr s) = None \/ chan_open (storeChan (wr s)) = true).
Proof.
  intros (Hset & (fc' & Hfc & Hfb & Hfcl) & Hq & Hfit & Hch & _) [Hnf Hns].
  cbn [Conc.pc Conc.world] in *. split.
  - unfold forwarding, chan_open. now rewrite Hset, Hfc, Hfcl, Hnf.
  - destruct (storeChan (wr s)) as [sc|]; [right|now left].
    destruct Hch as (H1 & _). cbn. now rewrite H1, Hns.
Qed.

Lemma Reraise_Panicked_inv A (m : M A) s s' :
  logger_Reraise m s = Panicked s' ->
  exists s1, m s = Panicked s1 /\ s' = add_ev (EvLog Fatal "panic") s1.
Proof.
  unfold logger_Reraise. destruct (m s) as [a s1|s1|s1]; try discriminate.
  intros H. inversion H. now exists s1.
Qed.

Theorem Inv_step fc st h ps c c' :
  closed fc = false ->
  Inv fc st h ps c -> Conc.step c c' -> Inv fc st h ps c'.
Proof.
  intros Hcl HI Hstep.
  destruct Hstep as [ps0 s s' Hs|ps0 s s' Hs|p ps0 s s' Hs Hfit|p ps0 s s' Hs
                    |s s' Hs|s s' Hs|s Hg|k s s' Hk Hw Hs];
    unfold Inv in *; cbn [Conc.pc Conc.world] in *.
  - destruct HI as [-> ->]. eapply inv_start; eassumption.
  - destruct HI as [-> ->].
    apply Reraise_Panicked_inv in Hs. destruct Hs as (s1 & Hs & ->).
    set (s0 := initWorld [WithWriterFwdChannel fc; WithWriterSettings st] h) in *.
    assert (H0 : settings (wr s0) = Some st) by reflexivity.
    destruct (startBlock_cases s0 H0) as [[Hx He]|[(Hx & Ho & He)|(Hx & Ho & He)]];
      rewrite He in Hs; inversion Hs; subst s1.
    repeat split; assumption.
  - destruct HI as [Hw Hp].
    pose proof (handleRecord_Ok_inv p s Hs) as ->.
    now apply inv_handled with (p := p).
  - exfalso. destruct HI as [Hw Hp].
    destruct (inv_forwarding Hw Hp) as [Hf Hsc].
    apply Reraise_Panicked_inv in Hs. destruct Hs as (s1 & Hs & _).
    destruct (persists (hp s p)) eqn:Hper.
    + destruct Hsc as [Hn|Ho].
      * rewrite (handleRecord_parked p s Hf Hn Hper) in Hs. discriminate.
      * rewrite (handleRecord_handled p s Hf (fun _ => Ho)) in Hs. discriminate.
    + rewrite (handleRecord_handled p s Hf) in Hs; [discriminate|].
      rewrite Hper. discriminate.
  - destruct HI as [Hw Hp].
    pose proof (Close_Ok_inv s Hs) as ->.
    now apply inv_closing.
  - exfalso. destruct HI as [Hw Hp].
    destruct (inv_forwarding Hw Hp) as [Hf Hsc].
    apply Reraise_Panicked_inv in Hs. destruct Hs as (s1 & Hs & _).
    rewrite (Close_closing s Hf Hsc) in Hs. discriminate.
  - destruct HI as [Hw Hp]. now apply inv_returned.
  - destruct k as [ps0|ps0| | |]; cbn [Conc.pc Conc.world] in *.
    + destruct HI as [_ ->]. discriminate.
    + destruct HI as [Hiw Hp].
      pose proof Hiw as (_ & _ & _ & _ & Hch & Hwk & _).
      rewrite Hw in Hch, Hwk.
      destruct (storeChan (wr s)) as [sc|] eqn:Hsc; [|now destruct Hch].
      destruct Hch as (H1 & H2 & _).
      destruct (store (wr s)) as [sto|] eqn:Hsto; [|now destruct H2].
      destruct (workerStep_Ok_inv s Hsto Hs)
        as [(c0 & p & q & Hc & Hb & ->)|(c0 & n & Hc & Hb & Hcl0 & Hg & ->)].
      * destruct (inv_iterated Hiw Hc Hb Hsto Hw) as (Ha & Hb1 & Hb2 & _).
        split; [exact Ha|]. unfold inv_pc in *. cbn [Conc.pc Conc.world] in *.
        now rewrite Hb1, Hb2.
      * destruct (inv_exited Hiw Hc Hb Hcl0 Hsto Hw Hg) as (Ha & Hb1 & Hb2 & _).
        split; [exact Ha|]. unfold inv_pc in *. cbn [Conc.pc Conc.world] in *.
        now rewrite Hb1, Hb2.
    + destruct HI as [Hiw Hp].
      pose proof Hiw as (_ & _ & _ & _ & Hch & Hwk & _).
      rewrite Hw in Hch, Hwk.
      destruct (storeChan (wr s)) as [sc|] eqn:Hsc; [|now destruct Hch].
      destruct Hch as (H1 & H2 & _).
      destruct (store (wr s)) as [sto|] eqn:Hsto; [|now destruct H2].
      destruct (workerStep_Ok_inv s Hsto Hs)
        as [(c0 & p & q & Hc & Hb & ->)|(c0 & n & Hc & Hb & Hcl0 & Hg & ->)].
      * destruct (inv_iterated Hiw Hc Hb Hsto Hw) as (Ha & Hb1 & Hb2 & Hb3 & _).
        split; [exact Ha|]. unfold inv_pc in *. cbn [Conc.pc Conc.world] in *.
        rewrite Hb1, Hb2. destruct Hp as [Hp1 Hp2]. split; [exact Hp1|].
        intros _. apply Hp2. rewrite Hsc. discriminate.
      * destruct (inv_exited Hiw Hc Hb Hcl0 Hsto Hw Hg) as (Ha & Hb1 & Hb2 & Hb3 & _).
        split; [exact Ha|]. unfold inv_pc in *. cbn [Conc.pc Conc.world] in *.
        rewrite Hb1, Hb2. destruct Hp as [Hp1 Hp2]. split; [exact Hp1|].
        intros _. apply Hp2. rewrite Hsc. discriminate.
    + exfalso. destruct HI as [Hiw Hp].
      destruct Hiw as (_ & _ & _ & _ & _ & Hwk & _). rewrite Hw in Hwk.
      destruct Hp as (_ & _ & Hg & _). destruct Hwk as [Hwk _].
      cbn [Conc.world wr] in Hg. rewrite Hg in Hwk. discriminate.
    + now destruct Hk.
Qed.

Theorem Inv_steps fc st h ps c :
  closed fc = false ->
  Conc.steps (Conc.init [WithWriterFwdChannel fc; WithWriterSettings st] h ps) c ->
  Inv fc st h ps c.
Proof.
  intros Hcl Hs.
  remember (Conc.init [WithWriterFwdChannel fc; WithWriterSettings st] h ps) as c0.
  induction Hs as [c|c1 c2 c3 H12 IH H23].
  - subst c. unfold Inv, Conc.init. cbn. split; reflexivity.
  - apply Inv_step with c2; auto.
Qed.

(** ** Progress and termination of the interleaved runs *)

Lemma steps_step c1 c2 : Conc.step c1 c2 -> Conc.steps c1 c2.
Proof. intros H. eapply Conc.steps_snoc; [apply Conc.steps_refl|exact H]. Qed.

Lemma steps_trans c1 c2 c3 :
  Conc.steps c1 c2 -> Conc.steps c2 c3 -> Conc.steps c1 c3.
Proof.
  intros H12 H23. induction H23 as [c|c2 c3 c4 H23 IH H34]; [exact H12|].
  eapply Conc.steps_snoc; [apply IH; exact H12|exact H34].
Qed.

Lemma progress fc st h ps c :
  closed fc = false ->
  Inv fc st h ps c ->
  GetValue (XSync st) = false ->
  Conc.pc c <> Conc.WDone -> Conc.pc c <> Conc.WPanic ->
  exists c', Conc.step c c'.
Proof.
  intros Hcl HI Hx Hnd Hnp. destruct c as [k s].
  unfold Inv in HI. cbn [Conc.pc Conc.world] in *.
  destruct k as [ps0|ps0| | |]; try congruence.
  - destruct HI as [-> ->].
    set (s0 := initWorld [WithWriterFwdChannel fc; WithWriterSettings st] h).
    assert (H0 : settings (wr s0) = Some st) by reflexivity.
    destruct (startBlock_cases s0 H0) as [[Hx' He]|[(_ & Ho & He)|(_ & Ho & He)]].
    + congruence.
    + eexists. apply Conc.step_start. exact He.
    + eexists. apply Conc.step_start_panic. unfold logger_Reraise.
      rewrite He. reflexivity.
  - destruct HI as [Hw Hp].
    destruct (inv_forwarding Hw Hp) as [Hf Hsc].
    destruct ps0 as [|p ps0].
    + eexists. apply Conc.step_close. now apply Close_closing.
    + pose proof Hw as (_ & _ & _ & Hfit & Hch & Hwk & _).
      destruct (storeChan (wr s)) as [sc|] eqn:Hc;
        [|destruct Hch as (_ & _ & Hch); congruence].
      destruct Hsc as [Hsc|Hsc]; [discriminate|].
      assert (Hok : handleRecord p s = Ok tt (handled p s)).
      { apply handleRecord_handled; [assumption|]. intros _. now rewrite Hc. }
      destruct (persists (hp s p)) eqn:Hper.
      * destruct (Nat.ltb_spec (List.length (buf sc)) (Nat.max 1 (cap sc)))
          as [Hlt|Hge].
        -- eexists. apply Conc.step_handle; [exact Hok|].
           unfold Conc.fits. cbn [handled wr storeChan]. rewrite Hc, Hper.
           cbn [push_if option_map chan_push buf cap].
           rewrite length_app. cbn [List.length]. lia.
        -- destruct Hch as (H1 & H2 & H3 & H4 & _).
           destruct (buf sc) as [|q qs] eqn:Hb;
             [cbn [List.length] in Hge; lia|].
           destruct (store (wr s)) as [sto|] eqn:Hsto; [|now destruct H2].
           destruct (worker s) eqn:Hwo.
           ++ now destruct H4.
           ++ eexists. apply Conc.step_worker with (k := Conc.WRun (p :: ps0));
                [discriminate|exact Hwo|].
              eapply workerStep_iterated; eassumption.
           ++ destruct Hwk as (_ & _ & Hwk & _).
              cbn in Hwk. congruence.
      * eexists. apply Conc.step_handle; [exact Hok|].
        unfold Conc.fits in *. cbn [handled wr storeChan]. rewrite Hc in *.
        rewrite Hper. exact Hfit.
  - destruct HI as [Hw Hp].
    destruct (wg (wr s)) as [|n] eqn:Hg.
    + eexists. apply Conc.step_wait. exact Hg.
    + pose proof Hw as (_ & _ & _ & Hfit & Hch & Hwk & _).
      destruct Hp as [_ Hp]. cbn [Conc.pc Conc.world] in Hp.
      destruct (storeChan (wr s)) as [sc|] eqn:Hc;
        [|destruct Hch as (_ & _ & Hch); congruence].
      destruct Hch as (H1 & H2 & H3 & H4 & _).
      destruct (store (wr s)) as [sto|] eqn:Hsto; [|now destruct H2].
      destruct (worker s) eqn:Hwo; try (destruct Hwk; congruence).
      destruct (buf sc) as [|q qs] eqn:Hb.
      * eexists. apply Conc.step_worker with (k := Conc.WWait);
          [discriminate|exact Hwo|].
        eapply workerStep_exited; try eassumption.
        rewrite H1. apply Hp. discriminate.
      * eexists. apply Conc.step_worker with (k := Conc.WWait);
          [discriminate|exact Hwo|].
        eapply workerStep_iterated; eassumption.
Qed.

Lemma startBlock_Ok_inv s s' :
  Conc.startBlock s = Ok tt s' ->
  s' = add_ev (EvLog Info "writer: started") s \/
  s' = started (add_ev (EvLog Info "writer: started") s).
Proof.
  intros H. destruct (settings (wr s)) as [st|] eqn:Hs.
  - destruct (startBlock_cases s Hs) as [[_ He]|[(_ & _ & He)|(_ & _ & He)]];
      rewrite He in H; inversion H; auto.
  - rewrite (startBlock_nil_settings s Hs) in H. discriminate.
Qed.

Lemma measure_step fc st h ps c c' :
  Inv fc st h ps c -> Conc.step c c' -> Conc.measure c' < Conc.measure c.
Proof.
  intros HI Hstep.
  destruct Hstep as [ps0 s s' Hs|ps0 s s' Hs|p ps0 s s' Hs Hfit|p ps0 s s' Hs
                    |s s' Hs|s s' Hs|s Hg|k s s' Hk Hw Hs];
    unfold Conc.measure; cbn [Conc.pc Conc.world].
  - destruct (startBlock_Ok_inv s Hs) as [->| ->]; cbn.
    + lia.
    + destruct (storeChan (wr s)), (worker s); lia.
  - lia.
  - pose proof (handleRecord_Ok_inv p s Hs) as ->.
    cbn [handled wr storeChan worker List.length].
    destruct (storeChan (wr s)) as [sc|], (persists (hp s p)); cbn;
      rewrite ?length_app; cbn; lia.
  - lia.
  - pose proof (Close_Ok_inv s Hs) as ->.
    cbn [closing wr storeChan worker List.length].
    destruct (storeChan (wr s)) as [sc|]; cbn; lia.
  - lia.
  - cbn. lia.
  - assert (Hst : exists sto, store (wr s) = Some sto /\
                  inv_world fc st s).
    { unfold Inv in HI. cbn [Conc.pc Conc.world] in HI.
      destruct k as [ps0|ps0| | |].
      - destruct HI as [_ ->]. discriminate.
      - destruct HI as [Hiw _]. pose proof Hiw as (_ & _ & _ & _ & Hch & _).
        rewrite Hw in Hch.
        destruct (storeChan (wr s)); [|now destruct Hch].
        destruct Hch as (_ & H2 & _).
        destruct (store (wr s)) as [sto|]; [|now destruct H2]. now exists sto.
      - destruct HI as [Hiw _]. pose proof Hiw as (_ & _ & _ & _ & Hch & _).
        rewrite Hw in Hch.
        destruct (storeChan (wr s)); [|now destruct Hch].
        destruct Hch as (_ & H2 & _).
        destruct (store (wr s)) as [sto|]; [|now destruct H2]. now exists sto.
      - destruct HI as [Hiw _]. pose proof Hiw as (_ & _ & _ & _ & Hch & _).
        rewrite Hw in Hch.
        destruct (storeChan (wr s)); [|now destruct Hch].
        destruct Hch as (_ & H2 & _).
        destruct (store (wr s)) as [sto|]; [|now destruct H2]. now exists sto.
      - now destruct Hk. }
    destruct Hst as (sto & Hsto & Hiw).
    destruct (workerStep_Ok_inv s Hsto Hs)
      as [(c0 & p & q & Hc & Hb & ->)|(c0 & n & Hc & Hb & Hcl0 & Hg & ->)].
    + destruct (iterated_shape c0 p s Hsto) as (sto' & ws & -> & _).
      cbn [wr storeChan worker chan_pop buf]. rewrite Hc, Hb, Hw. cbn.
      destruct k; try lia. now destruct Hk.
    + cbn [exited wr storeChan worker]. rewrite Hc, Hb, Hw. cbn.
      destruct k; try lia. now destruct Hk.
Qed.

Lemma run_to_end fc st h ps :
  closed fc = false ->
  GetValue (XSync st) = false ->
  forall n c,
    Conc.measure c < n ->
    Inv fc st h ps c ->
    exists c', Conc.steps c c' /\
               (Conc.pc c' = Conc.WDone \/ Conc.pc c' = Conc.WPanic).
Proof.
  intros Hcl Hx n. induction n as [|n IH]; intros c Hm HI; [lia|].
  destruct (Conc.pc c) eqn:Hpc.
  1-3: destruct (@progress fc st h ps c Hcl HI Hx) as [c1 H1];
       try congruence;
       destruct (IH c1) as (c' & Hs & He);
       [pose proof (@measure_step fc st h ps c c1 HI H1); lia
       |eapply Inv_step; eassumption
       |exists c'; split; [|exact He];
        eapply steps_trans; [apply steps_step; exact H1|exact Hs]].
  - exists c. split; [apply Conc.steps_refl|now left].
  - exists c. split; [apply Conc.steps_refl|now right].
Qed.

(** ** The sequential reading of [Do] *)

Lemma iter_all_shape n :
  forall s c sto,
    storeChan (wr s) = Some c ->
    List.length (buf c) = n ->
    store (wr s) = Some sto ->
    exists sto' ws,
      iter_all n s =
        mkWorld
          (mkWriter (settings (wr s)) (fwdChan (wr s))
             (Some (mkChan (cap c) [] (closed c)))
             (Some sto') (recordNum (wr s)) (wg (wr s)))
          (hp s) (worker s) (tr s ++ ws) /\
      fwd_of ws = [] /\ stored_of ws = [] /\ recv_of ws = buf c /\
      existsb is_closefwd ws = false /\ existsb is_closestore ws = false /\
      existsb is_return ws = false /\ closes_of ws = 0.
Proof.
  induction n as [|n IH]; intros s c sto Hc Hn Hsto.
  - exists sto, []. destruct c as [cp bf cl]. cbn in Hn.
    destruct bf; [|discriminate]. cbn [iter_all]. rewrite app_nil_r.
    split; [|repeat split].
    destruct s as [[stg fc sc sto0 rn g] h k t]. cbn in *. now subst.
  - destruct (buf c) as [|p q] eqn:Hb; [discriminate|].
    cbn [iter_all].
    assert (Hi : iter1 s = iterated c sto p s).
    { unfold iter1. now rewrite Hc, Hsto, Hb. }
    rewrite Hi.
    destruct (iterated_shape c p s Hsto)
      as (sto1 & ws1 & Heq & Wf & Ws & Wr & Wcf & Wcs & Wsc & Wret & Wn).
    rewrite Heq.
    assert (Hlen : List.length (buf (chan_pop c)) = n).
    { cbn. rewrite Hb. cbn. cbn in Hn. lia. }
    match goal with
    | |- context [iter_all n ?s1] =>
        destruct (IH s1 (chan_pop c) sto1 eq_refl Hlen eq_refl)
          as (sto' & ws & Heq2 & Vf & Vs & Vr & Vcf & Vcs & Vret & Vn)
    end.
    rewrite Heq2. cbn [wr hp tr worker settings fwdChan recordNum wg
                       chan_pop cap closed].
    exists sto', (EvRecv p :: ws1 ++ ws).
    split; [now rewrite <- app_assoc|].
    change (EvRecv p :: ws1 ++ ws) with ([EvRecv p] ++ ws1 ++ ws).
    rewrite !fwd_of_app, !stored_of_app, !recv_of_app, !closes_of_app,
      !existsb_app.
    rewrite Wf, Ws, Wr, Wcf, Wcs, Wret, Wn, Vf, Vs, Vr, Vcf, Vcs, Vret, Vn.
    cbn [chan_pop buf]. rewrite Hb. repeat split.
Qed.

(** The world in which [Do] returns: the Writer has started the store,
    handled the records and closed the channels; the worker has then
    received the [n] queued records, closed the store and signalled. *)
Lemma wg_Wait_drains s c sto :
  storeChan (wr s) = Some c ->
  closed c = true ->
  store (wr s) = Some sto ->
  wg (wr s) = 1 ->
  worker s = Ranging ->
  exists sto' ws,
    wg_Wait s =
      Ok tt
        (mkWorld
           (mkWriter (settings (wr s)) (fwdChan (wr s))
              (Some (mkChan (cap c) [] true))
              (Some sto') (recordNum (wr s)) 0)
           (hp s) Exited (tr s ++ ws)) /\
    fwd_of ws = [] /\ stored_of ws = [] /\ recv_of ws = buf c /\
    existsb is_closefwd ws = false /\ existsb is_closestore ws = false /\
    existsb is_return ws = false /\ closes_of ws = 1.
Proof.
  intros Hc Hcl Hsto Hg Hw.
  destruct (@iter_all_shape (List.length (buf c)) s c sto Hc eq_refl Hsto)
    as (sto1 & ws & Heq & Wf & Ws & Wr & Wcf & Wcs & Wret & Wn).
  unfold wg_Wait. rewrite Hg, Hw. unfold workerBody, bind, getW.
  rewrite Hc.
  rewrite (@workerRange_iter_all (List.length (buf c)) s c Hc eq_refl)
    by congruence.
  rewrite Heq, Hcl, Hg.
  set (evs := match snd (store_Close sto1) with
              | Some _ =>
                  [EvStoreClose false;
                   EvLog Error "writer: error closing store"; EvDone]
              | None => [EvStoreClose true; EvDone]
              end).
  exists (fst (store_Close sto1)), (ws ++ evs).
  split.
  - unfold workerExit. unfold_M. cbn. subst evs.
    destruct (store_Close sto1) as [sto2 [e|]]; cbn;
      rewrite <- ?app_assoc; reflexivity.
  - rewrite fwd_of_app, stored_of_app, recv_of_app, closes_of_app, !existsb_app.
    rewrite Wf, Ws, Wr, Wcf, Wcs, Wret, Wn. subst evs.
    destruct (snd (store_Close sto1)); cbn; rewrite ?app_nil_r; repeat split.
Qed.

Lemma Do_eq ps s st :
  settings (wr s) = Some st ->
  Do ps s =
  logger_Reraise
    (fun s0 =>
       match Conc.startBlock s0 with
       | Ok _ s1 =>
           (forRange ps handleRecord ;; Close ;; wg_Wait ;; emit EvReturn) s1
       | Blocked s1 => Blocked s1
       | Panicked s1 => Panicked s1
       end) s.
Proof.
  intros H. unfold Do, logger_Reraise, Conc.startBlock.
  unfold bind at 1 9. unfold settings_RunId, bind, getW, ret. rewrite H.
  unfold logger_Info, emit.
  destruct (startStore (add_ev (EvLog Info "writer: started") s)); reflexivity.
Qed.

Lemma started_running s :
  forwarding s = true -> running (started s) = true.
Proof.
  unfold running, forwarding, started. cbn. intros H. now rewrite H.
Qed.

Lemma handled_all_frame ps s :
  store (wr (handled_all ps s)) = store (wr s) /\
  wg (wr (handled_all ps s)) = wg (wr s) /\
  worker (handled_all ps s) = worker s.
Proof.
  revert s. induction ps as [|p ps IH]; intros s; [repeat split|].
  rewrite handled_all_cons. destruct (IH (handled p s)) as (H1 & H2 & H3).
  rewrite H1, H2, H3. repeat split.
Qed.

(** [Do] returns when the store is set up and opens: everything that
    passes the forwarding rule is on the closed forwarding channel, and the
    worker has received the persisted records, in arrival order, before it
    closed the store, once. *)
Theorem Do_returns fc st h ps :
  closed fc = false ->
  GetValue (XSync st) = false ->
  snd (open_result st) = None ->
  exists s',
    Do ps (initWorld [WithWriterFwdChannel fc; WithWriterSettings st] h)
      = Ok tt s' /\
    (exists fc', fwdChan (wr s') = Some fc' /\ closed fc' = true /\
                 buf fc' = buf fc ++ forwarded (Some st) h ps) /\
    (exists sc, storeChan (wr s') = Some sc /\ closed sc = true /\ buf sc = []) /\
    hp s' = hp (handled_all ps
                  (started (add_ev (EvLog Info "writer: started")
                     (initWorld [WithWriterFwdChannel fc; WithWriterSettings st] h)))) /\
    fwd_of (tr s') = forwarded (Some st) h ps /\
    stored_of (tr s') = persisted h ps /\
    recv_of (tr s') = persisted h ps /\
    closes_of (tr s') = 1 /\
    wg (wr s') = 0 /\ worker s' = Exited.
Proof.
  intros Hcl Hx Ho.
  set (s0 := initWorld [WithWriterFwdChannel fc; WithWriterSettings st] h).
  set (s1 := add_ev (EvLog Info "writer: started") s0).
  assert (H0 : settings (wr s0) = Some st) by reflexivity.
  rewrite (Do_eq ps s0 H0).
  destruct (startBlock_cases s0 H0) as [[Hx' He]|[(_ & _ & He)|(_ & Ho' & He)]];
    try congruence.
  unfold logger_Reraise. rewrite He. fold s1.
  assert (Hf1 : forwarding s1 = true).
  { unfold forwarding, chan_open. cbn. now rewrite Hcl. }
  pose proof (started_running s1 Hf1) as Hrun.
  set (s2 := handled_all ps (started s1)).
  assert (Hrun2 : running s2 = true) by (subst s2; now rewrite handled_all_running).
  unfold bind at 1. rewrite (forRange_running ps (started s1) Hrun). fold s2.
  unfold bind at 1.
  rewrite (Close_closing s2 (running_forwarding s2 Hrun2)
             (or_intror (running_store_open s2 Hrun2))).
  destruct (handled_all_frame ps (started s1)) as (Fst & Fwg & Fwk). fold s2 in Fst, Fwg, Fwk.
  pose proof (handled_all_stored ps (started s1) (running_store_open _ Hrun)) as Hsb.
  pose proof (handled_all_fwd ps (started s1)) as Hfb.
  pose proof (handled_all_trace ps (started s1)) as Htr.
  fold s2 in Hsb, Hfb, Htr.
  cbn [started wr hp tr storeChan fwdChan settings buf_of make_chan buf app] in Hsb, Hfb, Htr.
  specialize (Hfb ltac:(unfold chan_open; cbn; now rewrite Hcl)).
  pose proof (running_store_open s2 Hrun2) as Hso.
  pose proof (running_forwarding s2 Hrun2) as Hfo.
  destruct (storeChan (wr s2)) as [sc|] eqn:Hsc; [|discriminate].
  unfold forwarding in Hfo. apply andb_prop in Hfo. destruct Hfo as [_ Hfo].
  destruct (fwdChan (wr s2)) as [fc2|] eqn:Hfc2; [|discriminate].
  cbn [buf_of] in Hsb, Hfb.
  destruct (@wg_Wait_drains (closing s2) (chan_close sc)
              (fst (opening s1)))
    as (sto' & ws & Hwait & Wf & Ws & Wr & Wcf & Wcs & Wret & Wn).
  { cbn. now rewrite Hsc. }
  { reflexivity. }
  { cbn. now rewrite Fst. }
  { cbn. now rewrite Fwg. }
  { cbn. now rewrite Fwk. }
  unfold bind at 1. rewrite Hwait. unfold emit.
  eexists. split; [reflexivity|].
  cbn [add_ev closing wr hp tr worker settings fwdChan storeChan wg].
  rewrite Hfc2, Hsc, Htr.
  rewrite !fwd_of_app, !stored_of_app, !recv_of_app, !closes_of_app.
  rewrite fwd_of_records, stored_of_records, Wf, Ws, Wr, Wn.
  cbn [option_map chan_close buf closed cap fwd_of stored_of recv_of closes_of
       flat_map filter is_storeclose app List.length].
  change (settings (wr s1)) with (Some st) in *.
  change (hp s1) with h in *.
  change (tr s1) with [EvLog Info "writer: started"] in *.
  change (buf_of (fwdChan (wr s1))) with (buf fc) in *.
  assert (Hnr : recv_of (flat_map (record_events (Some st) h) ps) = []).
  { clear. induction ps as [|p ps IH]; [reflexivity|].
    cbn [flat_map]. rewrite recv_of_app, IH.
    now destruct (events_quiet (Some st) h p) as (-> & _). }
  assert (Hnc : closes_of (flat_map (record_events (Some st) h) ps) = 0).
  { clear. induction ps as [|p ps IH]; [reflexivity|].
    cbn [flat_map]. rewrite closes_of_app, IH.
    now destruct (events_quiet (Some st) h p) as (_ & _ & _ & _ & _ & ->). }
  rewrite Hnr, Hnc, !app_nil_r. cbn.
  split; [exists (chan_close fc2); repeat split; exact Hfb|].
  split; [eexists; repeat split|].
  repeat split; try reflexivity.
  exact Hsb.
Qed.

(** C7.  When the store is to be set up and its [Open] fails, [Do] panics
    out of [startStore]: the fatal error is captured, no inbound record is
    looked at, nothing is forwarded or queued, no sequence number is given
    out, the worker is never launched.  In the interleaved runs the Writer
    is only ever before [startStore] or panicked; it never enters its
    loop. *)
Theorem open_failure_is_fatal fc st h ps e :
  closed fc = false ->
  GetValue (XSync st) = false ->
  snd (open_result st) = Some e ->
  let s0 := initWorld [WithWriterFwdChannel fc; WithWriterSettings st] h in
  Do ps s0 = Panicked (aborted s0) /\
  tr (aborted s0) =
    [EvLog Info "writer: started"; EvOpen false;
     EvLog Fatal "writer: error creating store"; EvLog Fatal "panic"] /\
  fwdChan (wr (aborted s0)) = Some fc /\
  buf_of (storeChan (wr (aborted s0))) = [] /\
  recordNum (wr (aborted s0)) = 0%Z /\
  hp (aborted s0) = h /\
  worker (aborted s0) = NotStarted /\
  forall c,
    Conc.steps (Conc.init [WithWriterFwdChannel fc; WithWriterSettings st] h ps) c ->
    (Conc.pc c = Conc.WStart ps /\ Conc.world c = s0) \/
    (Conc.pc c = Conc.WPanic /\ Conc.world c = aborted s0).
Proof.
  intros Hcl Hx Ho s0.
  assert (H0 : settings (wr s0) = Some st) by reflexivity.
  split; [|repeat split].
  - rewrite (Do_eq ps s0 H0).
    destruct (startBlock_cases s0 H0) as [[Hx' He]|[(_ & Ho' & He)|(_ & _ & He)]];
      try congruence.
    unfold logger_Reraise. rewrite He. reflexivity.
  - intros c Hs. pose proof (Inv_steps Hcl Hs) as HI. unfold Inv in HI.
    destruct (Conc.pc c) as [ps0|ps0| | |] eqn:Hpc.
    + left. destruct HI as [-> ->]. split; reflexivity.
    + exfalso. destruct HI as [(_ & _ & _ & _ & Hch & _) _].
      destruct (storeChan (wr (Conc.world c)));
        [destruct Hch as (_ & _ & _ & _ & _ & Hch)|destruct Hch as (_ & _ & Hch)];
        congruence.
    + exfalso. destruct HI as [(_ & _ & _ & _ & Hch & _) _].
      destruct (storeChan (wr (Conc.world c)));
        [destruct Hch as (_ & _ & _ & _ & _ & Hch)|destruct Hch as (_ & _ & Hch)];
        congruence.
    + exfalso. destruct HI as [(_ & _ & _ & _ & Hch & _) _].
      destruct (storeChan (wr (Conc.world c)));
        [destruct Hch as (_ & _ & _ & _ & _ & Hch)|destruct Hch as (_ & _ & Hch)];
        congruence.
    + right. destruct HI as (_ & _ & ->). split; reflexivity.
Qed.

Lemma handled_all_worker ps s : worker (handled_all ps s) = worker s.
Proof. now destruct (handled_all_frame ps s) as (_ & _ & ->). Qed.

Lemma steps_unpersisted pre rest s :
  forwarding s = true ->
  storeChan (wr s) = None ->
  persisted (hp s) pre = [] ->
  Conc.steps (Conc.mkConf (Conc.WRun (pre ++ rest)) s)
             (Conc.mkConf (Conc.WRun rest) (handled_all pre s)).
Proof.
  revert s. induction pre as [|p pre IH]; intros s Hf Hn Hp.
  - apply Conc.steps_refl.
  - apply persisted_nil_cons in Hp. destruct Hp as [Hp Hps].
    assert (Hsc : storeChan (wr (handled p s)) = None).
    { cbn [handled wr storeChan]. rewrite Hn, Hp. reflexivity. }
    eapply steps_trans.
    + apply steps_step. cbn [app]. apply Conc.step_handle.
      * apply handleRecord_handled; [assumption|]. rewrite Hp. discriminate.
      * unfold Conc.fits. now rewrite Hsc.
    + rewrite handled_all_cons. apply IH.
      * now rewrite handled_forwarding.
      * exact Hsc.
      * rewrite (persisted_ext (hp (handled p s)) (hp s)); [assumption|].
        intros q. apply handled_persists.
Qed.

(** C10.  With [x_sync] set, [startStore] returns at once: no store
    channel is made and no store is opened.  [handleRecord] still hands
    every data record to [storeRecord], so the first record that is to be
    persisted has the counter incremented and its [Num] written, and is
    then sent on the nil channel: [Do] is parked there for ever.  Nothing
    is queued, the forwarding channel is never closed and [Do] never
    returns; in the interleaved runs the state reached at that record has
    no step at all. *)
Theorem sync_run_parks_on_nil_channel fc st h pre p post :
  closed fc = false ->
  GetValue (XSync st) = true ->
  persisted h pre = [] ->
  persists (h p) = true ->
  let s0 := initWorld [WithWriterFwdChannel fc; WithWriterSettings st] h in
  let s1 := add_ev (EvLog Info "writer: started") s0 in
  startStore s1 = Ok tt s1 /\
  storeChan (wr s1) = None /\ store (wr s1) = None /\
  (exists s',
     Do (pre ++ p :: post) s0 = Blocked s' /\
     storeChan (wr s') = None /\
     recordNum (wr s') = 1%Z /\
     Num (hp s' p) = 1%Z /\
     stored_of (tr s') = [] /\
     existsb is_closefwd (tr s') = false /\
     existsb is_return (tr s') = false) /\
  (exists c,
     Conc.steps
       (Conc.init [WithWriterFwdChannel fc; WithWriterSettings st] h
          (pre ++ p :: post)) c /\
     Conc.pc c = Conc.WRun (p :: post) /\
     forall c', ~ Conc.step c c').
Proof.
  intros Hcl Hx Hpre Hp s0 s1.
  assert (H0 : settings (wr s0) = Some st) by reflexivity.
  assert (Hf1 : forwarding s1 = true).
  { unfold forwarding, chan_open. cbn. now rewrite Hcl. }
  assert (Hst : startStore s1 = Ok tt s1) by (apply startStore_sync; exact Hx).
  assert (Hsb : Conc.startBlock s0 = Ok tt s1).
  { rewrite (startBlock_eq s0 H0). exact Hst. }
  set (s2 := handled_all pre s1).
  destruct (handled_all_unpersisted pre s1 Hpre) as (U1 & U2 & U3).
  fold s2 in U1, U2, U3.
  assert (Hf2 : forwarding s2 = true)
    by (subst s2; now rewrite handled_all_forwarding).
  assert (Hp2 : persists (hp s2 p) = true) by (now rewrite U3).
  assert (Hn2 : storeChan (wr s2) = None) by (now rewrite U1).
  pose proof (handleRecord_parked p s2 Hf2 Hn2 Hp2) as Hpark.
  split; [exact Hst|]. split; [reflexivity|]. split; [reflexivity|].
  split.
  - exists (parked p s2). split.
    + rewrite (Do_eq _ s0 H0). unfold logger_Reraise. rewrite Hsb.
      unfold bind at 1. rewrite forRange_app.
      rewrite (forRange_unpersisted pre s1 Hf1 Hpre). fold s2.
      cbn [forRange]. unfold bind at 1. rewrite Hpark. reflexivity.
    + cbn [parked handled wr hp tr storeChan recordNum]. rewrite Hp2, Hn2, U2.
      rewrite upd_same. cbn [Num].
      subst s2. rewrite handled_all_trace.
      rewrite !stored_of_app, !existsb_app, stored_of_records.
      change (hp s1) with h. rewrite Hpre.
      assert (Hq : existsb is_closefwd
                     (flat_map (record_events (settings (wr s1)) h) pre) = false /\
                   existsb is_return
                     (flat_map (record_events (settings (wr s1)) h) pre) = false).
      { clear. induction pre as [|q pre [IH1 IH2]]; [split; reflexivity|].
        cbn [flat_map]. rewrite !existsb_app, IH1, IH2.
        destruct (events_quiet (settings (wr s1)) h q)
          as (_ & -> & _ & _ & -> & _). split; reflexivity. }
      destruct Hq as [-> ->].
      destruct (forwards (settings (wr (handled_all pre s1)))
                  (hp (handled_all pre s1) p)); repeat split.
  - exists (Conc.mkConf (Conc.WRun (p :: post)) s2). split; [|split].
    + eapply steps_trans.
      * apply steps_step. apply Conc.step_start. exact Hsb.
      * apply steps_unpersisted; [exact Hf1|reflexivity|exact Hpre].
    + reflexivity.
    + intros c' Hstep. inversion Hstep; subst.
      * congruence.
      * unfold logger_Reraise in *. rewrite Hpark in *. discriminate.
      * match goal with H : worker s2 = Ranging |- _ =>
          unfold s2 in H; rewrite handled_all_worker in H; discriminate H
        end.
Qed.

(** ** Records that fail *)

Lemma nolog_app t1 t2 : nolog (t1 ++ t2) = nolog t1 ++ nolog t2.
Proof. unfold nolog. apply filter_app. Qed.

Lemma handled_nil p s :
  is_nil (hp s p) = true ->
  wr (handled p s) = wr s /\ hp (handled p s) = hp s /\
  worker (handled p s) = worker s /\
  tr (handled p s) =
    tr s ++ [EvLog Debug "write: got a message"; EvLog Error "nil record type"].
Proof.
  intros H. unfold handled, record_events, forwards, persists, is_data, is_nil in *.
  destruct (RecordType (hp s p)) as [[|]|]; try discriminate.
  cbn. destruct s as [[stg fc sc sto rn g] h k t]. cbn. repeat split.
Qed.

Lemma handled_same_but_log p s1 s2 :
  same_but_log s1 s2 -> same_but_log (handled p s1) (handled p s2).
Proof.
  intros (Hw & Hh & Hk & Ht). unfold same_but_log, handled.
  cbn [wr hp worker tr]. rewrite Hw, Hh, Hk, !nolog_app, Ht. repeat split.
Qed.

Lemma handled_all_same_but_log ps s1 s2 :
  same_but_log s1 s2 -> same_but_log (handled_all ps s1) (handled_all ps s2).
Proof.
  revert s1 s2. induction ps as [|p ps IH]; intros s1 s2 H; [exact H|].
  rewrite !handled_all_cons. apply IH. now apply handled_same_but_log.
Qed.

(** ** The scenario *)

Lemma handled_all_untouched ps s q :
  ~ In q (persisted (hp s) ps) -> hp (handled_all ps s) q = hp s q.
Proof.
  revert s. induction ps as [|p ps IH]; intros s Hn; [reflexivity|].
  rewrite handled_all_cons.
  cbn [persisted filter] in Hn. fold (persisted (hp s) ps) in Hn.
  rewrite IH.
  - cbn [handled hp]. destruct (persists (hp s p)) eqn:Hp; [|reflexivity].
    apply upd_other. intros ->. apply Hn. now left.
  - rewrite (persisted_ext (hp (handled p s)) (hp s))
      by (intros x; apply handled_persists).
    intros Hi. apply Hn. destruct (persists (hp s p)); [now right|exact Hi].
Qed.

Lemma is_data_not_nil r : is_data r = true -> is_nil r = false.
Proof.
  unfold is_data, is_nil. destruct (RecordType r) as [[|]|]; congruence.
Qed.

Lemma is_request_not_data r :
  is_request r = true -> is_data r = false /\ is_nil r = false.
Proof.
  unfold is_request, is_data, is_nil.
  destruct (RecordType r) as [[|]|]; try discriminate. now split.
Qed.

(** C6, as the code has it.  Offline, with the store set up and open and a
    fresh forwarding channel, feed A (data), B (a request), C (data,
    local) and D (data, always_send), where only D has [always_send] set:
    [Do] returns, the forwarding channel has received D and nothing else
    (the request B is held back by the offline rule like A and C), the
    store channel has received A then D, which the worker has taken in that
    order, and A carries sequence number 1 and D sequence number 2. *)
Theorem offline_scenario fc st (h : heap) a b c d :
  closed fc = false -> buf fc = [] ->
  GetValue (XSync st) = false ->
  snd (open_result st) = None ->
  GetValue (XOffline st) = true ->
  is_data (h a) = true -> GetLocal (GetControl (h a)) = false ->
  GetAlwaysSend (GetControl (h a)) = false ->
  is_request (h b) = true -> GetAlwaysSend (GetControl (h b)) = false ->
  is_data (h c) = true -> GetLocal (GetControl (h c)) = true ->
  GetAlwaysSend (GetControl (h c)) = false ->
  is_data (h d) = true -> GetLocal (GetControl (h d)) = false ->
  GetAlwaysSend (GetControl (h d)) = true ->
  a <> d ->
  exists s',
    Do [a; b; c; d]
       (initWorld [WithWriterFwdChannel fc; WithWriterSettings st] h)
      = Ok tt s' /\
    (exists fc', fwdChan (wr s') = Some fc' /\ buf fc' = [d]) /\
    fwd_of (tr s') = [d] /\
    stored_of (tr s') = [a; d] /\
    recv_of (tr s') = [a; d] /\
    Num (hp s' a) = 1%Z /\
    Num (hp s' d) = 2%Z.
Proof.
  intros Hcl Hbuf Hx Ho Hoff Da La Aa Rb Ab Dc Lc Ac Dd Ld Ad Hne.
  destruct (@Do_returns fc st h [a; b; c; d] Hcl Hx Ho)
    as (s' & HDo & (fc' & Hfc & _ & Hfb) & _ & Hhp & Hfw & Hst & Hrv & _).
  destruct (is_request_not_data _ Rb) as [Db Nb].
  assert (Pa : persists (h a) = true) by (unfold persists; now rewrite Da, La).
  assert (Pb : persists (h b) = false) by (unfold persists; now rewrite Db).
  assert (Pc : persists (h c) = false) by (unfold persists; now rewrite Dc, Lc).
  assert (Pd : persists (h d) = true) by (unfold persists; now rewrite Dd, Ld).
  assert (Fa : forwards (Some st) (h a) = false).
  { unfold forwards. cbn. now rewrite Hoff, Aa, andb_false_r. }
  assert (Fb : forwards (Some st) (h b) = false).
  { unfold forwards. cbn. now rewrite Hoff, Ab, andb_false_r. }
  assert (Fc : forwards (Some st) (h c) = false).
  { unfold forwards. cbn. now rewrite Hoff, Ac, andb_false_r. }
  assert (Fd : forwards (Some st) (h d) = true).
  { unfold forwards. cbn. now rewrite Hoff, Ad, (is_data_not_nil _ Dd). }
  assert (Hper : persisted h [a; b; c; d] = [a; d]).
  { unfold persisted. cbn. now rewrite Pa, Pb, Pc, Pd. }
  assert (Hfwd : forwarded (Some st) h [a; b; c; d] = [d]).
  { unfold forwarded. cbn. now rewrite Fa, Fb, Fc, Fd. }
  rewrite Hper in *. rewrite Hfwd in *. rewrite Hbuf in Hfb.
  exists s'. split; [exact HDo|]. split; [exists fc'; now split|].
  split; [exact Hfw|]. split; [exact Hst|]. split; [exact Hrv|].
  rewrite Hhp.
  set (s1 := started
               (add_ev (EvLog Info "writer: started")
                  (initWorld [WithWriterFwdChannel fc; WithWriterSettings st] h))).
  assert (Hh1 : hp s1 = h) by reflexivity.
  assert (Hn1 : recordNum (wr s1) = 0%Z) by reflexivity.
  split.
  - change [a; b; c; d] with ([a] ++ [b; c; d]).
    rewrite handled_all_app. rewrite handled_all_untouched.
    + cbn [handled_all fold_left handled hp]. rewrite Hh1, Pa, upd_same.
      cbn [Num]. now rewrite Hn1.
    + cbn [handled_all fold_left].
      rewrite (persisted_ext (hp (handled a s1)) h)
        by (intros x; rewrite handled_persists; now rewrite Hh1).
      unfold persisted. cbn. rewrite Pb, Pc, Pd. cbn. intuition congruence.
  - change [a; b; c; d] with ([a; b; c] ++ [d]).
    rewrite handled_all_app.
    set (s3 := handled_all [a; b; c] s1).
    cbn [handled_all fold_left handled hp].
    assert (P3 : persists (hp s3 d) = true).
    { subst s3. rewrite handled_all_persists. now rewrite Hh1. }
    rewrite P3, upd_same. cbn [Num].
    subst s3. rewrite handled_all_recordNum by (now rewrite Hn1).
    rewrite Hn1, Hh1. unfold persisted. cbn. rewrite Pa, Pb, Pc. reflexivity.
Qed.

(** * Further properties of the Writer *)

(** ** Construction *)

Lemma fold_options os w :
  fold_left (fun w opt => opt w) (map apply_spec os) w =
  mkWriter (last_settings (settings w) os) (last_fwd (fwdChan w) os)
    (storeChan w) (store w) (recordNum w) (wg w).
Proof.
  revert w. induction os as [|o os IH]; intros w.
  - destruct w; reflexivity.
  - cbn [map fold_left]. rewrite IH. destruct o; reflexivity.
Qed.

Lemma NewWriter_eq os :
  NewWriter (map apply_spec os) =
  mkWriter (last_settings None os) (last_fwd None os) None None 0%Z 0.
Proof. unfold NewWriter. now rewrite fold_options. Qed.

(** X1.  [NewWriter] applies its options in order: the Writer it returns
    has the settings of the last [WithWriterSettings] and the channel of
    the last [WithWriterFwdChannel] in the list (nil when there is none),
    whatever else is in the list, and always starts with the counter at 0,
    no store channel, no store and an empty wait group. *)
Theorem NewWriter_options os :
  NewWriter (map apply_spec os) =
  mkWriter (last_settings None os) (last_fwd None os) None None 0%Z 0.
Proof. unfold NewWriter. now rewrite fold_options. Qed.

Lemma Do_nil_settings ps s :
  settings (wr s) = None -> Do ps s = Panicked (add_ev (EvLog Fatal "panic") s).
Proof.
  intros H. unfold Do, logger_Reraise.
  unfold bind at 1. unfold settings_RunId, bind, getW, panic. now rewrite H.
Qed.

(** X2.  A Writer built without [WithWriterSettings] cannot run: [Do]
    panics on its first statement, the read of [w.settings.RunId], before
    the store is set up; nothing is opened, forwarded or queued. *)
Theorem Do_without_settings os h ps :
  last_settings None os = None ->
  let s0 := initWorld (map apply_spec os) h in
  Do ps s0 = Panicked (add_ev (EvLog Fatal "panic") s0) /\
  tr (add_ev (EvLog Fatal "panic") s0) = [EvLog Fatal "panic"] /\
  storeChan (wr s0) = None /\ store (wr s0) = None.
Proof.
  intros Hn s0.
  assert (H0 : settings (wr s0) = None).
  { subst s0. unfold initWorld. cbn [wr]. rewrite NewWriter_eq. exact Hn. }
  split; [|split; [reflexivity|]].
  - now apply Do_nil_settings.
  - subst s0. unfold initWorld. cbn [wr]. rewrite NewWriter_eq. split; reflexivity.
Qed.

(** ** The loop over the inbound records *)

Lemma forRange_Ok_inv ps s s' :
  forRange ps handleRecord s = Ok tt s' -> s' = handled_all ps s.
Proof.
  revert s. induction ps as [|p ps IH]; intros s H.
  - cbn in H. unfold ret in H. now inversion H.
  - cbn [forRange] in H. unfold bind in H.
    destruct (handleRecord p s) as [[] s1|s1|s1] eqn:Hp; try discriminate.
    apply handleRecord_Ok_inv in Hp. subst s1.
    rewrite handled_all_cons. now apply IH.
Qed.

(** X3.  The forwarding channel receives, in arrival order and once each,
    exactly the inbound records that pass the forwarding rule: those with
    a payload variant set (requests included) for which [x_offline] is not
    set or [always_send] is. *)
Theorem forwarding_in_arrival_order (s : World) (ps : list loc) :
  running s = true ->
  exists s',
    forRange ps handleRecord s = Ok tt s' /\
    buf_of (fwdChan (wr s')) =
      buf_of (fwdChan (wr s)) ++
      filter (fun p =>
                negb (is_nil (hp s p)) &&
                negb (GetValue (GetXOffline (settings (wr s))) &&
                      negb (GetAlwaysSend (GetControl (hp s p))))) ps /\
    fwd_of (tr s') =
      fwd_of (tr s) ++
      filter (fun p =>
                negb (is_nil (hp s p)) &&
                negb (GetValue (GetXOffline (settings (wr s))) &&
                      negb (GetAlwaysSend (GetControl (hp s p))))) ps.
Proof.
  intros Hrun. exists (handled_all ps s).
  split; [now apply forRange_running|].
  pose proof (running_forwarding s Hrun) as Hf.
  unfold forwarding in Hf. apply andb_prop in Hf. destruct Hf as [_ Hf].
  split.
  - now rewrite handled_all_fwd.
  - rewrite handled_all_trace, fwd_of_app, fwd_of_records. reflexivity.
Qed.

(** X5.  A record object ends the loop with the number of its last
    persisted arrival: if [p] is persisted and does not arrive again, its
    [Num] is 1 + (count of records persisted before that arrival), also
    when [p] had arrived and been numbered before.  The store channel
    holds one pointer per persisted arrival, so every queue entry for [p]
    then shows that last number. *)
Theorem final_Num_is_last_assignment
    (s : World) (pre : list loc) (p : loc) (post : list loc) :
  running s = true ->
  recordNum (wr s) = 0%Z ->
  (Z.of_nat (List.length (pre ++ p :: post)) < 2 ^ 63)%Z ->
  persists (hp s p) = true ->
  ~ In p post ->
  exists s',
    forRange (pre ++ p :: post) handleRecord s = Ok tt s' /\
    Num (hp s' p) = (1 + Z.of_nat (List.length (persisted (hp s) pre)))%Z /\
    buf_of (storeChan (wr s')) =
      buf_of (storeChan (wr s)) ++ persisted (hp s) pre ++ p :: persisted (hp s) post.
Proof.
  intros Hrun H0 Hlen Hp Hnot.
  exists (handled_all (pre ++ p :: post) s).
  split; [now apply forRange_running|].
  pose proof (persisted_length (hp s) pre) as Hle.
  rewrite length_app in Hlen. cbn [List.length] in Hlen.
  split.
  - rewrite handled_all_app, handled_all_cons.
    set (s1 := handled_all pre s).
    assert (Hp1 : persists (hp s1 p) = true).
    { subst s1. now rewrite handled_all_persists. }
    assert (Hn1 : recordNum (wr s1) = Z.of_nat (List.length (persisted (hp s) pre))).
    { subst s1. rewrite handled_all_recordNum by (rewrite H0; reflexivity).
      rewrite H0. apply wrap64_small. lia. }
    rewrite handled_all_untouched.
    + cbn [handled hp]. rewrite Hp1, upd_same. cbn [Num]. rewrite Hn1.
      unfold int64_add. rewrite wrap64_small by lia. lia.
    + intros Hin. apply Hnot. unfold persisted in Hin.
      apply filter_In in Hin. tauto.
  - rewrite handled_all_stored by now apply running_store_open.
    rewrite persisted_app. cbn [persisted filter]. rewrite Hp. reflexivity.
Qed.

(** X6.  The counter is an [int64] and wraps: from any counter value, the
    loop leaves it at the start value plus the number of records persisted,
    reduced to the [int64] range; the record persisted after number
    2^63 - 1 is given - 2^63. *)
Theorem counter_wraps (s : World) (ps : list loc) :
  running s = true ->
  (- 2 ^ 63 <= recordNum (wr s) < 2 ^ 63)%Z ->
  exists s',
    forRange ps handleRecord s = Ok tt s' /\
    recordNum (wr s') =
      wrap64 (recordNum (wr s) + Z.of_nat (List.length (persisted (hp s) ps))) /\
    (- 2 ^ 63 <= recordNum (wr s') < 2 ^ 63)%Z.
Proof.
  intros Hrun Hr. exists (handled_all ps s).
  split; [now apply forRange_running|].
  assert (Hw : wrap64 (recordNum (wr s)) = recordNum (wr s))
    by now apply wrap64_small.
  rewrite (handled_all_recordNum ps s Hw). split; [reflexivity|].
  unfold wrap64.
  pose proof (Z.mod_pos_bound
                (recordNum (wr s) +
                 Z.of_nat (List.length (persisted (hp s) ps)) + 2 ^ 63)
                (2 ^ 64) ltac:(lia)).
  lia.
Qed.

(** ** Closing *)

(** X7.  [Close] cannot be called twice: after a [Close] that completed, a
    second one panics at [close(w.fwdChan)] and changes nothing. *)
Theorem Close_twice_panics (s s' : World) :
  Close s = Ok tt s' -> Close s' = Panicked s'.
Proof.
  intros H. pose proof (Close_Ok_inv s H) as ->. revert H.
  destruct s as [[st fc sc sto n g] h k t].
  unfold closing, Close. unfold_M.
  cbn [wr hp settings fwdChan storeChan tr recordNum worker store wg].
  destruct fc as [[fcap fbuf [|]]|]; cbn; try discriminate.
  reflexivity.
Qed.

Lemma handleRecord_closed p s :
  settings (wr s) <> None ->
  (exists fc, fwdChan (wr s) = Some fc /\ closed fc = true) ->
  (exists sc, storeChan (wr s) = Some sc /\ closed sc = true) ->
  if forwards (settings (wr s)) (hp s p) || persists (hp s p)
  then exists s',
         handleRecord p s = Panicked s' /\
         fwdChan (wr s') = fwdChan (wr s) /\
         storeChan (wr s') = storeChan (wr s)
  else exists s',
         handleRecord p s = Ok tt s' /\
         wr s' = wr s /\ hp s' = hp s.
Proof.
  intros Hs (fc & Hfc & Hfcl) (sc & Hsc & Hscl).
  destruct s as [[st fc0 sc0 sto n g] h k t].
  cbn [wr hp settings fwdChan storeChan] in *. subst fc0 sc0.
  destruct st as [st|]; [|now destruct Hs].
  destruct fc as [fcap fbuf fcl]. destruct sc as [scap sbuf scl].
  cbn [closed] in *. subst fcl scl.
  unfold forwards, persists, is_data, is_nil, GetControl.
  unfold_M.
  cbn [wr hp settings fwdChan storeChan tr recordNum worker store wg
       cap buf closed].
  destruct (h p) as [num rt ctl] eqn:Hr.
  cbn [RecordType Control Num].
  destruct st as [xs [[|]|] sf rid]; destruct ctl as [[[|] [|]]|];
    destruct rt as [[pl|f pl]|]; cbn;
    do 3 (rewrite ?Hr; cbn);
    eexists; (split; [reflexivity|split; reflexivity]).
Qed.

(** X8.  After [Close] the Writer takes no more work: handling a record
    that passes the forwarding rule or is to be persisted panics on the
    send to a closed channel, with both channels left as they are; a
    record that is neither (a nil variant, or one held back offline and
    not persisted) is still handled, and changes nothing but the log. *)
Theorem handleRecord_after_Close (s : World) (p : loc) :
  running s = true ->
  exists s',
    Close s = Ok tt s' /\
    if forwards (settings (wr s)) (hp s p) || persists (hp s p)
    then exists s'',
           handleRecord p s' = Panicked s'' /\
           fwdChan (wr s'') = fwdChan (wr s') /\
           storeChan (wr s'') = storeChan (wr s')
    else exists s'',
           handleRecord p s' = Ok tt s'' /\
           wr s'' = wr s' /\ hp s'' = hp s'.
Proof.
  intros Hrun. exists (closing s).
  pose proof (running_forwarding s Hrun) as Hf.
  pose proof (running_store_open s Hrun) as Hso.
  split.
  { apply Close_closing; [exact Hf|now right]. }
  unfold forwarding in Hf. apply andb_prop in Hf. destruct Hf as [Hset Hfo].
  change (settings (wr s)) with (settings (wr (closing s))).
  change (hp s p) with (hp (closing s) p).
  apply handleRecord_closed.
  - cbn. destruct (settings (wr s)); [discriminate|discriminate].
  - cbn. destruct (fwdChan (wr s)) as [fc|]; [|discriminate].
    exists (chan_close fc). split; reflexivity.
  - cbn. destruct (storeChan (wr s)) as [sc|]; [|discriminate].
    exists (chan_close sc). split; reflexivity.
Qed.

(** ** A Writer with no forwarding channel, and runs in sync mode *)

Lemma handleRecord_handled_gen p s :
  settings (wr s) <> None ->
  (forwards (settings (wr s)) (hp s p) = true ->
   chan_open (fwdChan (wr s)) = true) ->
  (persists (hp s p) = true -> chan_open (storeChan (wr s)) = true) ->
  handleRecord p s = Ok tt (handled p s).
Proof.
  intros Hs Hf Hp.
  destruct s as [[st fc sc sto n g] h k t].
  unfold chan_open in *. cbn [wr hp settings fwdChan storeChan] in *.
  destruct st as [st|]; [clear Hs|now destruct Hs].
  unfold handled, record_events, forwards, persists, is_data, is_nil,
    GetControl, push_if in *.
  unfold_M.
  cbn [wr hp settings fwdChan storeChan tr recordNum worker store wg
       cap buf closed] in *.
  destruct (h p) as [num rt ctl] eqn:Hr.
  cbn [RecordType Control Num] in *.
  destruct st as [xs [[|]|] sf rid]; destruct ctl as [[[|] [|]]|];
    destruct rt as [[pl|f pl]|]; cbn in *;
    do 3 (rewrite ?Hr; cbn); rewrite <- ?app_assoc; try reflexivity;
    try (destruct fc as [[fcap fbuf [|]]|]; cbn in *;
         try (specialize (Hf eq_refl); discriminate));
    do 3 (rewrite ?Hr; cbn); rewrite <- ?app_assoc; try reflexivity;
    try (destruct sc as [[scap sbuf [|]]|]; cbn in *;
         try (specialize (Hp eq_refl); discriminate));
    do 3 (rewrite ?Hr; cbn); rewrite <- ?app_assoc; reflexivity.
Qed.

Lemma handleRecord_parked_fwd p s :
  settings (wr s) <> None ->
  fwdChan (wr s) = None ->
  forwards (settings (wr s)) (hp s p) = true ->
  handleRecord p s = Blocked (add_ev (EvLog Debug "write: got a message") s).
Proof.
  intros Hs Hf Hp.
  destruct s as [[st fc sc sto n g] h k t].
  cbn [wr hp settings fwdChan storeChan] in *. subst fc.
  destruct st as [st|]; [clear Hs|now destruct Hs].
  unfold forwards, is_nil, GetControl in *.
  unfold_M.
  cbn [wr hp settings fwdChan storeChan tr recordNum worker store wg] in *.
  destruct (h p) as [num rt ctl] eqn:Hr.
  cbn [RecordType Control Num] in *.
  destruct st as [xs [[|]|] sf rid]; destruct ctl as [[[|] [|]]|];
    destruct rt as [[pl|f pl]|]; cbn in *; try discriminate;
    do 3 (rewrite ?Hr; cbn); reflexivity.
Qed.

Lemma forwarded_nil_cons st h p ps :
  forwarded st h (p :: ps) = [] ->
  forwards st (h p) = false /\ forwarded st h ps = [].
Proof.
  cbn [forwarded filter]. destruct (forwards st (h p)); [discriminate|].
  intros H. split; [reflexivity|exact H].
Qed.

Lemma handled_fwd_nil p s :
  fwdChan (wr s) = None -> fwdChan (wr (handled p s)) = None.
Proof.
  intros H. cbn [handled wr fwdChan]. rewrite H.
  destruct (forwards (settings (wr s)) (hp s p)); reflexivity.
Qed.

Lemma handled_all_fwd_nil ps s :
  fwdChan (wr s) = None -> fwdChan (wr (handled_all ps s)) = None.
Proof.
  revert s. induction ps as [|p ps IH]; intros s H; [exact H|].
  rewrite handled_all_cons. apply IH. now apply handled_fwd_nil.
Qed.

Lemma forRange_unforwarded ps s :
  settings (wr s) <> None ->
  chan_open (storeChan (wr s)) = true ->
  forwarded (settings (wr s)) (hp s) ps = [] ->
  forRange ps handleRecord s = Ok tt (handled_all ps s).
Proof.
  revert s. induction ps as [|p ps IH]; intros s Hs Ho Hn; [reflexivity|].
  apply forwarded_nil_cons in Hn. destruct Hn as [Hp Hn].
  cbn [forRange]. unfold bind.
  rewrite handleRecord_handled_gen;
    [|assumption|rewrite Hp; discriminate|intros _; assumption].
  rewrite handled_all_cons. apply IH.
  - exact Hs.
  - now rewrite handled_store_open.
  - rewrite (forwarded_ext _ (hp (handled p s)) (hp s)); [exact Hn|].
    intros q. apply handled_forwards.
Qed.

(** X10.  A Writer built without [WithWriterFwdChannel] parks for ever on
    the first record that passes the forwarding rule, at the send on the
    nil channel in [sendRecord]: that record is neither forwarded nor
    persisted, and the records after it are never looked at. *)
Theorem Do_without_fwdChan_parks os st h pre p post :
  last_fwd None os = None ->
  last_settings None os = Some st ->
  GetValue (XSync st) = false ->
  snd (open_result st) = None ->
  forwarded (Some st) h pre = [] ->
  forwards (Some st) (h p) = true ->
  exists s',
    Do (pre ++ p :: post) (initWorld (map apply_spec os) h) = Blocked s' /\
    fwd_of (tr s') = [] /\
    stored_of (tr s') = persisted h pre /\
    recordNum (wr s') =
      wrap64 (Z.of_nat (List.length (persisted h pre))).
Proof.
  intros Hnf Hst Hx Ho Hfw Hp.
  unfold initWorld. rewrite NewWriter_eq, Hnf, Hst.
  set (s0 := mkWorld (mkWriter (Some st) None None None 0%Z 0) h NotStarted []).
  set (s1 := add_ev (EvLog Info "writer: started") s0).
  assert (H0 : settings (wr s0) = Some st) by reflexivity.
  rewrite (Do_eq _ s0 H0).
  destruct (startBlock_cases s0 H0) as [[Hx' He]|[(_ & _ & He)|(_ & Ho' & He)]];
    try congruence.
  unfold logger_Reraise. rewrite He. fold s1.
  set (s2 := handled_all pre (started s1)).
  unfold bind at 1. rewrite forRange_app.
  rewrite (forRange_unforwarded pre (started s1));
    [|discriminate|reflexivity|exact Hfw].
  fold s2. cbn [forRange]. unfold bind at 1.
  assert (Hf2 : fwdChan (wr s2) = None)
    by (subst s2; now apply handled_all_fwd_nil).
  assert (Hs2 : settings (wr s2) = Some st)
    by (subst s2; now rewrite handled_all_settings).
  rewrite (handleRecord_parked_fwd p s2);
    [|rewrite Hs2; discriminate|exact Hf2|].
  2:{ rewrite Hs2. subst s2. now rewrite handled_all_forwards. }
  eexists. split; [reflexivity|].
  cbn [add_ev wr hp tr].
  pose proof (handled_all_trace pre (started s1)) as Htr. fold s2 in Htr.
  cbn [started wr hp tr settings] in Htr.
  change (settings (wr s1)) with (Some st) in *.
  change (hp s1) with h in *. change (tr s1) with [EvLog Info "writer: started"] in *.
  rewrite Htr, !fwd_of_app, !stored_of_app, fwd_of_records, stored_of_records, Hfw.
  split; [reflexivity|].
  split; [cbn [stored_of app]; now rewrite app_nil_r|].
  subst s2. rewrite handled_all_recordNum by reflexivity. reflexivity.
Qed.

Lemma first_persisted h ps :
  persisted h ps <> [] ->
  exists pre p post,
    ps = pre ++ p :: post /\ persisted h pre = [] /\ persists (h p) = true.
Proof.
  induction ps as [|q ps IH]; intros Hn; [now destruct Hn|].
  destruct (persists (h q)) eqn:Hq.
  - exists [], q, ps. repeat split. exact Hq.
  - destruct IH as (pre & p & post & -> & Hpre & Hp).
    + intros H. apply Hn. cbn [persisted filter]. now rewrite Hq.
    + exists (q :: pre), p, post. split; [reflexivity|]. split; [|exact Hp].
      cbn [persisted filter]. now rewrite Hq.
Qed.

Lemma records_no_storeop st h ps :
  existsb is_storeop (flat_map (record_events st h) ps) = false.
Proof.
  induction ps as [|q ps IH]; [reflexivity|].
  cbn [flat_map]. rewrite existsb_app, IH, Bool.orb_false_r.
  unfold record_events.
  destruct (is_nil (h q)), (forwards st (h q)), (persists (h q)); reflexivity.
Qed.

(** X11.  With [x_sync] set and no data record in the input, [Do] returns:
    everything that passes the forwarding rule is on the forwarding
    channel, which is closed, in arrival order; no store was created, no
    goroutine started, no sequence number given out and no record
    written to. *)
Theorem sync_run_without_data_returns fc st h ps :
  closed fc = false ->
  GetValue (XSync st) = true ->
  persisted h ps = [] ->
  exists s',
    Do ps (initWorld [WithWriterFwdChannel fc; WithWriterSettings st] h)
      = Ok tt s' /\
    (exists c, fwdChan (wr s') = Some c /\ closed c = true /\
               buf c = buf fc ++ forwarded (Some st) h ps) /\
    storeChan (wr s') = None /\ store (wr s') = None /\
    worker s' = NotStarted /\
    recordNum (wr s') = 0%Z /\
    hp s' = h /\
    existsb is_return (tr s') = true.
Proof.
  intros Hcl Hx Hn.
  set (s0 := initWorld [WithWriterFwdChannel fc; WithWriterSettings st] h).
  set (s1 := add_ev (EvLog Info "writer: started") s0).
  assert (H0 : settings (wr s0) = Some st) by reflexivity.
  assert (Hf1 : forwarding s1 = true).
  { unfold forwarding, chan_open. cbn. now rewrite Hcl. }
  assert (Hsb : Conc.startBlock s0 = Ok tt s1).
  { rewrite (startBlock_eq s0 H0). apply startStore_sync. exact Hx. }
  set (s2 := handled_all ps s1).
  destruct (handled_all_unpersisted ps s1 Hn) as (U1 & U2 & U3).
  destruct (handled_all_frame ps s1) as (F1 & F2 & F3).
  pose proof (handled_all_fwd ps s1) as Hfw.
  fold s2 in U1, U2, U3, F1, F2, F3, Hfw.
  assert (Hf2 : forwarding s2 = true)
    by (subst s2; now rewrite handled_all_forwarding).
  rewrite (Do_eq ps s0 H0). unfold logger_Reraise. rewrite Hsb.
  unfold bind at 1. rewrite (forRange_unpersisted ps s1 Hf1 Hn). fold s2.
  unfold bind at 1. rewrite (Close_closing s2 Hf2 (or_introl U1)).
  unfold bind at 1. unfold wg_Wait.
  cbn [closing wr wg]. rewrite F2. cbn [s1 add_ev wr wg s0 initWorld NewWriter].
  change (wg (wr s1)) with 0.
  eexists. split; [reflexivity|].
  cbn [emit closing add_ev wr hp tr worker fwdChan storeChan store recordNum].
  rewrite U1, U2, U3, F1, F3.
  split.
  { assert (Ho1 : chan_open (fwdChan (wr s1)) = true)
      by (unfold chan_open; cbn; now rewrite Hcl).
    specialize (Hfw Ho1).
    destruct (fwdChan (wr s2)) as [c|] eqn:Hc.
    - exists (chan_close c). split; [reflexivity|].
      split; [reflexivity|]. exact Hfw.
    - unfold forwarding, chan_open in Hf2. rewrite Hc in Hf2.
      destruct (settings (wr s2)); discriminate. }
  repeat split.
  rewrite existsb_app. cbn. apply Bool.orb_true_r.
Qed.

(** X12.  With [x_sync] set [Do] never touches the store, whatever the
    input: it returns when no record is to be persisted and parks when
    one is, and in either case no store was created, no goroutine
    started, and no [Open], [Write] or [Close] of a store was made. *)
Theorem sync_run_never_touches_store fc st h ps :
  closed fc = false ->
  GetValue (XSync st) = true ->
  exists s',
    (Do ps (initWorld [WithWriterFwdChannel fc; WithWriterSettings st] h)
       = Ok tt s' /\ persisted h ps = [] \/
     Do ps (initWorld [WithWriterFwdChannel fc; WithWriterSettings st] h)
       = Blocked s' /\ persisted h ps <> []) /\
    store (wr s') = None /\ storeChan (wr s') = None /\
    wg (wr s') = 0 /\ worker s' = NotStarted /\
    existsb is_storeop (tr s') = false.
Proof.
  intros Hcl Hx.
  set (s0 := initWorld [WithWriterFwdChannel fc; WithWriterSettings st] h).
  set (s1 := add_ev (EvLog Info "writer: started") s0).
  assert (H0 : settings (wr s0) = Some st) by reflexivity.
  assert (Hf1 : forwarding s1 = true).
  { unfold forwarding, chan_open. cbn. now rewrite Hcl. }
  assert (Hsb : Conc.startBlock s0 = Ok tt s1).
  { rewrite (startBlock_eq s0 H0). apply startStore_sync. exact Hx. }
  rewrite (Do_eq ps s0 H0). unfold logger_Reraise. rewrite Hsb.
  destruct (persisted h ps) as [|p0 ps0] eqn:Hn.
  - set (s2 := handled_all ps s1).
    destruct (handled_all_unpersisted ps s1 Hn) as (U1 & U2 & U3).
    destruct (handled_all_frame ps s1) as (F1 & F2 & F3).
    pose proof (handled_all_trace ps s1) as Htr.
    fold s2 in U1, U2, U3, F1, F2, F3, Htr.
    assert (Hf2 : forwarding s2 = true)
      by (subst s2; now rewrite handled_all_forwarding).
    unfold bind at 1. rewrite (forRange_unpersisted ps s1 Hf1 Hn). fold s2.
    unfold bind at 1. rewrite (Close_closing s2 Hf2 (or_introl U1)).
    unfold bind at 1. unfold wg_Wait.
    cbn [closing wr wg]. rewrite F2. change (wg (wr s1)) with 0.
    eexists. split; [left; split; reflexivity|].
    cbn [emit closing add_ev wr hp tr worker fwdChan storeChan store
         recordNum wg].
    rewrite U1, F1, F2, F3, Htr.
    repeat split.
    rewrite !existsb_app, records_no_storeop. reflexivity.
  - destruct (@first_persisted h ps) as (pre & p & post & -> & Hpre & Hp);
      [rewrite Hn; discriminate|].
    set (s2 := handled_all pre s1).
    destruct (handled_all_unpersisted pre s1 Hpre) as (U1 & U2 & U3).
    destruct (handled_all_frame pre s1) as (F1 & F2 & F3).
    pose proof (handled_all_trace pre s1) as Htr.
    fold s2 in U1, U2, U3, F1, F2, F3, Htr.
    assert (Hf2 : forwarding s2 = true)
      by (subst s2; now rewrite handled_all_forwarding).
    assert (Hp2 : persists (hp s2 p) = true) by (now rewrite U3).
    assert (Hn2 : storeChan (wr s2) = None) by (now rewrite U1).
    assert (HD : (forRange (pre ++ p :: post) handleRecord ;;
                  Close ;; wg_Wait ;; emit EvReturn) s1 = Blocked (parked p s2)).
    { unfold bind at 1. rewrite forRange_app.
      rewrite (forRange_unpersisted pre s1 Hf1 Hpre). fold s2.
      cbn [forRange]. unfold bind at 1.
      now rewrite (handleRecord_parked p s2 Hf2 Hn2 Hp2). }
    rewrite HD. exists (parked p s2).
    split; [right; split; [reflexivity|discriminate]|].
    cbn [parked handled wr hp tr storeChan store wg worker].
    rewrite Hn2, F1, F2, F3, Htr, Hp2.
    split; [reflexivity|]. split; [reflexivity|].
    split; [reflexivity|]. split; [reflexivity|].
    rewrite !existsb_app, records_no_storeop.
    destruct (forwards (settings (wr s2)) (hp s2 p)); reflexivity.
Qed.

(** ** What the worker hands to the store *)

Lemma submitted_app t1 t2 : submitted (t1 ++ t2) = submitted t1 ++ submitted t2.
Proof. unfold submitted. apply flat_map_app. Qed.

Lemma iterated_frames c sto p s :
  store (wr s) = Some sto ->
  submitted (tr (iterated c sto p s)) =
    submitted (tr s) ++ frames_for [hp s p] /\
  store (wr (iterated c sto p s)) = Some (written sto (frames_for [hp s p])) /\
  hp (iterated c sto p s) = hp s /\
  storeChan (wr (iterated c sto p s)) = Some (chan_pop c).
Proof.
  intros Hst. unfold iterated, frames_for, written. cbn [flat_map].
  destruct (proto_Marshal (hp s p)) as [out|e].
  - destruct (store_Write sto out) as [sto' [e|]] eqn:Hw; cbn;
      rewrite ?submitted_app, ?Hw; cbn; rewrite ?app_nil_r; repeat split.
  - cbn. rewrite !submitted_app, Hst. cbn. rewrite !app_nil_r. repeat split.
Qed.

Lemma frames_for_app r1 r2 : frames_for (r1 ++ r2) = frames_for r1 ++ frames_for r2.
Proof. unfold frames_for. apply flat_map_app. Qed.

Lemma written_app sto f1 f2 : written sto (f1 ++ f2) = written (written sto f1) f2.
Proof. unfold written. apply fold_left_app. Qed.

Lemma iter_all_frames n :
  forall s c sto,
    storeChan (wr s) = Some c ->
    List.length (buf c) = n ->
    store (wr s) = Some sto ->
    submitted (tr (iter_all n s)) =
      submitted (tr s) ++ frames_for (map (hp s) (buf c)) /\
    store (wr (iter_all n s)) =
      Some (written sto (frames_for (map (hp s) (buf c)))) /\
    hp (iter_all n s) = hp s.
Proof.
  induction n as [|n IH]; intros s c sto Hc Hn Hsto.
  - destruct (buf c); [|discriminate]. cbn. rewrite app_nil_r. repeat split.
    exact Hsto.
  - destruct (buf c) as [|p q] eqn:Hb; [discriminate|].
    cbn [iter_all].
    assert (Hi : iter1 s = iterated c sto p s).
    { unfold iter1. now rewrite Hc, Hsto, Hb. }
    rewrite Hi.
    destruct (iterated_frames c p s Hsto) as (I1 & I2 & I3 & I4).
    assert (Hlen : List.length (buf (chan_pop c)) = n).
    { cbn. rewrite Hb. cbn. cbn in Hn. lia. }
    destruct (IH _ _ _ I4 Hlen I2) as (J1 & J2 & J3).
    rewrite J1, J2, J3, I1, I3.
    cbn [chan_pop buf]. rewrite Hb. cbn [tl map].
    change (hp s p :: map (hp s) q) with ([hp s p] ++ map (hp s) q).
    rewrite frames_for_app, written_app, <- app_assoc. repeat split.
Qed.

(** X13.  The worker takes the queued records in order; each one that
    [proto.Marshal] serialises is handed to [store.Write], whatever the
    calls before it answered, and one that does not serialise is skipped.
    The loop neither writes to a record nor touches the counter or the
    forwarding channel, and leaves the store channel empty. *)
Theorem worker_submits_every_frame (s : World) (c : chan) (sto : Store) :
  storeChan (wr s) = Some c ->
  store (wr s) = Some sto ->
  exists s',
    workerRange (List.length (buf c)) s = Ok tt s' /\
    submitted (tr s') = submitted (tr s) ++ frames_for (map (hp s) (buf c)) /\
    store (wr s') = Some (written sto (frames_for (map (hp s) (buf c)))) /\
    hp s' = hp s /\
    recordNum (wr s') = recordNum (wr s) /\
    fwdChan (wr s') = fwdChan (wr s) /\
    buf_of (storeChan (wr s')) = [] /\
    recv_of (tr s') = recv_of (tr s) ++ buf c.
Proof.
  intros Hc Hsto.
  exists (iter_all (List.length (buf c)) s).
  split.
  { apply (@workerRange_iter_all _ s c Hc eq_refl). congruence. }
  destruct (@iter_all_frames _ s c sto Hc eq_refl Hsto) as (J1 & J2 & J3).
  destruct (@iter_all_shape _ s c sto Hc eq_refl Hsto)
    as (sto1 & ws & Heq & _ & _ & Wr & _).
  split; [exact J1|]. split; [exact J2|]. split; [exact J3|].
  rewrite Heq. cbn [wr tr recordNum fwdChan storeChan buf_of buf].
  rewrite recv_of_app, Wr. repeat split.
Qed.

Lemma stamp_ext h1 h2 n q :
  (forall x, RecordType (h1 x) = RecordType (h2 x) /\
             Control (h1 x) = Control (h2 x)) ->
  stamp h1 n q = stamp h2 n q.
Proof.
  intros H. revert n. induction q as [|p q IH]; intros n; [reflexivity|].
  cbn [stamp]. destruct (H p) as [-> ->]. now rewrite IH.
Qed.

Lemma handled_all_stamp ps :
  forall s,
    (- 2 ^ 63 <= recordNum (wr s))%Z ->
    (recordNum (wr s) + Z.of_nat (List.length (persisted (hp s) ps)) < 2 ^ 63)%Z ->
    NoDup (persisted (hp s) ps) ->
    map (hp (handled_all ps s)) (persisted (hp s) ps) =
    stamp (hp s) (recordNum (wr s)) (persisted (hp s) ps).
Proof.
  induction ps as [|p ps IH]; intros s Hlo Hhi Hnd; [reflexivity|].
  rewrite handled_all_cons.
  assert (Hpe : persisted (hp (handled p s)) ps = persisted (hp s) ps)
    by (apply persisted_ext; intros q; apply handled_persists).
  cbn [persisted filter] in *. fold (persisted (hp s) ps) in *.
  destruct (persists (hp s p)) eqn:Hp.
  - inversion Hnd as [|x l Hni Hnd']; subst. cbn [List.length] in Hhi.
    assert (Hn : recordNum (wr (handled p s)) = (recordNum (wr s) + 1)%Z).
    { cbn [handled wr recordNum]. rewrite Hp. unfold int64_add.
      apply wrap64_small. lia. }
    cbn [map stamp]. f_equal.
    + rewrite handled_all_untouched by (now rewrite Hpe).
      cbn [handled hp]. rewrite Hp, upd_same. unfold int64_add.
      rewrite wrap64_small by lia. reflexivity.
    + rewrite <- Hpe, IH.
      * rewrite Hn. apply stamp_ext. intros x. apply handled_flags.
      * rewrite Hn. lia.
      * rewrite Hn, Hpe. lia.
      * now rewrite Hpe.
  - assert (Hh : hp (handled p s) = hp s) by (cbn [handled hp]; now rewrite Hp).
    assert (Hn : recordNum (wr (handled p s)) = recordNum (wr s))
      by (cbn [handled wr recordNum]; now rewrite Hp).
    rewrite <- Hpe, IH; rewrite ?Hn, ?Hh, ?Hpe; try assumption.
    reflexivity.
Qed.

Lemma records_not_submitted st h ps :
  submitted (flat_map (record_events st h) ps) = [].
Proof.
  induction ps as [|q ps IH]; [reflexivity|].
  cbn [flat_map]. rewrite submitted_app, IH, app_nil_r.
  unfold record_events.
  destruct (is_nil (h q)), (forwards st (h q)), (persists (h q)); reflexivity.
Qed.

Lemma wg_Wait_exited s c sto :
  storeChan (wr s) = Some c ->
  closed c = true ->
  store (wr s) = Some sto ->
  wg (wr s) = 1 ->
  worker s = Ranging ->
  exists sto1,
    store (wr (iter_all (List.length (buf c)) s)) = Some sto1 /\
    wg_Wait s = Ok tt (exited sto1 0 (iter_all (List.length (buf c)) s)).
Proof.
  intros Hc Hcl Hsto Hg Hw.
  destruct (@iter_all_shape (List.length (buf c)) s c sto Hc eq_refl Hsto)
    as (sto1 & ws & Heq & _).
  exists sto1. split; [now rewrite Heq|].
  unfold wg_Wait. rewrite Hg, Hw. unfold workerBody, bind, getW.
  rewrite Hc.
  rewrite (@workerRange_iter_all (List.length (buf c)) s c Hc eq_refl)
    by congruence.
  rewrite Heq, Hcl, Hg.
  unfold workerExit, exited. unfold_M. cbn.
  destruct (store_Close sto1) as [sto2 [e|]]; cbn;
    rewrite <- ?app_assoc; reflexivity.
Qed.

(** X14.  From the stream's records to the store, for a Writer that runs
    and whose persisted records are distinct objects, fewer than 2^63 of
    them: when [Do] returns, the frames handed to [store.Write] are, in
    arrival order, the serialisations of the persisted records carrying
    the numbers 1, 2, 3, ...; a record that does not serialise leaves a
    gap in the numbers, not a shift.  The store is the one [Open] gave,
    after these writes and one [Close]. *)
Theorem Do_writes_numbered_frames fc st h ps :
  closed fc = false ->
  GetValue (XSync st) = false ->
  snd (open_result st) = None ->
  NoDup (persisted h ps) ->
  (Z.of_nat (List.length (persisted h ps)) < 2 ^ 63)%Z ->
  exists s',
    Do ps (initWorld [WithWriterFwdChannel fc; WithWriterSettings st] h)
      = Ok tt s' /\
    submitted (tr s') = frames_for (stamp h 0 (persisted h ps)) /\
    store (wr s') =
      Some (fst (store_Close
                   (written (fst (open_result st))
                      (frames_for (stamp h 0 (persisted h ps)))))) /\
    map (hp s') (persisted h ps) = stamp h 0 (persisted h ps).
Proof.
  intros Hcl Hx Ho Hnd Hlen.
  set (s0 := initWorld [WithWriterFwdChannel fc; WithWriterSettings st] h).
  set (s1 := add_ev (EvLog Info "writer: started") s0).
  assert (H0 : settings (wr s0) = Some st) by reflexivity.
  rewrite (Do_eq ps s0 H0).
  destruct (startBlock_cases s0 H0) as [[Hx' He]|[(_ & _ & He)|(_ & Ho' & He)]];
    try congruence.
  unfold logger_Reraise. rewrite He. fold s1.
  assert (Hf1 : forwarding s1 = true).
  { unfold forwarding, chan_open. cbn. now rewrite Hcl. }
  pose proof (started_running s1 Hf1) as Hrun.
  set (s2 := handled_all ps (started s1)).
  assert (Hrun2 : running s2 = true) by (subst s2; now rewrite handled_all_running).
  unfold bind at 1. rewrite (forRange_running ps (started s1) Hrun). fold s2.
  unfold bind at 1.
  rewrite (Close_closing s2 (running_forwarding s2 Hrun2)
             (or_intror (running_store_open s2 Hrun2))).
  destruct (handled_all_frame ps (started s1)) as (Fst & Fwg & Fwk).
  pose proof (handled_all_stored ps (started s1) (running_store_open _ Hrun)) as Hsb.
  pose proof (handled_all_trace ps (started s1)) as Htr.
  pose proof (@handled_all_stamp ps (started s1)) as Hstamp.
  fold s2 in Fst, Fwg, Fwk, Hsb, Htr, Hstamp.
  cbn [started wr hp tr storeChan fwdChan settings recordNum s1 add_ev s0
       initWorld buf_of make_chan buf app] in Hsb, Hstamp.
  change (recordNum (NewWriter [WithWriterFwdChannel fc; WithWriterSettings st]))
    with 0%Z in Hstamp.
  specialize (Hstamp ltac:(lia) ltac:(lia) Hnd).
  pose proof (running_store_open s2 Hrun2) as Hso.
  destruct (storeChan (wr s2)) as [sc|] eqn:Hsc; [|discriminate].
  cbn [buf_of] in Hsb.
  destruct (@wg_Wait_exited (closing s2) (chan_close sc) (fst (opening s1)))
    as (sto1 & Hs1 & Hwait).
  { cbn. now rewrite Hsc. }
  { reflexivity. }
  { cbn. now rewrite Fst. }
  { cbn. now rewrite Fwg. }
  { cbn. now rewrite Fwk. }
  destruct (@iter_all_frames (List.length (buf (chan_close sc))) (closing s2)
              (chan_close sc) (fst (opening s1)))
    as (J1 & J2 & J3).
  { cbn. now rewrite Hsc. }
  { reflexivity. }
  { cbn. now rewrite Fst. }
  unfold bind at 1. rewrite Hwait. unfold emit.
  eexists. split; [reflexivity|].
  cbn [add_ev exited wr hp tr store].
  rewrite !submitted_app, J1, J3.
  rewrite J2 in Hs1. injection Hs1 as <-.
  cbn [closing hp tr chan_close buf]. rewrite Hsc, Hsb, Hstamp.
  rewrite !submitted_app, Htr, !submitted_app, records_not_submitted.
  rewrite (opening_open_result s1 H0).
  split; [|split; reflexivity].
  destruct (snd (store_Close _)); cbn; now rewrite ?app_nil_r.
Qed.

(** ** Interleaved runs: what never happens *)

(** X15.  In the interleaved runs of a Writer built with an open
    forwarding channel and settings, over inbound records that are
    non-nil pointers, the only panic is the one of
    [startStore] when the store does not open: no record is ever sent on
    a closed channel and [Close] never closes a channel twice or a nil
    forwarding channel, so [handleRecord] and [Close] do not panic in any
    reachable state. *)
Theorem only_open_failure_panics fc st h ps c :
  closed fc = false ->
  Conc.steps (Conc.init [WithWriterFwdChannel fc; WithWriterSettings st] h ps) c ->
  (Conc.pc c = Conc.WPanic ->
     GetValue (XSync st) = false /\ snd (open_result st) <> None /\
     existsb is_open (tr (Conc.world c)) = true /\
     fwd_of (tr (Conc.world c)) = [] /\ stored_of (tr (Conc.world c)) = []) /\
  (forall p rest s', Conc.pc c = Conc.WRun (p :: rest) ->
     handleRecord p (Conc.world c) <> Panicked s') /\
  (forall s', Conc.pc c = Conc.WRun [] -> Close (Conc.world c) <> Panicked s').
Proof.
  intros Hcl Hsteps.
  pose proof (Inv_steps Hcl Hsteps) as HI.
  destruct c as [k s]. unfold Inv in HI. cbn [Conc.pc Conc.world] in *.
  split; [|split].
  - intros ->. destruct HI as (Hx & Ho & ->).
    split; [exact Hx|]. split; [exact Ho|]. repeat split.
  - intros p rest s' ->. destruct HI as [Hw Hp].
    destruct (inv_forwarding Hw Hp) as [Hf Hsc].
    destruct (persists (hp s p)) eqn:Hper.
    + destruct Hsc as [Hn|Ho].
      * rewrite (handleRecord_parked p s Hf Hn Hper). discriminate.
      * rewrite (handleRecord_handled p s Hf (fun _ => Ho)). discriminate.
    + rewrite (handleRecord_handled p s Hf); [discriminate|].
      rewrite Hper. discriminate.
  - intros s' ->. destruct HI as [Hw Hp].
    destruct (inv_forwarding Hw Hp) as [Hf Hsc].
    rewrite (Close_closing s Hf Hsc). discriminate.
Qed.

(** ** Interleaved runs: the calls made on the store *)

Lemma store_calls_app t1 t2 :
  store_calls (t1 ++ t2) = store_calls t1 ++ store_calls t2.
Proof. unfold store_calls. apply filter_app. Qed.

Lemma store_calls_record st h p : store_calls (record_events st h p) = [].
Proof.
  unfold record_events.
  destruct (is_nil (h p)), (forwards st (h p)), (persists (h p)); reflexivity.
Qed.

Lemma writes_then_close_writes ws :
  forallb is_write ws = true -> writes_then_close ws = true.
Proof.
  induction ws as [|e ws IH]; [reflexivity|].
  cbn [forallb]. intros H. apply andb_prop in H. destruct H as [He H].
  destruct e; try discriminate. cbn. now apply IH.
Qed.

Lemma writes_then_close_closed ws b :
  forallb is_write ws = true ->
  writes_then_close (ws ++ [EvStoreClose b]) = true.
Proof.
  induction ws as [|e ws IH]; [reflexivity|].
  cbn [forallb]. intros H. apply andb_prop in H. destruct H as [He H].
  destruct e; try discriminate. cbn. now apply IH.
Qed.

Lemma calls_inv_protocol c :
  calls_inv c -> protocol_ok (store_calls (tr (Conc.world c))) = true.
Proof.
  unfold calls_inv.
  destruct (Conc.pc c); try (intros ->; reflexivity);
    destruct (worker (Conc.world c));
    try (intros ->; reflexivity);
    try (intros (ws & -> & Hw); cbn; now apply writes_then_close_writes);
    intros (ws & b & -> & Hw); cbn; now apply writes_then_close_closed.
Qed.

Lemma calls_iterated c sto p s :
  store (wr s) = Some sto ->
  worker (iterated c sto p s) = worker s /\
  exists ws,
    store_calls (tr (iterated c sto p s)) = store_calls (tr s) ++ ws /\
    forallb is_write ws = true.
Proof.
  intros Hst. unfold iterated.
  destruct (proto_Marshal (hp s p)) as [out|e].
  - destruct (store_Write sto out) as [sto' [e|]]; cbn;
      (split; [reflexivity|]);
      [exists [EvWrite out false]|exists [EvWrite out true]];
      rewrite !store_calls_app; cbn; rewrite ?app_nil_r; split; reflexivity.
  - cbn. split; [reflexivity|]. exists [].
    rewrite !store_calls_app. cbn. rewrite ?app_nil_r. split; reflexivity.
Qed.

Lemma calls_exited sto n s :
  worker (exited sto n s) = Exited /\
  exists b, store_calls (tr (exited sto n s)) =
            store_calls (tr s) ++ [EvStoreClose b].
Proof.
  unfold exited. cbn. split; [reflexivity|].
  rewrite store_calls_app.
  destruct (snd (store_Close sto)); cbn; eexists; reflexivity.
Qed.

Lemma calls_inv_worker k s s' sto :
  k <> Conc.WPanic ->
  worker s = Ranging ->
  store (wr s) = Some sto ->
  Conc.workerStep s = Ok tt s' ->
  calls_inv (Conc.mkConf k s) -> calls_inv (Conc.mkConf k s').
Proof.
  intros Hk Hw Hsto Hs HK.
  assert (HK' : exists ws, store_calls (tr s) = EvOpen true :: ws /\
                           forallb is_write ws = true).
  { unfold calls_inv in HK. cbn [Conc.pc Conc.world] in HK. rewrite Hw in HK.
    destruct k; try exact HK. now destruct Hk. }
  destruct HK' as (ws & Hc & Hws).
  assert (Hgoal :
    match worker s' with
    | NotStarted => store_calls (tr s') = []
    | Ranging =>
        exists ws, store_calls (tr s') = EvOpen true :: ws /\
                   forallb is_write ws = true
    | Exited =>
        exists ws b, store_calls (tr s') = EvOpen true :: ws ++ [EvStoreClose b] /\
                     forallb is_write ws = true
    end).
  { destruct (workerStep_Ok_inv s Hsto Hs)
      as [(c0 & p & q & _ & _ & ->)|(c0 & n & _ & _ & _ & _ & ->)].
    - destruct (calls_iterated c0 p s Hsto) as (-> & ws' & -> & Hws').
      rewrite Hw, Hc. exists (ws ++ ws'). split; [reflexivity|].
      now rewrite forallb_app, Hws, Hws'.
    - destruct (calls_exited sto n s) as (-> & b & ->).
      rewrite Hc. exists ws, b. split; [reflexivity|exact Hws]. }
  unfold calls_inv. cbn [Conc.pc Conc.world].
  destruct k; try exact Hgoal. now destruct Hk.
Qed.

Lemma calls_inv_step fc st h ps c c' :
  closed fc = false ->
  Inv fc st h ps c -> calls_inv c -> Conc.step c c' -> calls_inv c'.
Proof.
  intros Hcl HI HK Hstep.
  pose proof (@Inv_step fc st h ps c c' Hcl HI Hstep) as HI'.
  destruct Hstep as [ps0 s s' Hs|ps0 s s' Hs|p ps0 s s' Hs Hfit|p ps0 s s' Hs
                    |s s' Hs|s s' Hs|s Hg|k s s' Hk Hw Hs];
    unfold Inv in HI, HI'; cbn [Conc.pc Conc.world] in HI, HI'.
  - destruct HI as [-> ->].
    set (s0 := initWorld [WithWriterFwdChannel fc; WithWriterSettings st] h) in *.
    assert (H0 : settings (wr s0) = Some st) by reflexivity.
    destruct (startBlock_cases s0 H0) as [[Hx He]|[(Hx & Ho & He)|(Hx & Ho & He)]];
      rewrite He in Hs; inversion Hs; subst s'; unfold calls_inv; cbn.
    + reflexivity.
    + exists []. split; reflexivity.
  - destruct HI' as (_ & _ & ->). reflexivity.
  - pose proof (handleRecord_Ok_inv p s Hs) as ->.
    unfold calls_inv in *. cbn [Conc.pc Conc.world handled worker tr] in *.
    now rewrite store_calls_app, store_calls_record, app_nil_r.
  - destruct HI' as (_ & _ & ->). reflexivity.
  - pose proof (Close_Ok_inv s Hs) as ->.
    unfold calls_inv in *. cbn [Conc.pc Conc.world closing worker tr] in *.
    assert (Hz : store_calls
                   (EvCloseFwd ::
                      (match storeChan (wr s) with
                       | Some _ => [EvCloseStore]
                       | None => []
                       end) ++ [EvLog Info "writer: closed"]) = [])
      by (destruct (storeChan (wr s)); reflexivity).
    now rewrite store_calls_app, Hz, app_nil_r.
  - destruct HI' as (_ & _ & ->). reflexivity.
  - unfold calls_inv in *. cbn [Conc.pc Conc.world add_ev worker tr] in *.
    rewrite store_calls_app. cbn. now rewrite app_nil_r.
  - assert (Hsto : exists sto, store (wr s) = Some sto).
    { destruct k as [ps0|ps0| | |]; cbn [Conc.pc Conc.world] in *.
      - destruct HI as [_ ->]. discriminate.
      - destruct HI as [(_ & _ & _ & _ & Hch & _) _]. rewrite Hw in Hch.
        destruct (storeChan (wr s)); [|now destruct Hch].
        destruct Hch as (_ & H2 & _).
        destruct (store (wr s)) as [sto|]; [now exists sto|now destruct H2].
      - destruct HI as [(_ & _ & _ & _ & Hch & _) _]. rewrite Hw in Hch.
        destruct (storeChan (wr s)); [|now destruct Hch].
        destruct Hch as (_ & H2 & _).
        destruct (store (wr s)) as [sto|]; [now exists sto|now destruct H2].
      - destruct HI as [(_ & _ & _ & _ & Hch & _) _]. rewrite Hw in Hch.
        destruct (storeChan (wr s)); [|now destruct Hch].
        destruct Hch as (_ & H2 & _).
        destruct (store (wr s)) as [sto|]; [now exists sto|now destruct H2].
      - now destruct Hk. }
    destruct Hsto as [sto Hsto].
    eapply calls_inv_worker; eassumption.
Qed.

(** X16.  In every interleaved run the calls on the store follow its
    protocol: none at all; or one [Open] that fails and nothing after it;
    or one [Open] that succeeds, then only writes, then at most one
    [Close], after which the store is not used again.  While the worker
    is in its loop no [Close] has been made, and the run has panicked
    exactly when the one call is a failed [Open]. *)
Theorem store_calls_follow_protocol fc st h ps c :
  closed fc = false ->
  Conc.steps (Conc.init [WithWriterFwdChannel fc; WithWriterSettings st] h ps) c ->
  protocol_ok (store_calls (tr (Conc.world c))) = true /\
  (worker (Conc.world c) = Ranging ->
     existsb is_storeclose (store_calls (tr (Conc.world c))) = false) /\
  (Conc.pc c = Conc.WPanic <->
     store_calls (tr (Conc.world c)) = [EvOpen false]).
Proof.
  intros Hcl Hsteps.
  assert (HK : calls_inv c /\
               Inv fc st h ps c).
  { remember (Conc.init [WithWriterFwdChannel fc; WithWriterSettings st] h ps)
      as c0 eqn:Hc0.
    induction Hsteps as [c|c1 c2 c3 H12 IH H23].
    - subst c. split; [reflexivity|]. unfold Inv, Conc.init. cbn. now split.
    - destruct (IH Hc0) as [HK HI]. split.
      + eapply calls_inv_step; eassumption.
      + eapply Inv_step; eassumption. }
  destruct HK as [HK HI].
  split; [now apply calls_inv_protocol|].
  destruct c as [k s]. unfold calls_inv, Inv in *. cbn [Conc.pc Conc.world] in *.
  split.
  - intros Hw. rewrite Hw in HK.
    destruct k; cbn [Conc.pc Conc.world] in *.
    1: { destruct HI as [_ ->]. discriminate. }
    4: { destruct HI as (_ & _ & ->). discriminate. }
    all: destruct HK as (ws & -> & Hws); cbn;
      clear - Hws; induction ws as [|e ws IH]; [reflexivity|];
      cbn [forallb] in Hws; apply andb_prop in Hws; destruct Hws as [He Hws];
      destruct e; try discriminate; cbn; now apply IH.
  - split.
    + intros ->. exact HK.
    + intros Hc. destruct k; try reflexivity; exfalso;
        rewrite Hc in HK; destruct (worker s); try discriminate;
        try (destruct HK as (ws & HK & _); discriminate);
        destruct HK as (ws & b & HK & _); discriminate.
Qed.

(** ** Interleaved runs: the frames written *)

Lemma stamp_app h n a b :
  stamp h n (a ++ b) = stamp h n a ++ stamp h (n + Z.of_nat (List.length a)) b.
Proof.
  revert n. induction a as [|p a IH]; intros n.
  - cbn. now rewrite Z.add_0_r.
  - cbn [app stamp List.length]. rewrite IH. do 3 f_equal. lia.
Qed.

Lemma stamp_length h n a : List.length (stamp h n a) = List.length a.
Proof. revert n. induction a as [|p a IH]; intros n; cbn; [|rewrite IH]; reflexivity. Qed.

Lemma app_same_length (A : Type) (a a' b b' : list A) :
  List.length a = List.length a' -> a ++ b = a' ++ b' -> a = a'.
Proof.
  revert a'. induction a as [|x a IH]; intros [|x' a'] Hl He;
    try discriminate; [reflexivity|].
  cbn in *. inversion He. f_equal. apply IH; [lia|assumption].
Qed.

Lemma persists_flags r1 r2 :
  RecordType r1 = RecordType r2 -> Control r1 = Control r2 ->
  persists r1 = persists r2.
Proof.
  intros H1 H2. unfold persists, is_data, GetControl. now rewrite H1, H2.
Qed.

Lemma submitted_record st h p : submitted (record_events st h p) = [].
Proof.
  unfold record_events.
  destruct (is_nil (h p)), (forwards st (h p)), (persists (h p)); reflexivity.
Qed.

Lemma map_upd_notin (h : heap) p r l :
  ~ In p l -> map (upd h p r) l = map h l.
Proof.
  intros Hn. apply map_ext_in. intros q Hq. apply upd_other.
  intros ->. now apply Hn.
Qed.

Lemma frames_handled h ps p rest s :
  NoDup (persisted h ps) ->
  (Z.of_nat (List.length (persisted h ps)) < 2 ^ 63)%Z ->
  incl (recv_of (tr s)) (stored_of (tr s)) ->
  frames_world h s ->
  stored_of (tr s) ++ persisted h (p :: rest) = persisted h ps ->
  frames_world h (handled p s) /\
  stored_of (tr (handled p s)) ++ persisted h rest = persisted h ps.
Proof.
  intros Hnd Hlen Hincl (F1 & F2 & F3 & F4) F5.
  assert (Hp : persists (hp s p) = persists (h p))
    by (destruct (F1 p); now apply persists_flags).
  assert (Htr : tr (handled p s) = tr s ++ record_events (settings (wr s)) (hp s) p)
    by reflexivity.
  assert (Hrecv : recv_of (tr (handled p s)) = recv_of (tr s)).
  { rewrite Htr, recv_of_app.
    destruct (events_quiet (settings (wr s)) (hp s) p) as (-> & _).
    apply app_nil_r. }
  assert (Hsub : submitted (tr (handled p s)) = submitted (tr s))
    by (rewrite Htr, submitted_app, submitted_record; apply app_nil_r).
  assert (Hsto : stored_of (tr (handled p s)) =
                 stored_of (tr s) ++ if persists (h p) then [p] else [])
    by (rewrite Htr, stored_of_app, stored_of_record, Hp; reflexivity).
  cbn [persisted filter] in F5. fold (persisted h rest) in F5.
  unfold frames_world. rewrite Hrecv, Hsub, Hsto.
  split; [split|].
  - intros q. destruct (handled_flags p s q) as [-> ->]. apply F1.
  - cbn [handled wr recordNum hp]. rewrite Hp.
    destruct (persists (h p)) eqn:Hper.
    + assert (Hni : ~ In p (stored_of (tr s))).
      { rewrite <- F5 in Hnd. apply NoDup_remove_2 in Hnd.
        intros Hi. apply Hnd. apply in_or_app. now left. }
      assert (Hn1 : int64_add (recordNum (wr s)) 1 =
                    (Z.of_nat (List.length (stored_of (tr s))) + 1)%Z).
      { unfold int64_add. rewrite F2. apply wrap64_small.
        rewrite <- F5, length_app in Hlen. cbn [List.length] in Hlen. lia. }
      rewrite Hn1.
      split; [rewrite length_app; cbn [List.length]; lia|].
      split.
      * rewrite map_app, stamp_app, map_upd_notin by exact Hni.
        rewrite F3. cbn [map stamp]. rewrite upd_same.
        destruct (F1 p) as [-> ->]. reflexivity.
      * rewrite map_upd_notin; [exact F4|].
        intros Hi. apply Hni. now apply Hincl.
    + rewrite app_nil_r. repeat split; assumption.
  - destruct (persists (h p)); [now rewrite <- app_assoc|now rewrite app_nil_r].
Qed.

Lemma frames_same_records h s s' :
  hp s' = hp s ->
  recordNum (wr s') = recordNum (wr s) ->
  stored_of (tr s') = stored_of (tr s) ->
  recv_of (tr s') = recv_of (tr s) ->
  submitted (tr s') = submitted (tr s) ->
  frames_world h s -> frames_world h s'.
Proof.
  intros H1 H2 H3 H4 H5 HF. unfold frames_world in *.
  now rewrite H1, H2, H3, H4, H5.
Qed.

Lemma frames_iterated h c sto p s :
  store (wr s) = Some sto ->
  frames_world h s ->
  frames_world h (iterated c sto p s) /\
  stored_of (tr (iterated c sto p s)) = stored_of (tr s).
Proof.
  intros Hsto (F1 & F2 & F3 & F4).
  destruct (iterated_frames c p s Hsto) as (I1 & _ & I3 & _).
  destruct (iterated_shape c p s Hsto) as (sto1 & ws & Heq & _ & Ws & Wr & _).
  assert (Hs : stored_of (tr (iterated c sto p s)) = stored_of (tr s)).
  { rewrite Heq. cbn [tr].
    change (EvRecv p :: ws) with ([EvRecv p] ++ ws).
    rewrite !stored_of_app, Ws. cbn. now rewrite ?app_nil_r. }
  assert (Hr : recv_of (tr (iterated c sto p s)) = recv_of (tr s) ++ [p]).
  { rewrite Heq. cbn [tr].
    change (EvRecv p :: ws) with ([EvRecv p] ++ ws).
    rewrite !recv_of_app, Wr. cbn. now rewrite ?app_nil_r. }
  split; [|exact Hs].
  unfold frames_world. rewrite I1, I3, Hs, Hr.
  split; [exact F1|]. split.
  - rewrite Heq. cbn [wr recordNum]. exact F2.
  - split; [exact F3|].
    rewrite map_app, frames_for_app, F4. reflexivity.
Qed.

Lemma frames_exited h sto n s :
  frames_world h s ->
  frames_world h (exited sto n s) /\
  stored_of (tr (exited sto n s)) = stored_of (tr s).
Proof.
  intros HF.
  assert (Hs : stored_of (tr (exited sto n s)) = stored_of (tr s)).
  { cbn [exited tr]. rewrite stored_of_app.
    destruct (snd (store_Close sto)); cbn; now rewrite app_nil_r. }
  split; [|exact Hs].
  apply frames_same_records with s; try reflexivity; try assumption.
  - cbn [exited tr]. rewrite recv_of_app.
    destruct (snd (store_Close sto)); cbn; now rewrite app_nil_r.
  - cbn [exited tr]. rewrite submitted_app.
    destruct (snd (store_Close sto)); cbn; now rewrite app_nil_r.
Qed.

Lemma inv_world_incl fc st s :
  inv_world fc st s -> incl (recv_of (tr s)) (stored_of (tr s)).
Proof.
  intros (_ & _ & Hq & _). rewrite Hq. apply incl_appl, incl_refl.
Qed.

Lemma frames_step fc st h ps c c' :
  closed fc = false ->
  NoDup (persisted h ps) ->
  (Z.of_nat (List.length (persisted h ps)) < 2 ^ 63)%Z ->
  Inv fc st h ps c ->
  frames_world h (Conc.world c) /\ frames_pc h ps c ->
  Conc.step c c' ->
  frames_world h (Conc.world c') /\ frames_pc h ps c'.
Proof.
  intros Hcl Hnd Hlen HI [HF HP] Hstep.
  pose proof (@Inv_step fc st h ps c c' Hcl HI Hstep) as HI'.
  assert (Hab : forall s,
            s = aborted (initWorld [WithWriterFwdChannel fc; WithWriterSettings st] h) ->
            frames_world h s /\ stored_of (tr s) = []).
  { intros s ->. split; [|reflexivity].
    unfold frames_world. cbn. repeat split. }
  destruct Hstep as [ps0 s s' Hs|ps0 s s' Hs|p ps0 s s' Hs Hfit|p ps0 s s' Hs
                    |s s' Hs|s s' Hs|s Hg|k s s' Hk Hw Hs];
    unfold Inv in HI, HI'; unfold frames_pc in *;
    cbn [Conc.pc Conc.world] in *.
  - destruct HI as [-> ->].
    set (s0 := initWorld [WithWriterFwdChannel fc; WithWriterSettings st] h) in *.
    assert (H0 : settings (wr s0) = Some st) by reflexivity.
    destruct (startBlock_cases s0 H0) as [[Hx He]|[(Hx & Ho & He)|(Hx & Ho & He)]];
      rewrite He in Hs; inversion Hs; subst s'.
    + split; [|exact HP].
      apply frames_same_records with s0; try reflexivity; exact HF.
    + split; [|exact HP].
      apply frames_same_records with s0; try reflexivity; exact HF.
  - destruct HI' as (_ & _ & Hw). now apply Hab.
  - destruct HI as [Hiw _].
    pose proof (handleRecord_Ok_inv p s Hs) as ->.
    apply frames_handled; try assumption.
    now apply inv_world_incl with fc st.
  - destruct HI' as (_ & _ & Hw). now apply Hab.
  - pose proof (Close_Ok_inv s Hs) as ->.
    assert (Hz : forall (f : list event -> list loc),
              (f = stored_of \/ f = recv_of) ->
              f (tr (closing s)) = f (tr s)).
    { intros f [-> | ->]; cbn [closing tr];
        rewrite ?stored_of_app, ?recv_of_app;
        destruct (storeChan (wr s)); cbn; now rewrite app_nil_r. }
    split.
    + apply frames_same_records with s; try reflexivity; try assumption.
      * apply Hz. now left.
      * apply Hz. now right.
      * cbn [closing tr]. rewrite submitted_app.
        destruct (storeChan (wr s)); cbn; now rewrite app_nil_r.
    + rewrite (Hz stored_of (or_introl eq_refl)).
      cbn [persisted filter] in HP. now rewrite app_nil_r in HP.
  - destruct HI' as (_ & _ & Hw). now apply Hab.
  - split.
    + apply frames_same_records with s; try reflexivity; try assumption;
        cbn [add_ev tr];
        rewrite ?stored_of_app, ?recv_of_app, ?submitted_app; cbn;
        now rewrite app_nil_r.
    + cbn [add_ev tr]. rewrite stored_of_app. cbn. now rewrite app_nil_r.
  - assert (Hsto : exists sto, store (wr s) = Some sto).
    { destruct k as [ps0|ps0| | |]; cbn [Conc.pc Conc.world] in *.
      - destruct HI as [_ ->]. discriminate.
      - destruct HI as [(_ & _ & _ & _ & Hch & _) _]. rewrite Hw in Hch.
        destruct (storeChan (wr s)); [|now destruct Hch].
        destruct Hch as (_ & H2 & _).
        destruct (store (wr s)) as [sto|]; [now exists sto|now destruct H2].
      - destruct HI as [(_ & _ & _ & _ & Hch & _) _]. rewrite Hw in Hch.
        destruct (storeChan (wr s)); [|now destruct Hch].
        destruct Hch as (_ & H2 & _).
        destruct (store (wr s)) as [sto|]; [now exists sto|now destruct H2].
      - destruct HI as [(_ & _ & _ & _ & Hch & _) _]. rewrite Hw in Hch.
        destruct (storeChan (wr s)); [|now destruct Hch].
        destruct Hch as (_ & H2 & _).
        destruct (store (wr s)) as [sto|]; [now exists sto|now destruct H2].
      - now destruct Hk. }
    destruct Hsto as [sto Hsto].
    assert (Hboth : frames_world h s' /\ stored_of (tr s') = stored_of (tr s)).
    { destruct (workerStep_Ok_inv s Hsto Hs)
        as [(c0 & p & q & _ & _ & ->)|(c0 & n & _ & _ & _ & _ & ->)].
      - now apply frames_iterated.
      - now apply frames_exited. }
    destruct Hboth as [HF' Hs'].
    split; [exact HF'|]. rewrite Hs'. exact HP.
Qed.

(** X17.  Whatever the interleaving of the Writer and the worker, for
    persisted records that are distinct objects, fewer than 2^63 of them:
    at every moment the records the worker has received are an initial
    part of the persisted records of the input, and the frames handed to
    [store.Write] so far are the serialisations of exactly these records
    carrying the numbers 1, 2, 3, ... in arrival order; when [Do] has
    returned, they are those of all the persisted records. *)
Theorem frames_are_numbered_in_every_run fc st h ps c :
  closed fc = false ->
  NoDup (persisted h ps) ->
  (Z.of_nat (List.length (persisted h ps)) < 2 ^ 63)%Z ->
  Conc.steps (Conc.init [WithWriterFwdChannel fc; WithWriterSettings st] h ps) c ->
  let t := tr (Conc.world c) in
  submitted t = frames_for (stamp h 0 (recv_of t)) /\
  (exists rest, persisted h ps = recv_of t ++ rest) /\
  (Conc.pc c = Conc.WDone ->
     recv_of t = persisted h ps /\
     submitted t = frames_for (stamp h 0 (persisted h ps))).
Proof.
  intros Hcl Hnd Hlen Hsteps.
  assert (HK : (frames_world h (Conc.world c) /\ frames_pc h ps c) /\
               Inv fc st h ps c).
  { remember (Conc.init [WithWriterFwdChannel fc; WithWriterSettings st] h ps)
      as c0 eqn:Hc0.
    induction Hsteps as [c|c1 c2 c3 H12 IH H23].
    - subst c. split; [|unfold Inv, Conc.init; cbn; now split].
      split; [|reflexivity]. unfold frames_world. cbn. repeat split.
    - destruct (IH Hc0) as [HK HI]. split.
      + eapply frames_step; eassumption.
      + eapply Inv_step; eassumption. }
  destruct HK as [[(F1 & F2 & F3 & F4) HP] HI].
  destruct c as [k s]. unfold frames_pc, Inv in *.
  cbn [Conc.pc Conc.world] in *.
  assert (Hq : exists b, stored_of (tr s) = recv_of (tr s) ++ b /\
                         (k = Conc.WDone -> b = [])).
  { destruct k as [ps0|ps0| | |].
    - destruct HI as [_ ->]. exists []. split; [reflexivity|discriminate].
    - destruct HI as [(_ & _ & Hq & _) _]. eexists. split; [exact Hq|discriminate].
    - destruct HI as [(_ & _ & Hq & _) _]. eexists. split; [exact Hq|discriminate].
    - destruct HI as [(_ & _ & Hq & _ & Hch & Hwk & _) (_ & _ & Hg & _)].
      exists (buf_of (storeChan (wr s))). split; [exact Hq|]. intros _.
      cbn [Conc.world] in Hg.
      destruct (storeChan (wr s)) as [sc|]; [|reflexivity].
      destruct Hch as (_ & _ & _ & Hns & _).
      destruct (worker s).
      + now destruct Hns.
      + destruct Hwk as [Hwk _]. rewrite Hg in Hwk. discriminate.
      + now destruct Hwk as (_ & _ & Hb & _).
    - destruct HI as (_ & _ & ->). exists []. split; [reflexivity|discriminate]. }
  destruct Hq as (b & Hq & Hb).
  assert (Hst : map (hp s) (recv_of (tr s)) = stamp h 0 (recv_of (tr s))).
  { rewrite Hq, map_app, stamp_app in F3.
    apply app_same_length in F3; [exact F3|].
    now rewrite length_map, stamp_length. }
  assert (Hsub : submitted (tr s) = frames_for (stamp h 0 (recv_of (tr s))))
    by (now rewrite F4, Hst).
  split; [exact Hsub|]. split.
  - destruct k as [ps0|ps0| | |].
    + exists (b ++ persisted h ps0). now rewrite <- HP, Hq, app_assoc.
    + exists (b ++ persisted h ps0). now rewrite <- HP, Hq, app_assoc.
    + exists b. now rewrite <- HP.
    + exists b. now rewrite <- HP.
    + destruct HI as (_ & _ & ->). exists (persisted h ps). reflexivity.
  - intros ->. specialize (Hb eq_refl). subst b. rewrite app_nil_r in Hq.
    assert (Hr : recv_of (tr s) = persisted h ps) by (now rewrite <- Hq).
    split; [exact Hr|]. now rewrite Hsub, Hr.
Qed.

(** ** What the loop writes into the records, however it ends *)





(** ** Interleaved runs of a Writer with no forwarding channel *)

Lemma forwards_flags st r1 r2 :
  RecordType r1 = RecordType r2 -> Control r1 = Control r2 ->
  forwards st r1 = forwards st r2.
Proof.
  intros H1 H2. unfold forwards, is_nil, GetControl. now rewrite H1, H2.
Qed.

Lemma initWorld_specs os st h :
  last_fwd None os = None ->
  last_settings None os = Some st ->
  initWorld (map apply_spec os) h =
  mkWorld (mkWriter (Some st) None None None 0%Z 0) h NotStarted [].
Proof.
  intros Hf Hs. unfold initWorld. now rewrite NewWriter_eq, Hf, Hs.
Qed.

Lemma nofwd_handled st h p s :
  nofwd_world st h s ->
  forwards (Some st) (h p) = false ->
  nofwd_world st h (handled p s) /\
  handleRecord p s = Ok tt (handled p s) /\
  stored_of (tr (handled p s)) =
    stored_of (tr s) ++ (if persists (h p) then [p] else []).
Proof.
  intros (Hs & Hf & Hfl & Hfw & Hcf & Hcs & Hcl & Hret & Hwk &
          sc & sto & Hsc & Hscl & Hsto & Hq) Hnf.
  assert (Hfp : forwards (settings (wr s)) (hp s p) = false).
  { rewrite Hs, <- Hnf. destruct (Hfl p). now apply forwards_flags. }
  assert (Hpp : persists (hp s p) = persists (h p)).
  { destruct (Hfl p). now apply persists_flags. }
  destruct (events_quiet (settings (wr s)) (hp s) p)
    as (Q1 & Q2 & Q3 & _ & Q5 & Q6).
  assert (Hst : stored_of (tr (handled p s)) =
                stored_of (tr s) ++ (if persists (h p) then [p] else [])).
  { cbn [handled tr]. now rewrite stored_of_app, stored_of_record, Hpp. }
  split; [|split; [|exact Hst]].
  - unfold nofwd_world. rewrite Hst.
    cbn [handled wr hp tr worker settings fwdChan storeChan store].
    rewrite Hfp, Hsc, Hpp, !existsb_app, closes_of_app, fwd_of_app, recv_of_app.
    rewrite Q1, Q2, Q3, Q5, Q6, Hcf, Hcs, Hcl, Hret, Hfw, fwd_of_record, Hfp.
    rewrite app_nil_r.
    split; [exact Hs|]. split; [exact Hf|]. split.
    { intros q. destruct (handled_flags p s q) as [F1 F2].
      cbn [handled hp] in F1, F2. rewrite Hpp in F1, F2.
      rewrite F1, F2. apply Hfl. }
    repeat (split; [reflexivity|]). split; [exact Hwk|].
    destruct (persists (h p)); cbn [push_if option_map].
    + exists (chan_push sc p), sto. cbn [chan_push closed buf].
      rewrite Hq, !app_nil_r, <- app_assoc. repeat split; assumption.
    + exists sc, sto. rewrite !app_nil_r. repeat split; assumption.
  - apply handleRecord_handled_gen.
    + rewrite Hs. discriminate.
    + rewrite Hfp. discriminate.
    + intros _. unfold chan_open. now rewrite Hsc, Hscl.
Qed.

Lemma nofwd_iterated st h s c sto p q :
  nofwd_world st h s ->
  storeChan (wr s) = Some c ->
  buf c = p :: q ->
  store (wr s) = Some sto ->
  nofwd_world st h (iterated c sto p s) /\
  stored_of (tr (iterated c sto p s)) = stored_of (tr s) /\
  buf_of (storeChan (wr (iterated c sto p s))) = q.
Proof.
  intros (Hs & Hf & Hfl & Hfw & Hcf & Hcs & Hcl & Hret & Hwk &
          sc & sto0 & Hsc & Hscl & Hsto0 & Hq) Hc Hb Hsto.
  rewrite Hc in Hsc. injection Hsc as <-.
  destruct (iterated_shape c p s Hsto)
    as (sto1 & ws & Heq & Wf & Ws & Wr & Wcf & Wcs & Wsc & Wret & Wn).
  rewrite Heq. cbn [wr hp tr worker settings fwdChan storeChan store buf_of
                    chan_pop buf]. rewrite Hb. cbn [tl].
  change (EvRecv p :: ws) with ([EvRecv p] ++ ws).
  assert (Hst : stored_of (tr s ++ [EvRecv p] ++ ws) = stored_of (tr s)).
  { rewrite !stored_of_app, Ws. cbn. now rewrite app_nil_r. }
  split; [|split; [exact Hst|reflexivity]].
  unfold nofwd_world.
  cbn [wr hp tr worker settings fwdChan storeChan store].
  rewrite Hst, !existsb_app, !closes_of_app, !fwd_of_app, !recv_of_app.
  rewrite Wf, Wr, Wcf, Wcs, Wret, Wn, Hcf, Hcs, Hcl, Hret, Hfw.
  split; [exact Hs|]. split; [exact Hf|]. split; [exact Hfl|].
  repeat (split; [reflexivity|]). split; [exact Hwk|].
  eexists. eexists. split; [reflexivity|]. cbn [closed buf].
  split; [exact Hscl|]. split; [reflexivity|].
  rewrite Hq. cbn [chan_pop buf recv_of flat_map app]. rewrite Hb.
  cbn [tl]. rewrite <- app_assoc. reflexivity.
Qed.

Lemma nofwd_Close st h s :
  nofwd_world st h s -> Close s = Panicked s.
Proof.
  intros (_ & Hf & _). unfold Close, close_fwdChan, bind, getW, panic.
  now rewrite Hf.
Qed.

Lemma nofwd_start st h :
  GetValue (XSync st) = false ->
  snd (open_result st) = None ->
  let s0 := mkWorld (mkWriter (Some st) None None None 0%Z 0) h NotStarted [] in
  Conc.startBlock s0 = Ok tt (started (add_ev (EvLog Info "writer: started") s0)) /\
  nofwd_world st h (started (add_ev (EvLog Info "writer: started") s0)) /\
  stored_of (tr (started (add_ev (EvLog Info "writer: started") s0))) = [].
Proof.
  intros Hx Ho s0.
  assert (H0 : settings (wr s0) = Some st) by reflexivity.
  destruct (startBlock_cases s0 H0) as [[Hx' He]|[(_ & _ & He)|(_ & Ho' & He)]];
    try congruence.
  split; [exact He|]. split; [|reflexivity].
  unfold nofwd_world. cbn.
  repeat (split; [reflexivity|]). split; [intros q; split; reflexivity|].
  repeat (split; [reflexivity|]).
  eexists. eexists. repeat split.
Qed.

Lemma nofwd_step st h ps c c' :
  GetValue (XSync st) = false ->
  snd (open_result st) = None ->
  forwarded (Some st) h ps = [] ->
  nofwd_inv st h ps c -> Conc.step c c' -> nofwd_inv st h ps c'.
Proof.
  intros Hx Ho Hnone HI Hstep.
  destruct Hstep as [ps0 s s' Hs|ps0 s s' Hs|p ps0 s s' Hs Hfit|p ps0 s s' Hs
                    |s s' Hs|s s' Hs|s Hg|k s s' Hk Hw Hs];
    unfold nofwd_inv in *; cbn [Conc.pc Conc.world] in *.
  - destruct HI as [-> ->].
    destruct (@nofwd_start st h Hx Ho) as (He & Hn & Hst).
    rewrite He in Hs. inversion Hs; subst s'.
    split; [exact Hn|]. rewrite Hst. split; [exact Hnone|reflexivity].
  - destruct HI as [-> ->].
    destruct (@nofwd_start st h Hx Ho) as (He & _).
    apply Reraise_Panicked_inv in Hs. destruct Hs as (s1 & Hs & _).
    rewrite He in Hs. discriminate.
  - destruct HI as (Hn & Hfw & Hst).
    apply forwarded_nil_cons in Hfw. destruct Hfw as [Hp Hfw].
    destruct (@nofwd_handled st h p s Hn Hp) as (Hn' & Hok & Hst').
    rewrite Hok in Hs. inversion Hs; subst s'.
    split; [exact Hn'|]. split; [exact Hfw|].
    rewrite Hst', <- Hst. cbn [persisted filter].
    destruct (persists (h p)); [now rewrite <- app_assoc|now rewrite app_nil_r].
  - exfalso. destruct HI as (Hn & Hfw & Hst).
    apply forwarded_nil_cons in Hfw. destruct Hfw as [Hp Hfw].
    destruct (@nofwd_handled st h p s Hn Hp) as (_ & Hok & _).
    apply Reraise_Panicked_inv in Hs. destruct Hs as (s1 & Hs & _).
    rewrite Hok in Hs. discriminate.
  - destruct HI as (Hn & _). rewrite (@nofwd_Close st h s Hn) in Hs. discriminate.
  - destruct HI as (Hn & _ & Hst).
    apply Reraise_Panicked_inv in Hs. destruct Hs as (s1 & Hs & ->).
    rewrite (@nofwd_Close st h s Hn) in Hs. inversion Hs; subst s1.
    cbn [persisted filter] in Hst. rewrite app_nil_r in Hst.
    cbn [add_ev tr]. rewrite stored_of_app. cbn. rewrite app_nil_r.
    split; [|exact Hst].
    destruct Hn as (H1 & H2 & H3 & H4 & H5 & H6 & H7 & H8 & H9 &
                    sc & sto & H10 & H11 & H12 & H13).
    unfold nofwd_world.
    cbn [add_ev wr hp tr worker].
    rewrite !existsb_app, closes_of_app, fwd_of_app, recv_of_app, stored_of_app.
    rewrite H4, H5, H6, H7, H8. cbn. rewrite !app_nil_r.
    repeat (split; [assumption || reflexivity|]).
    exists sc, sto. repeat split; assumption.
  - exact HI.
  - destruct k as [ps0|ps0| | |]; cbn [Conc.pc Conc.world] in *.
    + destruct HI as [_ ->]. discriminate.
    + destruct HI as (Hn & Hfw & Hst).
      pose proof Hn as (_ & _ & _ & _ & _ & _ & _ & _ & _ &
                        sc & sto & Hsc & Hscl & Hsto & _).
      destruct (workerStep_Ok_inv s Hsto Hs)
        as [(c0 & p & q & Hc & Hb & ->)|(c0 & n & Hc & Hb & Hcl0 & Hg & ->)].
      * destruct (@nofwd_iterated st h s c0 sto p q Hn Hc Hb Hsto) as (Hn' & Hst' & _).
        split; [exact Hn'|]. split; [exact Hfw|]. now rewrite Hst'.
      * congruence.
    + exact HI.
    + exact HI.
    + now destruct Hk.
Qed.

Lemma nofwd_steps st h ps c c' :
  GetValue (XSync st) = false ->
  snd (open_result st) = None ->
  forwarded (Some st) h ps = [] ->
  nofwd_inv st h ps c -> Conc.steps c c' -> nofwd_inv st h ps c'.
Proof.
  intros Hx Ho Hnone HI Hs. induction Hs as [c|c1 c2 c3 H12 IH H23].
  - exact HI.
  - apply (@nofwd_step st h ps c2 c3 Hx Ho Hnone (IH HI) H23).
Qed.

Lemma nofwd_progress st h ps c :
  GetValue (XSync st) = false ->
  snd (open_result st) = None ->
  nofwd_inv st h ps c ->
  Conc.pc c <> Conc.WPanic ->
  exists c', Conc.step c c'.
Proof.
  intros Hx Ho HI Hnp. destruct c as [k s].
  unfold nofwd_inv in HI. cbn [Conc.pc Conc.world] in *.
  destruct k as [ps0|[|p ps0]| | |]; try contradiction; try congruence.
  - destruct HI as [-> ->].
    destruct (@nofwd_start st h Hx Ho) as (He & _).
    eexists. apply Conc.step_start. exact He.
  - destruct HI as (Hn & _).
    eexists. apply Conc.step_close_panic. unfold logger_Reraise.
    rewrite (@nofwd_Close st h s Hn). reflexivity.
  - destruct HI as (Hn & Hfw & _).
    apply forwarded_nil_cons in Hfw. destruct Hfw as [Hp _].
    destruct (@nofwd_handled st h p s Hn Hp) as (_ & Hok & _).
    destruct Hn as (_ & _ & _ & _ & _ & _ & _ & _ & Hwk &
                    sc & sto & Hsc & _ & Hsto & _).
    destruct (buf sc) as [|q qs] eqn:Hb.
    + eexists. apply Conc.step_handle; [exact Hok|].
      unfold Conc.fits. cbn [handled wr storeChan]. rewrite Hsc.
      destruct (persists (hp s p)); cbn [push_if option_map chan_push buf cap];
        rewrite Hb; cbn [app List.length]; lia.
    + eexists. apply Conc.step_worker with (k := Conc.WRun (p :: ps0));
        [discriminate|exact Hwk|].
      eapply workerStep_iterated; eassumption.
Qed.

Lemma nofwd_run st h ps :
  GetValue (XSync st) = false ->
  snd (open_result st) = None ->
  forwarded (Some st) h ps = [] ->
  forall rest s,
    nofwd_inv st h ps (Conc.mkConf (Conc.WRun rest) s) ->
    buf_of (storeChan (wr s)) = [] ->
    exists s', Conc.steps (Conc.mkConf (Conc.WRun rest) s)
                 (Conc.mkConf (Conc.WRun []) s').
Proof.
  intros Hx Ho Hnone rest.
  induction rest as [|p rest IH]; intros s HI Hb.
  - exists s. apply Conc.steps_refl.
  - pose proof HI as (Hn & Hfw & _). cbn [Conc.pc Conc.world] in Hn, Hfw.
    apply forwarded_nil_cons in Hfw. destruct Hfw as [Hp _].
    destruct (@nofwd_handled st h p s Hn Hp) as (Hn1 & Hok & _).
    pose proof Hn as (_ & _ & Hfl & _ & _ & _ & _ & _ & Hwk &
                      sc & sto & Hsc & _ & Hsto & _).
    rewrite Hsc in Hb. cbn [buf_of] in Hb.
    assert (Hstep1 : Conc.step (Conc.mkConf (Conc.WRun (p :: rest)) s)
                       (Conc.mkConf (Conc.WRun rest) (handled p s))).
    { apply Conc.step_handle; [exact Hok|].
      unfold Conc.fits. cbn [handled wr storeChan]. rewrite Hsc.
      destruct (persists (hp s p)); cbn [push_if option_map chan_push buf cap];
        rewrite Hb; cbn [app List.length]; lia. }
    pose proof (@nofwd_step st h ps _ _ Hx Ho Hnone HI Hstep1) as HI1.
    destruct (persists (hp s p)) eqn:Hper.
    + assert (Hc1 : storeChan (wr (handled p s)) = Some (chan_push sc p)).
      { cbn [handled wr storeChan]. now rewrite Hper, Hsc. }
      assert (Hb1 : buf (chan_push sc p) = p :: []).
      { cbn [chan_push buf]. now rewrite Hb. }
      assert (Hsto1 : store (wr (handled p s)) = Some sto) by exact Hsto.
      assert (Hstep2 : Conc.step (Conc.mkConf (Conc.WRun rest) (handled p s))
                         (Conc.mkConf (Conc.WRun rest)
                            (iterated (chan_push sc p) sto p (handled p s)))).
      { apply Conc.step_worker; [discriminate|exact Hwk|].
        eapply workerStep_iterated; eassumption. }
      pose proof (@nofwd_step st h ps _ _ Hx Ho Hnone HI1 Hstep2) as HI2.
      destruct (@nofwd_iterated st h (handled p s) (chan_push sc p) sto p []
                  Hn1 Hc1 Hb1 Hsto1) as (_ & _ & Hb2).
      destruct (IH _ HI2 Hb2) as (s' & Hs').
      exists s'. eapply steps_trans; [|exact Hs'].
      eapply Conc.steps_snoc; [apply steps_step; exact Hstep1|exact Hstep2].
    + assert (Hb1 : buf_of (storeChan (wr (handled p s))) = []).
      { cbn [handled wr storeChan]. now rewrite Hper, Hsc. }
      destruct (IH _ HI1 Hb1) as (s' & Hs').
      exists s'. eapply steps_trans; [apply steps_step; exact Hstep1|exact Hs'].
Qed.

(** X9.  A Writer built without [WithWriterFwdChannel], with settings that
    set up a store that opens, over an input in which no record passes
    the forwarding rule, in every interleaving of the Writer and the
    worker: the run goes on, step by step, until [Close] panics at
    [close(w.fwdChan)] on the nil channel, and some run gets there.
    [Do] never returns and [Close] never completes: the store channel is
    never closed, so the worker never leaves its loop and the store is
    never closed.  At the panic every record to be persisted has been
    queued, and each of them has been received by the worker or is still
    in the store channel. *)
Theorem no_fwdChan_run_panics_in_Close os st h ps :
  last_fwd None os = None ->
  last_settings None os = Some st ->
  GetValue (XSync st) = false ->
  snd (open_result st) = None ->
  forwarded (Some st) h ps = [] ->
  (forall c,
     Conc.steps (Conc.init (map apply_spec os) h ps) c ->
     let s := Conc.world c in
     Conc.pc c <> Conc.WWait /\ Conc.pc c <> Conc.WDone /\
     fwdChan (wr s) = None /\
     existsb is_closefwd (tr s) = false /\
     existsb is_closestore (tr s) = false /\
     closes_of (tr s) = 0 /\
     existsb is_return (tr s) = false /\
     worker s <> Exited /\
     (Conc.pc c = Conc.WPanic ->
        stored_of (tr s) = persisted h ps /\
        worker s = Ranging /\
        exists sc, storeChan (wr s) = Some sc /\ closed sc = false /\
                   persisted h ps = recv_of (tr s) ++ buf sc) /\
     (Conc.pc c <> Conc.WPanic -> exists c', Conc.step c c')) /\
  (exists c,
     Conc.steps (Conc.init (map apply_spec os) h ps) c /\
     Conc.pc c = Conc.WPanic).
Proof.
  intros Hnf Hst Hx Ho Hnone.
  unfold Conc.init. rewrite (initWorld_specs os h Hnf Hst).
  set (s0 := mkWorld (mkWriter (Some st) None None None 0%Z 0) h NotStarted []).
  assert (H0 : nofwd_inv st h ps (Conc.mkConf (Conc.WStart ps) s0))
    by (split; reflexivity).
  split.
  - intros c Hs.
    pose proof (@nofwd_steps st h ps _ _ Hx Ho Hnone H0 Hs) as HI.
    assert (Hprog : Conc.pc c <> Conc.WPanic -> exists c', Conc.step c c')
      by (now apply (@nofwd_progress st h ps c Hx Ho HI)).
    destruct c as [k s1]. unfold nofwd_inv in HI.
    cbn [Conc.pc Conc.world] in *.
    destruct k as [ps0|ps0| | |]; try contradiction.
    + destruct HI as [-> ->]. cbn.
      do 8 (split; [discriminate || reflexivity|]).
      split; [discriminate|exact Hprog].
    + destruct HI as ((H1 & H2 & H3 & H4 & H5 & H6 & H7 & H8 & H9 & _) & _).
      do 7 (split; [discriminate || assumption|]).
      split; [rewrite H9; discriminate|]. split; [discriminate|exact Hprog].
    + destruct HI as ((H1 & H2 & H3 & H4 & H5 & H6 & H7 & H8 & H9 &
                       sc & sto & H10 & H11 & H12 & H13) & Hall).
      do 7 (split; [discriminate || assumption|]).
      split; [rewrite H9; discriminate|]. split; [|exact Hprog].
      intros _. split; [exact Hall|]. split; [exact H9|].
      exists sc. repeat split; try assumption. now rewrite <- Hall.
  - destruct (@nofwd_start st h Hx Ho) as (He & Hn & Hst0).
    fold s0 in He, Hn, Hst0.
    set (s1 := started (add_ev (EvLog Info "writer: started") s0)) in *.
    assert (Hstep0 : Conc.step (Conc.mkConf (Conc.WStart ps) s0)
                       (Conc.mkConf (Conc.WRun ps) s1))
      by (apply Conc.step_start; exact He).
    pose proof (@nofwd_step st h ps _ _ Hx Ho Hnone H0 Hstep0) as H1.
    destruct (@nofwd_run st h ps Hx Ho Hnone ps s1 H1 eq_refl) as (s2 & Hs2).
    pose proof (@nofwd_steps st h ps _ _ Hx Ho Hnone H1 Hs2) as H2.
    destruct H2 as (Hn2 & _). cbn [Conc.pc Conc.world] in Hn2.
    exists (Conc.mkConf Conc.WPanic (add_ev (EvLog Fatal "panic") s2)).
    split; [|reflexivity].
    eapply Conc.steps_snoc;
      [eapply steps_trans; [apply steps_step; exact Hstep0|exact Hs2]|].
    apply Conc.step_close_panic. unfold logger_Reraise.
    rewrite (@nofwd_Close st h s2 Hn2). reflexivity.
Qed.

(** ** The number a forwarded record carries *)

(** C5.  The code forwards before it numbers.  A running Writer handles
    a data record [p] that is both forwarded and persisted by the debug
    line, then [sendRecord], then [storeRecord].  When [sendRecord] has
    handed the pointer to the forwarding channel, the record is as it
    arrived: its [Num] is the old one, the counter has not moved and
    nothing is queued for persistence.  Only then does [storeRecord]
    increment the counter, write it into the record and queue the
    pointer.  So the record handed to the forwarding channel carries, at
    the hand-off, a number that differs from the one queued for
    persistence whenever it did not arrive with that number already; the
    two agree only for a reader that looks after [handleRecord] is over,
    through the shared pointer. *)
Theorem forward_hands_off_before_numbering (s : World) (p : loc) :
  running s = true ->
  is_data (hp s p) = true ->
  forwards (settings (wr s)) (hp s p) = true ->
  GetLocal (GetControl (hp s p)) = false ->
  exists s1 s2,
    sendRecord p (add_ev (EvLog Debug "write: got a message") s) = Ok tt s1 /\
    buf_of (fwdChan (wr s1)) = buf_of (fwdChan (wr s)) ++ [p] /\
    hp s1 = hp s /\
    recordNum (wr s1) = recordNum (wr s) /\
    buf_of (storeChan (wr s1)) = buf_of (storeChan (wr s)) /\
    storeRecord p s1 = Ok tt s2 /\
    handleRecord p s = Ok tt s2 /\
    buf_of (fwdChan (wr s2)) = buf_of (fwdChan (wr s)) ++ [p] /\
    buf_of (storeChan (wr s2)) = buf_of (storeChan (wr s)) ++ [p] /\
    Num (hp s2 p) = int64_add (recordNum (wr s)) 1 /\
    (Num (hp s p) <> int64_add (recordNum (wr s)) 1 ->
     Num (hp s1 p) <> Num (hp s2 p)).
Proof.
  intros Hrun Hd Hfw Hl.
  destruct s as [[st fc sc sto n g] h k t].
  unfold running, forwarding, chan_open in Hrun.
  cbn [wr hp settings fwdChan storeChan tr recordNum] in *.
  destruct st as [st|]; [|discriminate].
  destruct fc as [[fcap fbuf [|]]|]; try discriminate.
  destruct sc as [[scap sbuf [|]]|]; try discriminate.
  unfold forwards, is_data, is_nil, GetControl in *.
  unfold_M.
  cbn [wr hp settings fwdChan storeChan tr recordNum worker store wg
       cap buf closed buf_of] in *.
  destruct (h p) as [num rt ctl] eqn:Hr.
  cbn [RecordType Control Num] in *.
  destruct st as [xs [[|]|] sf rid]; destruct ctl as [[[|] [|]]|];
    destruct rt as [[pl|f pl]|]; cbn in *; try discriminate;
    rewrite ?Hr; cbn;
    (eexists; eexists); (split; [reflexivity|]);
    cbn; do 3 (rewrite ?Hr; cbn);
    do 5 (split; [reflexivity|]);
    cbn; do 3 (rewrite ?Hr; cbn); rewrite ?upd_same; cbn [Num];
    do 4 (split; [reflexivity|]);
    intros Hne He; apply Hne; exact He.
Qed.

(** ** Records that fail in the worker *)

Lemma iter_all_prefix pre :
  forall s c sto rest,
    storeChan (wr s) = Some c ->
    buf c = pre ++ rest ->
    store (wr s) = Some sto ->
    exists c' ws,
      storeChan (wr (iter_all (List.length pre) s)) = Some c' /\
      buf c' = rest /\
      store (wr (iter_all (List.length pre) s)) =
        Some (written sto (frames_for (map (hp s) pre))) /\
      hp (iter_all (List.length pre) s) = hp s /\
      tr (iter_all (List.length pre) s) = tr s ++ ws.
Proof.
  induction pre as [|p pre IH]; intros s c sto rest Hc Hb Hsto.
  - exists c, []. cbn. rewrite app_nil_r. repeat split; assumption.
  - cbn [List.length iter_all].
    assert (Hi : iter1 s = iterated c sto p s).
    { unfold iter1. rewrite Hc, Hsto, Hb. reflexivity. }
    rewrite Hi.
    destruct (iterated_frames c p s Hsto) as (_ & I2 & I3 & I4).
    destruct (iterated_shape c p s Hsto) as (sto1 & ws1 & Heq & _).
    assert (Hb1 : buf (chan_pop c) = pre ++ rest)
      by (cbn [chan_pop buf]; now rewrite Hb).
    destruct (IH _ _ _ rest I4 Hb1 I2) as (c' & ws & J1 & J2 & J3 & J4 & J5).
    exists c', (EvRecv p :: ws1 ++ ws).
    split; [exact J1|]. split; [exact J2|]. split; [|split].
    + rewrite J3, I3. cbn [map].
      change (hp s p :: map (hp s) pre) with ([hp s p] ++ map (hp s) pre).
      now rewrite frames_for_app, written_app.
    + now rewrite J4.
    + rewrite J5, Heq. cbn [tr]. now rewrite <- app_assoc.
Qed.

Lemma iter_all_plus n m s : iter_all (n + m) s = iter_all m (iter_all n s).
Proof.
  revert s. induction n as [|n IH]; intros s; [reflexivity|].
  cbn [Nat.add iter_all]. apply IH.
Qed.

Lemma iter_all_trace n :
  forall s c sto,
    storeChan (wr s) = Some c ->
    List.length (buf c) = n ->
    store (wr s) = Some sto ->
    exists ws, tr (iter_all n s) = tr s ++ ws.
Proof.
  intros s c sto Hc Hn Hsto.
  destruct (@iter_all_shape n s c sto Hc Hn Hsto) as (sto' & ws & Heq & _).
  exists ws. now rewrite Heq.
Qed.

(** What one failing record leaves in the trace of the worker. *)
Lemma worker_logs_failure s c sto pre p post :
  storeChan (wr s) = Some c ->
  buf c = pre ++ p :: post ->
  store (wr s) = Some sto ->
  let s1 := iter_all (List.length (buf c)) s in
  let sto1 := written sto (frames_for (map (hp s) pre)) in
  match proto_Marshal (hp s p) with
  | inr _ => In (EvLog Error "writer: error marshalling record") (tr s1)
  | inl out =>
      In (EvWrite out (match snd (store_Write sto1 out) with
                       | None => true
                       | Some _ => false
                       end)) (tr s1) /\
      (snd (store_Write sto1 out) <> None ->
       In (EvLog Error "writer: error storing record") (tr s1))
  end.
Proof.
  intros Hc Hb Hsto s1 sto1. subst s1.
  rewrite Hb, length_app. cbn [List.length]. rewrite iter_all_plus.
  destruct (@iter_all_prefix pre s c sto (p :: post) Hc Hb Hsto)
    as (c' & ws & J1 & J2 & J3 & J4 & J5).
  set (s' := iter_all (List.length pre) s) in *.
  cbn [iter_all].
  assert (Hi : iter1 s' = iterated c' sto1 p s').
  { unfold iter1. now rewrite J1, J3, J2. }
  rewrite Hi.
  assert (Hc1 : storeChan (wr (iterated c' sto1 p s')) = Some (chan_pop c'))
    by (destruct (iterated_frames c' p s' J3) as (_ & _ & _ & H); exact H).
  assert (Hl1 : List.length (buf (chan_pop c')) = List.length post)
    by (cbn [chan_pop buf]; now rewrite J2).
  destruct (iterated_frames c' p s' J3) as (_ & I2 & _ & _).
  destruct (@iter_all_trace _ _ _ _ Hc1 Hl1 I2) as (ws2 & Ht).
  rewrite Ht. clear Ht. unfold iterated. rewrite J4.
  destruct (proto_Marshal (hp s p)) as [out|e].
  - destruct (store_Write sto1 out) as [sto2 [e|]]; cbn [snd add_ev tr].
    + split; [|intros _]; apply in_or_app; left; apply in_or_app.
      * left. apply in_or_app. right. now left.
      * right. now left.
    + split; [|intros H; now destruct H].
      apply in_or_app; left; apply in_or_app. right. now left.
  - cbn [add_ev tr]. apply in_or_app; left; apply in_or_app. right. now left.
Qed.

(** The frames a returning [Do] has handed to the store. *)
Lemma Do_frames fc st h ps :
  closed fc = false ->
  GetValue (XSync st) = false ->
  snd (open_result st) = None ->
  NoDup (persisted h ps) ->
  (Z.of_nat (List.length (persisted h ps)) < 2 ^ 63)%Z ->
  exists s',
    Do ps (initWorld [WithWriterFwdChannel fc; WithWriterSettings st] h)
      = Ok tt s' /\
    submitted (tr s') = frames_for (stamp h 0 (persisted h ps)) /\
    store (wr s') =
      Some (fst (store_Close
                   (written (fst (open_result st))
                      (frames_for (stamp h 0 (persisted h ps)))))) /\
    map (hp s') (persisted h ps) = stamp h 0 (persisted h ps).
Proof.
  intros Hcl Hx Ho Hnd Hlen.
  set (s0 := initWorld [WithWriterFwdChannel fc; WithWriterSettings st] h).
  set (s1 := add_ev (EvLog Info "writer: started") s0).
  assert (H0 : settings (wr s0) = Some st) by reflexivity.
  rewrite (Do_eq ps s0 H0).
  destruct (startBlock_cases s0 H0) as [[Hx' He]|[(_ & _ & He)|(_ & Ho' & He)]];
    try congruence.
  unfold logger_Reraise. rewrite He. fold s1.
  assert (Hf1 : forwarding s1 = true).
  { unfold forwarding, chan_open. cbn. now rewrite Hcl. }
  pose proof (started_running s1 Hf1) as Hrun.
  set (s2 := handled_all ps (started s1)).
  assert (Hrun2 : running s2 = true) by (subst s2; now rewrite handled_all_running).
  unfold bind at 1. rewrite (forRange_running ps (started s1) Hrun). fold s2.
  unfold bind at 1.
  rewrite (Close_closing s2 (running_forwarding s2 Hrun2)
             (or_intror (running_store_open s2 Hrun2))).
  destruct (handled_all_frame ps (started s1)) as (Fst & Fwg & Fwk).
  pose proof (handled_all_stored ps (started s1) (running_store_open _ Hrun)) as Hsb.
  pose proof (handled_all_trace ps (started s1)) as Htr.
  pose proof (@handled_all_stamp ps (started s1)) as Hstamp.
  fold s2 in Fst, Fwg, Fwk, Hsb, Htr, Hstamp.
  cbn [started wr hp tr storeChan fwdChan settings recordNum s1 add_ev s0
       initWorld buf_of make_chan buf app] in Hsb, Hstamp.
  change (recordNum (NewWriter [WithWriterFwdChannel fc; WithWriterSettings st]))
    with 0%Z in Hstamp.
  specialize (Hstamp ltac:(lia) ltac:(lia) Hnd).
  pose proof (running_store_open s2 Hrun2) as Hso.
  destruct (storeChan (wr s2)) as [sc|] eqn:Hsc; [|discriminate].
  cbn [buf_of] in Hsb.
  destruct (@wg_Wait_exited (closing s2) (chan_close sc) (fst (opening s1)))
    as (sto1 & Hs1 & Hwait).
  { cbn. now rewrite Hsc. }
  { reflexivity. }
  { cbn. now rewrite Fst. }
  { cbn. now rewrite Fwg. }
  { cbn. now rewrite Fwk. }
  destruct (@iter_all_frames (List.length (buf (chan_close sc))) (closing s2)
              (chan_close sc) (fst (opening s1)))
    as (J1 & J2 & J3).
  { cbn. now rewrite Hsc. }
  { reflexivity. }
  { cbn. now rewrite Fst. }
  unfold bind at 1. rewrite Hwait. unfold emit.
  eexists. split; [reflexivity|].
  cbn [add_ev exited wr hp tr store].
  rewrite !submitted_app, J1, J3.
  rewrite J2 in Hs1. injection Hs1 as <-.
  cbn [closing hp tr chan_close buf]. rewrite Hsc, Hsb, Hstamp.
  rewrite !submitted_app, Htr, !submitted_app, records_not_submitted.
  rewrite (opening_open_result s1 H0).
  split; [|split; reflexivity].
  destruct (snd (store_Close _)); cbn; now rewrite ?app_nil_r.
Qed.

Lemma persisted_without h pre p post :
  NoDup (persisted h (pre ++ p :: post)) ->
  (Z.of_nat (List.length (persisted h (pre ++ p :: post))) < 2 ^ 63)%Z ->
  NoDup (persisted h (pre ++ post)) /\
  (Z.of_nat (List.length (persisted h (pre ++ post))) < 2 ^ 63)%Z.
Proof.
  rewrite !persisted_app. cbn [persisted filter]. fold (persisted h post).
  destruct (persists (h p)).
  - intros Hnd Hlen. split; [now apply NoDup_remove_1 in Hnd|].
    rewrite length_app in *. cbn [List.length] in Hlen. lia.
  - intros Hnd Hlen. split; assumption.
Qed.

(** C8, as the code has it.  Failures of single records are logged, not
    raised, and the work goes on; but a record that fails in the worker
    has been counted.  (1) A record with a nil payload variant met by the
    running Writer leaves two log lines and nothing else: the loop over
    the whole input ends in the world it ends in without that record,
    log lines apart.  (2) The worker, finding a record [p] in its queue,
    goes through the whole queue without panicking and without writing
    to a record: when [p] does not serialise it logs the error and hands
    nothing to the store for it; when it serialises, its frame is handed
    to [store.Write] once, and when that write fails the error is logged;
    in either case every record queued before and after [p] that
    serialises is handed to [store.Write], in order, the later ones onto
    the store as the call for [p] left it.  (3) A persisted record keeps
    the sequence number it was given, whatever the worker makes of it:
    [Do] returns, and the records persisted after [p] are written with
    the numbers that follow the number of [p], one more than in the run
    without [p]. *)
Theorem failing_records_are_passed_over :
  (forall s pre p post,
     running s = true ->
     is_nil (hp s p) = true ->
     exists s0 s1 s2,
       forRange pre handleRecord s = Ok tt s0 /\
       handleRecord p s0 =
         Ok tt (add_ev (EvLog Error "nil record type")
                  (add_ev (EvLog Debug "write: got a message") s0)) /\
       forRange (pre ++ p :: post) handleRecord s = Ok tt s1 /\
       forRange (pre ++ post) handleRecord s = Ok tt s2 /\
       same_but_log s1 s2) /\
  (forall s c sto pre p post,
     storeChan (wr s) = Some c ->
     buf c = pre ++ p :: post ->
     store (wr s) = Some sto ->
     let fpre := frames_for (map (hp s) pre) in
     let fpost := frames_for (map (hp s) post) in
     exists s1,
       workerRange (List.length (buf c)) s = Ok tt s1 /\
       recv_of (tr s1) = recv_of (tr s) ++ buf c /\
       hp s1 = hp s /\
       match proto_Marshal (hp s p) with
       | inr _ =>
           submitted (tr s1) = submitted (tr s) ++ fpre ++ fpost /\
           store (wr s1) = Some (written sto (fpre ++ fpost)) /\
           In (EvLog Error "writer: error marshalling record") (tr s1)
       | inl out =>
           submitted (tr s1) = submitted (tr s) ++ fpre ++ out :: fpost /\
           store (wr s1) =
             Some (written (fst (store_Write (written sto fpre) out)) fpost) /\
           (snd (store_Write (written sto fpre) out) <> None ->
            In (EvWrite out false) (tr s1) /\
            In (EvLog Error "writer: error storing record") (tr s1))
       end) /\
  (forall fc st h pre p post,
     closed fc = false ->
     GetValue (XSync st) = false ->
     snd (open_result st) = None ->
     NoDup (persisted h (pre ++ p :: post)) ->
     (Z.of_nat (List.length (persisted h (pre ++ p :: post))) < 2 ^ 63)%Z ->
     persists (h p) = true ->
     let n := Z.of_nat (List.length (persisted h pre)) in
     exists s1 s2,
       Do (pre ++ p :: post)
         (initWorld [WithWriterFwdChannel fc; WithWriterSettings st] h)
         = Ok tt s1 /\
       Do (pre ++ post)
         (initWorld [WithWriterFwdChannel fc; WithWriterSettings st] h)
         = Ok tt s2 /\
       submitted (tr s1) =
         frames_for (stamp h 0 (persisted h pre)) ++
         frames_for [mkRecord (n + 1) (RecordType (h p)) (Control (h p))] ++
         frames_for (stamp h (n + 1) (persisted h post)) /\
       submitted (tr s2) =
         frames_for (stamp h 0 (persisted h pre)) ++
         frames_for (stamp h n (persisted h post))).
Proof.
  split; [|split].
  - intros s pre p post Hrun Hnil.
    destruct (forRange_split s pre p post Hrun) as (E1 & E2 & E3 & E4).
    set (s0 := handled_all pre s) in *.
    assert (Hnil0 : is_nil (hp s0 p) = true).
    { subst s0. clear - Hnil. revert s Hnil.
      induction pre as [|x pre IH]; intros s Hnil; [exact Hnil|].
      rewrite handled_all_cons. apply IH. now rewrite handled_is_nil. }
    destruct (handled_nil p s0 Hnil0) as (Nw & Nh & Nk & Nt).
    exists s0, (handled_all post (handled p s0)), (handled_all post s0).
    split; [|split; [|split; [|split]]].
    + exact E1.
    + rewrite E2. f_equal. unfold add_ev. cbn [wr hp worker tr].
      destruct (handled p s0) as [w' h' k' t']. cbn in *. subst.
      now rewrite <- app_assoc.
    + exact E4.
    + rewrite forRange_app, E1. apply forRange_running.
      subst s0. now rewrite handled_all_running.
    + apply handled_all_same_but_log. repeat split; try assumption.
      rewrite Nt, nolog_app. cbn. now rewrite app_nil_r.
  - intros s c sto pre p post Hc Hb Hsto fpre fpost. subst fpre fpost.
    pose proof (@worker_logs_failure s c sto pre p post Hc Hb Hsto) as Hlog.
    cbn zeta in Hlog.
    remember (List.length (buf c)) as N eqn:HN. symmetry in HN.
    exists (iter_all N s).
    split; [apply (@workerRange_iter_all _ s c Hc HN); congruence|].
    destruct (@iter_all_frames _ s c sto Hc HN Hsto) as (J1 & J2 & J3).
    destruct (@iter_all_shape _ s c sto Hc HN Hsto)
      as (sto1 & ws & Heq & _ & _ & Wr & _).
    split; [rewrite Heq; cbn [tr]; now rewrite recv_of_app, Wr|].
    split; [exact J3|].
    rewrite Hb, map_app in J1, J2. cbn [map] in J1, J2.
    change (hp s p :: map (hp s) post)
      with ([hp s p] ++ map (hp s) post) in J1, J2.
    rewrite !frames_for_app in J1, J2.
    assert (Hfp : frames_for [hp s p] =
                  match proto_Marshal (hp s p) with
                  | inl out => [out]
                  | inr _ => []
                  end)
      by (unfold frames_for; cbn [flat_map]; apply app_nil_r).
    rewrite Hfp in J1, J2. clear Hfp.
    destruct (proto_Marshal (hp s p)) as [out|e].
    + cbn [app] in J1, J2. split; [exact J1|]. split.
      * rewrite J2, written_app. cbn [app]. unfold written at 1.
        cbn [fold_left]. reflexivity.
      * intros Hne. destruct Hlog as [Hw Hl].
        split; [|now apply Hl].
        destruct (snd (store_Write (written sto (frames_for (map (hp s) pre))) out));
          [exact Hw|now destruct Hne].
    + cbn [app] in J1, J2. split; [exact J1|]. split; [exact J2|exact Hlog].
  - intros fc st h pre p post Hcl Hx Ho Hnd Hlen Hp n.
    destruct (@persisted_without h pre p post Hnd Hlen) as [Hnd2 Hlen2].
    destruct (@Do_frames fc st h (pre ++ p :: post) Hcl Hx Ho Hnd Hlen)
      as (s1 & E1 & S1 & _).
    destruct (@Do_frames fc st h (pre ++ post) Hcl Hx Ho Hnd2 Hlen2)
      as (s2 & E2 & S2 & _).
    exists s1, s2. split; [exact E1|]. split; [exact E2|].
    rewrite S1, S2, !persisted_app. cbn [persisted filter].
    fold (persisted h post). rewrite Hp.
    change (p :: persisted h post) with ([p] ++ persisted h post).
    rewrite !stamp_app, !frames_for_app. cbn [stamp List.length].
    fold n. rewrite !Z.add_0_l.
    replace (n + Z.of_nat 1)%Z with (n + 1)%Z by lia.
    split; reflexivity.
Qed.

(** ** Interleaved runs: what the worker has done with what it received *)

Lemma attempts_app t1 t2 : attempts (t1 ++ t2) = attempts t1 + attempts t2.
Proof. unfold attempts. now rewrite filter_app, length_app. Qed.

Lemma attempts_record st h p : attempts (record_events st h p) = 0.
Proof.
  unfold record_events.
  destruct (is_nil (h p)), (forwards st (h p)), (persists (h p)); reflexivity.
Qed.

Lemma attempts_iterated c sto p s :
  store (wr s) = Some sto ->
  attempts (tr (iterated c sto p s)) = attempts (tr s) + 1 /\
  recv_of (tr (iterated c sto p s)) = recv_of (tr s) ++ [p] /\
  worker (iterated c sto p s) = worker s.
Proof.
  intros Hst. unfold iterated.
  destruct (proto_Marshal (hp s p)) as [out|e].
  - destruct (store_Write sto out) as [sto' [e|]]; cbn [snd fst add_ev set_wr tr worker];
      rewrite !attempts_app, !recv_of_app; cbn; rewrite ?app_nil_r;
      repeat split; lia.
  - cbn [add_ev set_wr tr worker].
    rewrite !attempts_app, !recv_of_app. cbn. rewrite ?app_nil_r.
    repeat split; lia.
Qed.

Lemma drain_same st s s' :
  worker s' = worker s ->
  store (wr s') = store (wr s) ->
  attempts (tr s') = attempts (tr s) ->
  recv_of (tr s') = recv_of (tr s) ->
  submitted (tr s') = submitted (tr s) ->
  drain_world st s -> drain_world st s'.
Proof.
  intros H1 H2 H3 H4 H5 HD. unfold drain_world in *.
  now rewrite H1, H2, H3, H4, H5.
Qed.

Lemma drain_iterated st c sto p s :
  store (wr s) = Some sto ->
  worker s = Ranging ->
  drain_world st s -> drain_world st (iterated c sto p s).
Proof.
  intros Hsto Hw [D1 D2]. rewrite Hw in D2.
  destruct (attempts_iterated c p s Hsto) as (A1 & A2 & A3).
  destruct (iterated_frames c p s Hsto) as (I1 & I2 & _ & _).
  unfold drain_world. rewrite A1, A2, A3, Hw, I1, I2, length_app, D1.
  split; [reflexivity|].
  rewrite Hsto in D2. injection D2 as ->. now rewrite written_app.
Qed.

Lemma drain_exited st sto n s :
  store (wr s) = Some sto ->
  worker s = Ranging ->
  drain_world st s -> drain_world st (exited sto n s).
Proof.
  intros Hsto Hw [D1 D2]. rewrite Hw in D2.
  rewrite Hsto in D2. injection D2 as ->.
  unfold drain_world. cbn [exited worker wr store tr].
  rewrite attempts_app, recv_of_app, submitted_app.
  destruct (snd (store_Close _)); cbn; rewrite ?app_nil_r, ?Nat.add_0_r;
    split; [exact D1|reflexivity|exact D1|reflexivity].
Qed.

Lemma drain_step fc st h ps c c' :
  closed fc = false ->
  Inv fc st h ps c ->
  drain_world st (Conc.world c) /\ drain_pc st h ps c ->
  Conc.step c c' ->
  drain_world st (Conc.world c') /\ drain_pc st h ps c'.
Proof.
  intros Hcl HI [HD HP] Hstep.
  pose proof (@Inv_step fc st h ps c c' Hcl HI Hstep) as HI'.
  assert (Hab : forall s,
            s = aborted (initWorld [WithWriterFwdChannel fc; WithWriterSettings st] h) ->
            drain_world st s /\
            (forall q, RecordType (hp s q) = RecordType (h q) /\
                       Control (hp s q) = Control (h q)) /\ True).
  { intros s ->. split; [split; reflexivity|]. split; [|exact I].
    intros q. split; reflexivity. }
  destruct Hstep as [ps0 s s' Hs|ps0 s s' Hs|p ps0 s s' Hs Hfit|p ps0 s s' Hs
                    |s s' Hs|s s' Hs|s Hg|k s s' Hk Hw Hs];
    unfold Inv in HI, HI'; unfold drain_pc in *;
    cbn [Conc.pc Conc.world] in *.
  - destruct HI as [-> ->].
    set (s0 := initWorld [WithWriterFwdChannel fc; WithWriterSettings st] h) in *.
    assert (H0 : settings (wr s0) = Some st) by reflexivity.
    destruct (startBlock_cases s0 H0) as [[Hx He]|[(Hx & Ho & He)|(Hx & Ho & He)]];
      rewrite He in Hs; inversion Hs; subst s'.
    + split; [split; reflexivity|exact HP].
    + split; [|exact HP]. split; [reflexivity|].
      cbn [started worker wr store tr].
      rewrite (opening_open_result _ (st := st)); reflexivity.
  - destruct HI' as (_ & _ & Hw). now apply Hab.
  - destruct HI as [(Hset & _) _]. destruct HP as (Hfl & Hst & Hfw).
    pose proof (handleRecord_Ok_inv p s Hs) as ->.
    assert (Hpp : persists (hp s p) = persists (h p))
      by (destruct (Hfl p); now apply persists_flags).
    assert (Hfp : forwards (settings (wr s)) (hp s p) = forwards (Some st) (h p))
      by (rewrite Hset; destruct (Hfl p); now apply forwards_flags).
    split; [|split; [|split]].
    + apply drain_same with s; try reflexivity; try assumption;
        cbn [handled tr];
        rewrite ?attempts_app, ?recv_of_app, ?submitted_app,
          ?attempts_record, ?submitted_record, ?app_nil_r;
        try lia; try reflexivity.
      destruct (events_quiet (settings (wr s)) (hp s) p) as (-> & _).
      apply app_nil_r.
    + intros q. destruct (handled_flags p s q) as [-> ->]. apply Hfl.
    + cbn [handled tr]. rewrite stored_of_app, stored_of_record, Hpp, <- Hst.
      cbn [persisted filter].
      destruct (persists (h p)); [now rewrite <- app_assoc|now rewrite app_nil_r].
    + cbn [handled tr]. rewrite fwd_of_app, fwd_of_record, Hfp, <- Hfw.
      cbn [forwarded filter].
      destruct (forwards (Some st) (h p));
        [now rewrite <- app_assoc|now rewrite app_nil_r].
  - destruct HI' as (_ & _ & Hw). now apply Hab.
  - pose proof (Close_Ok_inv s Hs) as ->.
    destruct HP as (Hfl & Hst & Hfw).
    cbn [persisted forwarded filter] in Hst, Hfw.
    rewrite app_nil_r in Hst, Hfw.
    assert (Hz : stored_of (tr (closing s)) = stored_of (tr s) /\
                 fwd_of (tr (closing s)) = fwd_of (tr s) /\
                 recv_of (tr (closing s)) = recv_of (tr s) /\
                 attempts (tr (closing s)) = attempts (tr s) /\
                 submitted (tr (closing s)) = submitted (tr s)).
    { cbn [closing tr].
      rewrite stored_of_app, fwd_of_app, recv_of_app, attempts_app, submitted_app.
      destruct (storeChan (wr s)); cbn; rewrite !app_nil_r; repeat split; lia. }
    destruct Hz as (Z1 & Z2 & Z3 & Z4 & Z5).
    split; [|split; [exact Hfl|split; congruence]].
    apply drain_same with s; try reflexivity; assumption.
  - destruct HI' as (_ & _ & Hw). now apply Hab.
  - destruct HP as (Hfl & Hst & Hfw).
    split; [|split; [exact Hfl|split]].
    + apply drain_same with s; try reflexivity; try assumption;
        cbn [add_ev tr];
        rewrite ?attempts_app, ?recv_of_app, ?submitted_app; cbn;
        rewrite ?app_nil_r; try lia; reflexivity.
    + cbn [add_ev tr]. rewrite stored_of_app. cbn. now rewrite app_nil_r.
    + cbn [add_ev tr]. rewrite fwd_of_app. cbn. now rewrite app_nil_r.
  - assert (Hsto : exists sto, store (wr s) = Some sto).
    { destruct k as [ps0|ps0| | |]; cbn [Conc.pc Conc.world] in *.
      - destruct HI as [_ ->]. discriminate.
      - destruct HI as [(_ & _ & _ & _ & Hch & _) _]. rewrite Hw in Hch.
        destruct (storeChan (wr s)); [|now destruct Hch].
        destruct Hch as (_ & H2 & _).
        destruct (store (wr s)) as [sto|]; [now exists sto|now destruct H2].
      - destruct HI as [(_ & _ & _ & _ & Hch & _) _]. rewrite Hw in Hch.
        destruct (storeChan (wr s)); [|now destruct Hch].
        destruct Hch as (_ & H2 & _).
        destruct (store (wr s)) as [sto|]; [now exists sto|now destruct H2].
      - destruct HI as [(_ & _ & _ & _ & Hch & _) _]. rewrite Hw in Hch.
        destruct (storeChan (wr s)); [|now destruct Hch].
        destruct Hch as (_ & H2 & _).
        destruct (store (wr s)) as [sto|]; [now exists sto|now destruct H2].
      - now destruct Hk. }
    destruct Hsto as [sto Hsto].
    destruct HP as (Hfl & HP).
    destruct (workerStep_Ok_inv s Hsto Hs)
      as [(c0 & p & q & _ & _ & ->)|(c0 & n & _ & _ & _ & _ & ->)].
    + split; [now apply drain_iterated|].
      destruct (iterated_frames c0 p s Hsto) as (_ & _ & I3 & _).
      destruct (iterated_shape c0 p s Hsto) as (sto1 & ws & Heq & Wf & Ws & _).
      rewrite I3. split; [exact Hfl|].
      assert (Hz : stored_of (tr (iterated c0 sto p s)) = stored_of (tr s) /\
                   fwd_of (tr (iterated c0 sto p s)) = fwd_of (tr s)).
      { rewrite Heq. cbn [tr].
        change (EvRecv p :: ws) with ([EvRecv p] ++ ws).
        rewrite !stored_of_app, !fwd_of_app, Ws, Wf. cbn.
        now rewrite !app_nil_r. }
      destruct Hz as [-> ->]. exact HP.
    + split; [now apply drain_exited|].
      split; [exact Hfl|].
      assert (Hz : stored_of (tr (exited sto n s)) = stored_of (tr s) /\
                   fwd_of (tr (exited sto n s)) = fwd_of (tr s)).
      { cbn [exited tr]. rewrite stored_of_app, fwd_of_app.
        destruct (snd (store_Close sto)); cbn; now rewrite !app_nil_r. }
      destruct Hz as [-> ->]. exact HP.
Qed.

Lemma drain_steps fc st h ps c :
  closed fc = false ->
  Conc.steps (Conc.init [WithWriterFwdChannel fc; WithWriterSettings st] h ps) c ->
  drain_world st (Conc.world c) /\ drain_pc st h ps c.
Proof.
  intros Hcl Hs.
  assert (HK : (drain_world st (Conc.world c) /\ drain_pc st h ps c) /\
               Inv fc st h ps c).
  { remember (Conc.init [WithWriterFwdChannel fc; WithWriterSettings st] h ps)
      as c0 eqn:Hc0.
    induction Hs as [c|c1 c2 c3 H12 IH H23].
    - subst c. split; [|unfold Inv, Conc.init; cbn; now split].
      split; [split; reflexivity|]. unfold drain_pc. cbn.
      split; [intros q; split; reflexivity|]. split; reflexivity.
    - destruct (IH Hc0) as [HK HI]. split.
      + eapply drain_step; eassumption.
      + eapply Inv_step; eassumption. }
  exact (proj1 HK).
Qed.

Lemma frames_steps fc st h ps c :
  closed fc = false ->
  NoDup (persisted h ps) ->
  (Z.of_nat (List.length (persisted h ps)) < 2 ^ 63)%Z ->
  Conc.steps (Conc.init [WithWriterFwdChannel fc; WithWriterSettings st] h ps) c ->
  frames_world h (Conc.world c) /\ frames_pc h ps c.
Proof.
  intros Hcl Hnd Hlen Hs.
  assert (HK : (frames_world h (Conc.world c) /\ frames_pc h ps c) /\
               Inv fc st h ps c).
  { remember (Conc.init [WithWriterFwdChannel fc; WithWriterSettings st] h ps)
      as c0 eqn:Hc0.
    induction Hs as [c|c1 c2 c3 H12 IH H23].
    - subst c. split; [|unfold Inv, Conc.init; cbn; now split].
      split; [|reflexivity]. unfold frames_world. cbn. repeat split.
    - destruct (IH Hc0) as [HK HI]. split.
      + eapply frames_step; eassumption.
      + eapply Inv_step; eassumption. }
  exact (proj1 HK).
Qed.

(** C9.  Take any state the two goroutines can reach, in any interleaving,
    from a Writer built with an open forwarding channel.  Once the inbound
    channel has closed and [Close] has run (the Writer is at [wg.Wait()] or
    [Do] has returned), the forwarding channel is closed and holds
    everything forwarded, the store channel, if there is one, is closed,
    and the forwarding channel was closed before it.  Every record ever
    queued is either still in the store channel or has been received by the
    worker, and every record received has been serialised and handed to
    [store.Write], or logged as not serialisable: none is dropped
    unattended.  [Do] returns control only after the drain: when it has
    returned, every record of the input that passes the forwarding rule
    has been sent on the forwarding channel and every record to be
    persisted has been queued, received and attended to by the worker;
    with a store channel, the channel is empty, the worker has exited and
    the store is the opened one after the writes the worker made and one
    [Close], made after the store channel was closed and before [Do]
    returned; and when the persisted records are distinct objects, fewer
    than 2^63, the frames handed to [store.Write] are their
    serialisations, numbered 1, 2, 3, ... in arrival order.  When the
    store is set up and opens, every run goes on, one step shorter by the
    variant each time, until [Do] has returned.

    The Writer reports that it is closed by returning from [Do]: that is
    what hands control back to its caller.  The line "writer: closed"
    that [Close] logs is written before [wg.Wait()] and is not that
    report. *)
Theorem drain_before_return fc st h ps c :
  closed fc = false ->
  Conc.steps (Conc.init [WithWriterFwdChannel fc; WithWriterSettings st] h ps) c ->
  let s := Conc.world c in
  (Conc.pc c = Conc.WWait \/ Conc.pc c = Conc.WDone ->
     (exists fc', fwdChan (wr s) = Some fc' /\ closed fc' = true /\
                  buf fc' = buf fc ++ fwd_of (tr s)) /\
     (forall sc, storeChan (wr s) = Some sc ->
                 closed sc = true /\
                 stored_of (tr s) = recv_of (tr s) ++ buf sc) /\
     Conc.precedes is_closefwd is_closestore (tr s)) /\
  (Conc.pc c = Conc.WDone ->
     existsb is_return (tr s) = true /\
     forall sc, storeChan (wr s) = Some sc ->
       buf sc = [] /\
       recv_of (tr s) = stored_of (tr s) /\
       worker s = Exited /\
       closes_of (tr s) = 1 /\
       Conc.precedes is_closestore is_storeclose (tr s) /\
       Conc.precedes is_storeclose is_return (tr s)) /\
  (GetValue (XSync st) = false -> snd (open_result st) = None ->
     (Conc.pc c <> Conc.WDone -> exists c', Conc.step c c') /\
     (forall c', Conc.step c c' -> Conc.measure c' < Conc.measure c) /\
     (exists c', Conc.steps c c' /\ Conc.pc c' = Conc.WDone)) /\
  (attempts (tr s) = List.length (recv_of (tr s)) /\
   (worker s = Ranging ->
      store (wr s) =
        Some (written (fst (open_result st)) (submitted (tr s))))) /\
  (Conc.pc c = Conc.WDone ->
     fwd_of (tr s) = forwarded (Some st) h ps /\
     stored_of (tr s) = persisted h ps /\
     recv_of (tr s) = persisted h ps /\
     attempts (tr s) = List.length (persisted h ps) /\
     (forall sc, storeChan (wr s) = Some sc ->
        store (wr s) =
          Some (fst (store_Close
                       (written (fst (open_result st)) (submitted (tr s)))))) /\
     (NoDup (persisted h ps) ->
      (Z.of_nat (List.length (persisted h ps)) < 2 ^ 63)%Z ->
      submitted (tr s) = frames_for (stamp h 0 (persisted h ps)))).
Proof.
  intros Hcl Hs s. pose proof (Inv_steps Hcl Hs) as HI.
  assert (Hlate : Conc.pc c = Conc.WWait \/ Conc.pc c = Conc.WDone ->
                  inv_world fc st s /\
                  existsb is_closefwd (tr s) = true /\
                  (storeChan (wr s) <> None ->
                   existsb is_closestore (tr s) = true)).
  { intros Hpc. unfold Inv, inv_pc in HI. subst s.
    destruct Hpc as [Hpc|Hpc]; rewrite Hpc in HI;
      destruct HI as (Hw & H1 & H2);
      (split; [exact Hw|split; [exact H1|apply H2]]). }
  split; [|split; [|split; [|split]]].
  - intros Hpc. destruct (Hlate Hpc) as (Hw & Hcf & Hcs).
    destruct Hw as (_ & (fc' & Hfc & Hfb & Hfcl) & Hq & _ & Hch & _ & Ho1 & _).
    split; [|split].
    + exists fc'. repeat split; congruence.
    + intros sc Hsc. rewrite Hsc in *. cbn in Hq.
      destruct Hch as (H1 & _). split; [|exact Hq].
      rewrite H1. apply Hcs. discriminate.
    + exact Ho1.
  - intros Hpc. destruct (Hlate (or_intror Hpc)) as (Hw & Hcf & Hcs).
    unfold Inv, inv_pc in HI. rewrite Hpc in HI.
    destruct HI as (_ & _ & _ & Hg & Hret). fold s in Hg, Hret.
    split; [exact Hret|].
    intros sc Hsc.
    destruct Hw as (_ & _ & Hq & _ & Hch & Hwk & _ & Ho2 & Ho3).
    rewrite Hsc in *. destruct Hch as (_ & _ & _ & Hns & _).
    destruct (worker s) eqn:Hwo.
    + now destruct Hns.
    + destruct Hwk as [Hwk _]. congruence.
    + destruct Hwk as (_ & Hc1 & Hb & _). cbn in Hb, Hq.
      rewrite Hb, app_nil_r in Hq.
      repeat split; try assumption; try congruence.
      apply Ho3. discriminate.
  - intros Hx Ho. split; [|split].
    + intros Hnd. apply (@progress fc st h ps c); try assumption.
      intros Hp. unfold Inv in HI. rewrite Hp in HI.
      destruct HI as (_ & HI & _). congruence.
    + intros c' Hstep. eapply measure_step; eassumption.
    + destruct (@run_to_end fc st h ps Hcl Hx (S (Conc.measure c)) c)
        as (c' & Hcs & [Hd|Hp]); [lia|assumption| |].
      * now exists c'.
      * exfalso.
        pose proof (Inv_steps Hcl (steps_trans Hs Hcs)) as HI'.
        unfold Inv in HI'. rewrite Hp in HI'.
        destruct HI' as (_ & HI' & _). congruence.
  - destruct (@drain_steps fc st h ps c Hcl Hs) as [[D1 D2] _]. fold s in D1, D2.
    split; [exact D1|]. intros Hw. now rewrite Hw in D2.
  - intros Hpc.
    destruct (@drain_steps fc st h ps c Hcl Hs) as [[D1 D2] (_ & DP)].
    fold s in D1, D2. rewrite Hpc in DP. fold s in DP. destruct DP as [Dst Dfw].
    destruct (Hlate (or_intror Hpc)) as (Hw & _ & _).
    unfold Inv, inv_pc in HI. rewrite Hpc in HI.
    destruct HI as (_ & _ & _ & Hg & _). fold s in Hg.
    destruct Hw as (_ & _ & Hq & _ & Hch & Hwk & _).
    assert (Hbuf : buf_of (storeChan (wr s)) = [] /\
                   (forall sc, storeChan (wr s) = Some sc -> worker s = Exited)).
    { destruct (storeChan (wr s)) as [sc|]; [|split; [reflexivity|discriminate]].
      destruct Hch as (_ & _ & _ & Hns & _).
      destruct (worker s).
      - now destruct Hns.
      - destruct Hwk as [Hwk _]. rewrite Hg in Hwk. discriminate.
      - destruct Hwk as (_ & _ & Hb & _). split; [exact Hb|reflexivity]. }
    destruct Hbuf as [Hb Hex]. rewrite Hb, app_nil_r in Hq.
    assert (Hr : recv_of (tr s) = persisted h ps) by congruence.
    split; [exact Dfw|]. split; [exact Dst|]. split; [exact Hr|].
    split; [now rewrite D1, Hr|]. split.
    + intros sc Hsc. rewrite (Hex sc Hsc) in D2. exact D2.
    + intros Hnd Hlen.
      destruct (@frames_steps fc st h ps c Hcl Hnd Hlen Hs)
        as [(_ & _ & F3 & F4) _]. fold s in F3, F4.
      now rewrite F4, Hr, <- Dst, F3.
Qed.

End Proofs.

(** * The theorems at work on concrete runs *)

(** C1 at the scenario: D, the fourth record and the second persisted one,
    is given number 2, and the store channel ends with A and D. *)
Lemma sequence_numbers_witness :
  running runWorld = true /\
  recordNum (wr runWorld) = 0%Z /\
  (Z.of_nat (List.length ([0; 1; 2] ++ 3 :: [])) < 2 ^ 63)%Z /\
  exists s1 s2 s3,
    forRange [0; 1; 2] handleRecord runWorld = Ok tt s1 /\
    handleRecord 3 s1 = Ok tt s2 /\
    forRange [] handleRecord s2 = Ok tt s3 /\
    recordNum (wr s1) = 1%Z /\
    Num (hp s2 3) = 2%Z /\
    buf_of (storeChan (wr s3)) = [0; 3].
Proof.
  assert (H1 : running runWorld = true) by reflexivity.
  assert (H2 : recordNum (wr runWorld) = 0%Z) by reflexivity.
  assert (H3 : (Z.of_nat (List.length ([0; 1; 2] ++ 3 :: [])) < 2 ^ 63)%Z)
    by (vm_compute; reflexivity).
  split; [exact H1|]. split; [exact H2|]. split; [exact H3|].
  destruct (@sequence_numbers_enumerate_persisted memEnv runWorld [0; 1; 2] 3 []
              H1 H2 H3)
    as (s1 & s2 & s3 & E1 & E2 & E3 & _ & Hn & Hp & Hb).
  exists s1, s2, s3.
  split; [exact E1|]. split; [exact E2|]. split; [exact E3|].
  split; [exact Hn|]. split; [|exact Hb].
  destruct Hp as (_ & Hp & _). exact Hp.
Defined.

(** C2 fails on the code: offline, a request record whose [always_send]
    flag is not set is handled without being forwarded. *)
Lemma request_held_back_offline :
  is_request (hp runWorld 1) = true /\
  GetValue (GetXOffline (settings (wr runWorld))) = true /\
  (exists s',
     handleRecord 1 runWorld = Ok tt s' /\
     fwdChan (wr s') = fwdChan (wr runWorld) /\
     fwd_of (tr s') = []) /\
  ~ (exists s',
       handleRecord 1 runWorld = Ok tt s' /\
       In 1 (buf_of (fwdChan (wr s')))).
Proof.
  split; [reflexivity|]. split; [reflexivity|]. split.
  - eexists. split; [vm_compute; reflexivity|]. split; reflexivity.
  - intros (s' & H & Hin). vm_compute in H. inversion H. subst s'.
    cbn in Hin. exact Hin.
Qed.

Lemma request_forwarding_witness :
  forwarding runWorld = true /\
  is_request (hp runWorld 1) = true /\
  exists s',
    handleRecord 1 runWorld = Ok tt s' /\
    buf_of (fwdChan (wr s')) = [] /\
    storeChan (wr s') = storeChan (wr runWorld).
Proof.
  assert (H1 : forwarding runWorld = true) by reflexivity.
  assert (H2 : is_request (hp runWorld 1) = true) by reflexivity.
  split; [exact H1|]. split; [exact H2|].
  destruct (@request_forwarded_by_offline_rule memEnv runWorld 1 H1 H2)
    as (s' & E1 & Hf & Hs & _).
  exists s'. split; [exact E1|]. split; [exact Hf|exact Hs].
Defined.

Lemma forward_then_persist_witness :
  running runWorld = true /\
  is_data (hp runWorld 3) = true /\
  exists s1 s2 s3,
    forRange [0; 1; 2] handleRecord runWorld = Ok tt s1 /\
    handleRecord 3 s1 = Ok tt s2 /\
    forRange [] handleRecord s2 = Ok tt s3 /\
    tr s2 = tr s1 ++ [EvLog Debug "write: got a message"; EvFwd 3; EvStore 3] /\
    stored_of (tr s3) = [0; 3].
Proof.
  assert (H1 : running runWorld = true) by reflexivity.
  assert (H2 : is_data (hp runWorld 3) = true) by reflexivity.
  split; [exact H1|]. split; [exact H2|].
  destruct (@forward_then_persist_in_arrival_order memEnv runWorld [0; 1; 2] 3 []
              H1 H2)
    as (s1 & s2 & s3 & E1 & E2 & E3 & _ & _ & Ht & _ & _ & _ & Hs).
  exists s1, s2, s3.
  split; [exact E1|]. split; [exact E2|]. split; [exact E3|].
  split; [exact Ht|exact Hs].
Defined.

Lemma offline_rule_witness :
  running runWorld = true /\
  is_data (hp runWorld 0) = true /\
  exists s',
    handleRecord 0 runWorld = Ok tt s' /\
    buf_of (fwdChan (wr s')) = [] /\
    buf_of (storeChan (wr s')) = [0].
Proof.
  assert (H1 : running runWorld = true) by reflexivity.
  assert (H2 : is_data (hp runWorld 0) = true) by reflexivity.
  split; [exact H1|]. split; [exact H2|].
  destruct (@offline_rule_and_persistence memEnv runWorld 0 H1 H2)
    as (s' & E1 & Hf & Hs).
  exists s'. split; [exact E1|]. split; [exact Hf|exact Hs].
Defined.


(** C6 fails on the code: in the scenario, run offline, [Do] returns with
    D alone on the forwarding channel; the request B is not there. *)
Lemma scenario_forwards_D_only :
  exists s',
    Do [0; 1; 2; 3] (initWorld (stdOpts offlineSettings) scenarioHeap)
      = Ok tt s' /\
    buf_of (fwdChan (wr s')) = [3] /\
    buf_of (fwdChan (wr s')) <> [1; 3] /\
    stored_of (tr s') = [0; 3] /\
    Num (hp s' 0) = 1%Z /\ Num (hp s' 3) = 2%Z.
Proof.
  eexists. split; [vm_compute; reflexivity|].
  cbn. repeat split. discriminate.
Qed.

Lemma offline_scenario_witness :
  exists s',
    Do [0; 1; 2; 3] (initWorld (stdOpts offlineSettings) scenarioHeap)
      = Ok tt s' /\
    fwd_of (tr s') = [3] /\
    stored_of (tr s') = [0; 3] /\
    recv_of (tr s') = [0; 3] /\
    Num (hp s' 0) = 1%Z /\ Num (hp s' 3) = 2%Z.
Proof.
  assert (Hne : 0 <> 3) by lia.
  destruct (@offline_scenario memEnv (make_chan 32) offlineSettings scenarioHeap
              0 1 2 3
              eq_refl eq_refl eq_refl eq_refl eq_refl
              eq_refl eq_refl eq_refl eq_refl eq_refl
              eq_refl eq_refl eq_refl eq_refl eq_refl eq_refl Hne)
    as (s' & E1 & _ & Hf & Hs & Hr & Ha & Hd).
  exists s'. repeat split; assumption.
Defined.

Lemma open_failure_witness :
  GetValue (XSync offlineSettings) = false /\
  snd (@open_result noOpenEnv offlineSettings)
    = Some "open: permission denied"%string /\
  exists s',
    @Do noOpenEnv [0; 1; 2; 3]
      (initWorld [WithWriterFwdChannel (make_chan 32);
                  WithWriterSettings offlineSettings] scenarioHeap)
      = Panicked s' /\
    fwd_of (tr s') = [] /\ stored_of (tr s') = [] /\
    recordNum (wr s') = 0%Z.
Proof.
  split; [reflexivity|]. split; [reflexivity|].
  destruct (@open_failure_is_fatal noOpenEnv (make_chan 32) offlineSettings
              scenarioHeap [0; 1; 2; 3] "open: permission denied"%string
              eq_refl eq_refl eq_refl)
    as (E1 & Ht & _ & _ & Hn & _).
  eexists. split; [exact E1|]. rewrite Ht.
  split; [reflexivity|]. split; [reflexivity|exact Hn].
Defined.


Lemma sync_parks_witness :
  GetValue (XSync syncSettings) = true /\
  persisted scenarioHeap [1; 2] = [] /\
  persists (scenarioHeap 0) = true /\
  exists s',
    Do ([1; 2] ++ 0 :: [3]) (initWorld (stdOpts syncSettings) scenarioHeap)
      = Blocked s' /\
    storeChan (wr s') = None /\
    recordNum (wr s') = 1%Z /\
    Num (hp s' 0) = 1%Z /\
    stored_of (tr s') = [].
Proof.
  split; [reflexivity|]. split; [reflexivity|]. split; [reflexivity|].
  destruct (@sync_run_parks_on_nil_channel memEnv (make_chan 32) syncSettings
              scenarioHeap [1; 2] 0 [3] eq_refl eq_refl eq_refl eq_refl)
    as (_ & _ & _ & (s' & E1 & Hn & Hr & Hnum & Hs & _) & _).
  exists s'. repeat split; assumption.
Defined.

(** C5 at the scenario: D is on the forwarding channel with the number it
    arrived with, 0, before [storeRecord] gives it number 1. *)
Lemma handoff_witness :
  running runWorld = true /\
  is_data (hp runWorld 3) = true /\
  forwards (settings (wr runWorld)) (hp runWorld 3) = true /\
  GetLocal (GetControl (hp runWorld 3)) = false /\
  exists s1 s2,
    sendRecord 3 (add_ev (EvLog Debug "write: got a message") runWorld)
      = Ok tt s1 /\
    buf_of (fwdChan (wr s1)) = [3] /\
    buf_of (storeChan (wr s1)) = [] /\
    Num (hp s1 3) = 0%Z /\
    storeRecord 3 s1 = Ok tt s2 /\
    handleRecord 3 runWorld = Ok tt s2 /\
    Num (hp s2 3) = 1%Z /\
    Num (hp s1 3) <> Num (hp s2 3).
Proof.
  assert (H1 : running runWorld = true) by reflexivity.
  assert (H2 : is_data (hp runWorld 3) = true) by reflexivity.
  assert (H3 : forwards (settings (wr runWorld)) (hp runWorld 3) = true)
    by reflexivity.
  assert (H4 : GetLocal (GetControl (hp runWorld 3)) = false) by reflexivity.
  repeat (split; [assumption|]).
  destruct (@forward_hands_off_before_numbering memEnv runWorld 3 H1 H2 H3 H4)
    as (s1 & s2 & E1 & Hf & Hh & _ & Hq & E2 & E3 & _ & _ & Hn & Hne).
  exists s1, s2.
  split; [exact E1|]. split; [exact Hf|]. split; [exact Hq|].
  split; [now rewrite Hh|]. split; [exact E2|]. split; [exact E3|].
  split; [exact Hn|]. apply Hne. vm_compute. discriminate.
Defined.

(** C8 fails on the code: the record at address 4 cannot be serialised,
    and A, which comes after it, is written with number 2; without that
    record A is written with number 1. *)
Lemma failed_record_shifts_numbers :
  exists s1 s2,
    @Do flakyEnv [4; 0]
      (initWorld [WithWriterFwdChannel (make_chan 32);
                  WithWriterSettings onlineSettings] flakyHeap) = Ok tt s1 /\
    @Do flakyEnv [0]
      (initWorld [WithWriterFwdChannel (make_chan 32);
                  WithWriterSettings onlineSettings] flakyHeap) = Ok tt s2 /\
    In (EvLog Error "writer: error marshalling record") (tr s1) /\
    submitted (tr s1) = [[Byte.x02]] /\
    submitted (tr s2) = [[Byte.x01]] /\
    Num (hp s1 0) = 2%Z /\ Num (hp s2 0) = 1%Z /\
    submitted (tr s1) <> submitted (tr s2) /\
    hp s1 0 <> hp s2 0.
Proof.
  eexists. eexists.
  split; [vm_compute; reflexivity|]. split; [vm_compute; reflexivity|].
  cbn. split; [tauto|]. repeat (split; [reflexivity|]).
  split; discriminate.
Qed.

Lemma failing_records_witness :
  (exists s1 s2,
     forRange ([0] ++ 4 :: [3]) handleRecord runWorld = Ok tt s1 /\
     forRange ([0] ++ [3]) handleRecord runWorld = Ok tt s2 /\
     same_but_log s1 s2) /\
  (exists s1,
     workerRange 2 flakyWorld = Ok tt s1 /\
     recv_of (tr s1) = [4; 0] /\
     submitted (tr s1) = [[Byte.x00]] /\
     In (EvLog Error "writer: error marshalling record") (tr s1)) /\
  (exists s1,
     workerRange 2 fullWorld = Ok tt s1 /\
     recv_of (tr s1) = [0; 3] /\
     submitted (tr s1) = [[Byte.x00]; [Byte.x00]] /\
     store (wr s1) = Some [[Byte.x01]] /\
     In (EvWrite [Byte.x00] false) (tr s1)) /\
  (exists s1 s2,
     @Do flakyEnv ([] ++ 4 :: [0])
       (initWorld [WithWriterFwdChannel (make_chan 32);
                   WithWriterSettings onlineSettings] flakyHeap) = Ok tt s1 /\
     @Do flakyEnv ([] ++ [0])
       (initWorld [WithWriterFwdChannel (make_chan 32);
                   WithWriterSettings onlineSettings] flakyHeap) = Ok tt s2 /\
     submitted (tr s1) = [[Byte.x02]] /\
     submitted (tr s2) = [[Byte.x01]]).
Proof.
  destruct (@failing_records_are_passed_over memEnv) as (P1 & _ & _).
  destruct (@failing_records_are_passed_over flakyEnv) as (_ & P2 & P3).
  split; [|split; [|split]].
  - destruct (P1 runWorld [0] 4 [3] eq_refl eq_refl)
      as (s0 & s1 & s2 & _ & _ & E1 & E2 & Hs).
    exists s1, s2. repeat split; try assumption; apply Hs.
  - destruct (P2 flakyWorld (mkChan 256 [4; 0] false) [] [] 4 [0]
                eq_refl eq_refl eq_refl)
      as (s1 & E1 & Hr & _ & Hm).
    cbn in Hm. destruct Hm as (Hsub & _ & Hin).
    exists s1. repeat split; assumption.
  - destruct (P2 fullWorld (mkChan 256 [0; 3] false) [[Byte.x01]] [] 0 [3]
                eq_refl eq_refl eq_refl)
      as (s1 & E1 & Hr & _ & Hm).
    cbn in Hm. destruct Hm as (Hsub & Hsto & Hin).
    exists s1. split; [exact E1|]. split; [exact Hr|]. split; [exact Hsub|].
    split; [exact Hsto|]. apply Hin. discriminate.
  - assert (Hnd : NoDup (persisted flakyHeap ([] ++ 4 :: [0]))).
    { vm_compute. constructor; [intros [K|[]]; discriminate K|].
      constructor; [intros []|constructor]. }
    assert (Hlen : (Z.of_nat
                      (List.length
                         (persisted flakyHeap ([] ++ 4%nat :: [0%nat])))
                    < 2 ^ 63)%Z) by (vm_compute; reflexivity).
    destruct (P3 (make_chan 32) onlineSettings flakyHeap [] 4 [0]
                eq_refl eq_refl eq_refl Hnd Hlen eq_refl)
      as (s1 & s2 & E1 & E2 & S1 & S2).
    exists s1, s2. split; [exact E1|]. split; [exact E2|].
    split; [exact S1|exact S2].
Defined.

Lemma drain_witness :
  closed (make_chan 32) = false /\
  exists c',
    Conc.steps (Conc.init (stdOpts offlineSettings) scenarioHeap [0; 1; 2; 3]) c' /\
    Conc.pc c' = Conc.WDone /\
    existsb is_return (tr (Conc.world c')) = true /\
    fwd_of (tr (Conc.world c')) = [3] /\
    recv_of (tr (Conc.world c')) = [0; 3] /\
    attempts (tr (Conc.world c')) = 2 /\
    submitted (tr (Conc.world c')) = [[Byte.x01]; [Byte.x02]] /\
    forall sc, storeChan (wr (Conc.world c')) = Some sc ->
      buf sc = [] /\
      closes_of (tr (Conc.world c')) = 1 /\
      store (wr (Conc.world c')) = Some [[Byte.x01]; [Byte.x02]].
Proof.
  split; [reflexivity|].
  destruct (@drain_before_return memEnv (make_chan 32) offlineSettings
              scenarioHeap [0; 1; 2; 3] _ eq_refl (Conc.steps_refl _))
    as (_ & _ & Hlive & _).
  destruct (Hlive eq_refl eq_refl) as (_ & _ & c' & Hs & Hd).
  exists c'. split; [exact Hs|]. split; [exact Hd|].
  destruct (@drain_before_return memEnv (make_chan 32) offlineSettings
              scenarioHeap [0; 1; 2; 3] c' eq_refl Hs)
    as (_ & Hdone & _ & _ & Hall).
  destruct (Hdone Hd) as (Hret & Hsc).
  destruct (Hall Hd) as (Hfw & _ & Hrv & Hat & Hsto & Hfr).
  assert (Hnd : NoDup (persisted scenarioHeap [0; 1; 2; 3])).
  { vm_compute. constructor; [intros [K|[]]; discriminate K|].
    constructor; [intros []|constructor]. }
  assert (Hlen : (Z.of_nat
                    (List.length (persisted scenarioHeap [0; 1; 2; 3]%nat))
                  < 2 ^ 63)%Z) by (vm_compute; reflexivity).
  pose proof (Hfr Hnd Hlen) as Hsub.
  split; [exact Hret|]. split; [exact Hfw|]. split; [exact Hrv|].
  split; [exact Hat|]. split; [exact Hsub|].
  intros sc Hc. destruct (Hsc sc Hc) as (Hb & _ & _ & Hcl & _).
  split; [exact Hb|]. split; [exact Hcl|].
  rewrite (Hsto sc Hc), Hsub. reflexivity.
Defined.

(** * Construction, loop and closing at work *)

(** X2 on a Writer that was given a channel only. *)
Lemma Do_without_settings_witness :
  last_settings None [OptFwd (make_chan 32)] = None /\
  exists s',
    Do [0; 1] (@initWorld memEnv (map apply_spec [OptFwd (make_chan 32)])
                 scenarioHeap) = Panicked s' /\
    tr s' = [EvLog Fatal "panic"].
Proof.
  split; [reflexivity|].
  destruct (@Do_without_settings memEnv [OptFwd (make_chan 32)] scenarioHeap
              [0; 1] eq_refl) as (E1 & Ht & _).
  eexists. split; [exact E1|exact Ht].
Defined.

(** X3 at the scenario, offline: D alone is forwarded. *)
Lemma forwarding_order_witness :
  running runWorld = true /\
  exists s',
    forRange [0; 1; 2; 3] handleRecord runWorld = Ok tt s' /\
    buf_of (fwdChan (wr s')) = [3] /\
    fwd_of (tr s') = [3].
Proof.
  split; [reflexivity|].
  destruct (@forwarding_in_arrival_order memEnv runWorld [0; 1; 2; 3] eq_refl)
    as (s' & E1 & Hb & Hf).
  exists s'. split; [exact E1|]. split; [exact Hb|exact Hf].
Defined.

(** X5 at the scenario: A arrives twice and ends with number 2; the store
    channel holds it twice. *)
Lemma final_Num_witness :
  running runWorld = true /\
  recordNum (wr runWorld) = 0%Z /\
  persists (hp runWorld 0) = true /\
  ~ In 0 [3] /\
  exists s',
    forRange ([0] ++ 0 :: [3]) handleRecord runWorld = Ok tt s' /\
    Num (hp s' 0) = 2%Z /\
    buf_of (storeChan (wr s')) = [0; 0; 3].
Proof.
  assert (H3 : (Z.of_nat (List.length ([0] ++ 0 :: [3])) < 2 ^ 63)%Z)
    by (vm_compute; reflexivity).
  assert (H5 : ~ In 0 [3]) by (intros [K|[]]; discriminate K).
  split; [reflexivity|]. split; [reflexivity|]. split; [reflexivity|].
  split; [exact H5|].
  destruct (@final_Num_is_last_assignment memEnv runWorld [0] 0 [3]
              eq_refl eq_refl H3 eq_refl H5) as (s' & E1 & Hn & Hb).
  exists s'. split; [exact E1|]. split; [exact Hn|exact Hb].
Defined.

(** X6 at the last positive number. *)
Lemma counter_wraps_witness :
  running lastNumWorld = true /\
  (- 2 ^ 63 <= recordNum (wr lastNumWorld) < 2 ^ 63)%Z /\
  exists s',
    forRange [0] handleRecord lastNumWorld = Ok tt s' /\
    recordNum (wr s') = (- 2 ^ 63)%Z.
Proof.
  assert (H2 : (- 2 ^ 63 <= recordNum (wr lastNumWorld) < 2 ^ 63)%Z)
    by (cbn [lastNumWorld wr recordNum]; lia).
  split; [reflexivity|]. split; [exact H2|].
  destruct (@counter_wraps memEnv lastNumWorld [0] eq_refl H2)
    as (s' & E1 & Hn & _).
  exists s'. split; [exact E1|]. rewrite Hn. vm_compute. reflexivity.
Defined.

(** X7 on the running Writer of the scenario. *)
Lemma Close_twice_witness :
  Close runWorld = Ok tt (closing runWorld) /\
  Close (closing runWorld) = Panicked (closing runWorld).
Proof.
  assert (H : Close runWorld = Ok tt (closing runWorld))
    by (vm_compute; reflexivity).
  split; [exact H|].
  exact (@Close_twice_panics memEnv runWorld (closing runWorld) H).
Defined.

(** X8 at the scenario: after [Close], D panics the Writer and the nil
    record at address 7 goes through. *)
Lemma after_Close_witness :
  running runWorld = true /\
  exists s',
    Close runWorld = Ok tt s' /\
    (exists s'', handleRecord 3 s' = Panicked s'') /\
    (exists s'', handleRecord 7 s' = Ok tt s'' /\ wr s'' = wr s').
Proof.
  split; [reflexivity|].
  destruct (@handleRecord_after_Close memEnv runWorld 3 eq_refl)
    as (s' & E1 & H3).
  destruct (@handleRecord_after_Close memEnv runWorld 7 eq_refl)
    as (s7 & E7 & H7).
  assert (Hs : s7 = s') by congruence. subst s7.
  exists s'. split; [exact E1|]. split.
  - cbn in H3. destruct H3 as (s'' & Hp & _). now exists s''.
  - cbn in H7. destruct H7 as (s'' & Hp & Hw & _). now exists s''.
Defined.

(** * Missing channel, sync mode and the store at work *)

(** X10: the same Writer parks on D, which is always sent. *)
Lemma no_fwdChan_parks_witness :
  last_fwd None [OptSettings offlineSettings] = None /\
  forwarded (Some offlineSettings) scenarioHeap [0] = [] /\
  forwards (Some offlineSettings) (scenarioHeap 3) = true /\
  exists s',
    Do ([0] ++ 3 :: [1])
       (@initWorld memEnv (map apply_spec [OptSettings offlineSettings])
          scenarioHeap) = Blocked s' /\
    fwd_of (tr s') = [] /\
    stored_of (tr s') = [0].
Proof.
  split; [reflexivity|]. split; [reflexivity|]. split; [reflexivity|].
  destruct (@Do_without_fwdChan_parks memEnv
              [OptSettings offlineSettings] offlineSettings scenarioHeap
              [0] 3 [1] eq_refl eq_refl eq_refl eq_refl eq_refl eq_refl)
    as (s' & E1 & Hf & Hs & _).
  exists s'. split; [exact E1|]. split; [exact Hf|exact Hs].
Defined.

(** X11: in sync mode, the request B and the local record C go through. *)
Lemma sync_returns_witness :
  GetValue (XSync syncSettings) = true /\
  persisted scenarioHeap [1; 2] = [] /\
  exists s',
    Do [1; 2] (initWorld (stdOpts syncSettings) scenarioHeap) = Ok tt s' /\
    store (wr s') = None /\
    exists c, fwdChan (wr s') = Some c /\ closed c = true /\ buf c = [1; 2].
Proof.
  split; [reflexivity|]. split; [reflexivity|].
  destruct (@sync_run_without_data_returns memEnv (make_chan 32) syncSettings
              scenarioHeap [1; 2] eq_refl eq_refl eq_refl)
    as (s' & E1 & Hc & _ & Hs & _).
  exists s'. split; [exact E1|]. split; [exact Hs|exact Hc].
Defined.

(** X12: in sync mode, with A in the input, no call is made on a store. *)
Lemma sync_no_store_witness :
  GetValue (XSync syncSettings) = true /\
  exists s',
    Do [1; 0; 3] (initWorld (stdOpts syncSettings) scenarioHeap) = Blocked s' /\
    store (wr s') = None /\
    existsb is_storeop (tr s') = false.
Proof.
  split; [reflexivity|].
  destruct (@sync_run_never_touches_store memEnv (make_chan 32) syncSettings
              scenarioHeap [1; 0; 3] eq_refl eq_refl)
    as (s' & [[E1 Hn]|[E1 _]] & Hs & _ & _ & _ & Hq).
  - discriminate Hn.
  - exists s'. split; [exact E1|]. split; [exact Hs|exact Hq].
Defined.

(** X13: the worker skips the record that does not serialise and hands
    the frame of A to the store. *)
Lemma worker_frames_witness :
  storeChan (wr flakyWorld) = Some (mkChan 256 [4; 0] false) /\
  exists s',
    workerRange 2 flakyWorld = Ok tt s' /\
    submitted (tr s') = [[Byte.x00]] /\
    store (wr s') = Some [[Byte.x00]] /\
    recv_of (tr s') = [4; 0].
Proof.
  split; [reflexivity|].
  destruct (@worker_submits_every_frame flakyEnv flakyWorld
              (mkChan 256 [4; 0] false) [] eq_refl eq_refl)
    as (s' & E1 & Hsub & Hsto & _ & _ & _ & _ & Hr).
  exists s'. split; [exact E1|]. split; [exact Hsub|]. split; [exact Hsto|exact Hr].
Defined.

(** X14 at the scenario: the frames of A and D, numbered 1 and 2. *)
Lemma numbered_frames_witness :
  NoDup (persisted scenarioHeap [0; 1; 2; 3]) /\
  exists s',
    Do [0; 1; 2; 3] (initWorld (stdOpts offlineSettings) scenarioHeap)
      = Ok tt s' /\
    submitted (tr s') = [[Byte.x01]; [Byte.x02]] /\
    store (wr s') = Some [[Byte.x01]; [Byte.x02]].
Proof.
  assert (Hnd : NoDup (persisted scenarioHeap [0; 1; 2; 3])).
  { vm_compute. constructor; [intros [K|[]]; discriminate K|].
    constructor; [intros []|constructor]. }
  assert (Hlen : (Z.of_nat
                    (List.length (persisted scenarioHeap [0; 1; 2; 3]%nat))
                  < 2 ^ 63)%Z) by (vm_compute; reflexivity).
  split; [exact Hnd|].
  destruct (@Do_writes_numbered_frames memEnv (make_chan 32) offlineSettings
              scenarioHeap [0; 1; 2; 3] eq_refl eq_refl eq_refl Hnd Hlen)
    as (s' & E1 & Hsub & Hsto & _).
  exists s'. split; [exact E1|]. split; [exact Hsub|exact Hsto].
Defined.

(** * Interleaved runs at work *)

(** A run of the scenario in which the worker writes A while the Writer
    still has B, C and D to handle. *)
Lemma scenario_steps :
  Conc.steps (Conc.init (stdOpts offlineSettings) scenarioHeap [0; 1; 2; 3])
    (Conc.mkConf (Conc.WRun [1; 2; 3]) (iter1 (handled 0 runWorld))).
Proof.
  eapply Conc.steps_snoc; [eapply Conc.steps_snoc; [eapply Conc.steps_snoc|]|].
  - apply Conc.steps_refl.
  - apply (@Conc.step_start memEnv [0; 1; 2; 3] _ runWorld).
    vm_compute. reflexivity.
  - apply (@Conc.step_handle memEnv 0 [1; 2; 3] runWorld (handled 0 runWorld)).
    + vm_compute. reflexivity.
    + vm_compute. lia.
  - apply (@Conc.step_worker memEnv (Conc.WRun [1; 2; 3]) (handled 0 runWorld)
             (iter1 (handled 0 runWorld))).
    + discriminate.
    + reflexivity.
    + vm_compute. reflexivity.
Defined.

(** X15 in that run: B is handled without a panic. *)
Lemma no_panic_witness :
  closed (make_chan 32) = false /\
  forall s', handleRecord 1 (iter1 (handled 0 runWorld)) <> Panicked s'.
Proof.
  split; [reflexivity|]. intros s'.
  destruct (@only_open_failure_panics memEnv (make_chan 32) offlineSettings
              scenarioHeap [0; 1; 2; 3] _ eq_refl scenario_steps)
    as (_ & H & _).
  exact (H 1 [2; 3] s' eq_refl).
Defined.

(** X16 in that run: one [Open], one write. *)
Lemma store_protocol_witness :
  closed (make_chan 32) = false /\
  store_calls (tr (iter1 (handled 0 runWorld))) =
    [EvOpen true; EvWrite [Byte.x01] true] /\
  protocol_ok (store_calls (tr (iter1 (handled 0 runWorld)))) = true.
Proof.
  split; [reflexivity|]. split; [reflexivity|].
  destruct (@store_calls_follow_protocol memEnv (make_chan 32) offlineSettings
              scenarioHeap [0; 1; 2; 3] _ eq_refl scenario_steps)
    as (H & _).
  exact H.
Defined.

(** X17 in that run: the frame of A, numbered 1, is the one written. *)
Lemma numbered_in_run_witness :
  NoDup (persisted scenarioHeap [0; 1; 2; 3]) /\
  recv_of (tr (iter1 (handled 0 runWorld))) = [0] /\
  submitted (tr (iter1 (handled 0 runWorld))) = [[Byte.x01]].
Proof.
  assert (Hnd : NoDup (persisted scenarioHeap [0; 1; 2; 3])).
  { vm_compute. constructor; [intros [K|[]]; discriminate K|].
    constructor; [intros []|constructor]. }
  assert (Hlen : (Z.of_nat
                    (List.length (persisted scenarioHeap [0; 1; 2; 3]%nat))
                  < 2 ^ 63)%Z) by (vm_compute; reflexivity).
  split; [exact Hnd|]. split; [reflexivity|].
  destruct (@frames_are_numbered_in_every_run memEnv (make_chan 32)
              offlineSettings scenarioHeap [0; 1; 2; 3] _ eq_refl Hnd Hlen
              scenario_steps)
    as (H & _).
  exact H.
Defined.

(** * The loop that parks, and the run without a forwarding channel *)


(** X9: offline and built with settings only, the Writer handles A and C
    and some run ends in the panic of [Close], with A queued and the
    store never closed. *)
Lemma no_fwdChan_panic_witness :
  last_fwd None [OptSettings offlineSettings] = None /\
  forwarded (Some offlineSettings) scenarioHeap [0; 2] = [] /\
  exists c,
    Conc.steps
      (@Conc.init memEnv (map apply_spec [OptSettings offlineSettings])
         scenarioHeap [0; 2]) c /\
    Conc.pc c = Conc.WPanic /\
    stored_of (tr (Conc.world c)) = [0] /\
    closes_of (tr (Conc.world c)) = 0 /\
    worker (Conc.world c) = Ranging /\
    forall c', ~ Conc.step c c'.
Proof.
  split; [reflexivity|]. split; [reflexivity|].
  destruct (@no_fwdChan_run_panics_in_Close memEnv
              [OptSettings offlineSettings] offlineSettings scenarioHeap [0; 2]
              eq_refl eq_refl eq_refl eq_refl eq_refl)
    as (Hall & c & Hs & Hp).
  exists c. split; [exact Hs|]. split; [exact Hp|].
  destruct (Hall c Hs) as (_ & _ & _ & _ & _ & Hcl & _ & _ & Hpan & _).
  destruct (Hpan Hp) as (Hst & Hw & _).
  split; [exact Hst|]. split; [exact Hcl|]. split; [exact Hw|].
  intros c' Hstep. destruct c as [k s]. cbn in Hp. subst k.
  inversion Hstep; subst. congruence.
Defined.
